(** * react-s3-ui: the object-namespace session engine of [src/App.jsx]

    A shallow embedding of the handlers of the [App] and [ConnectionManager]
    components (connect, listing, navigation, recursive delete, upload) and
    the properties of the design document checked against them.

    Conventions of the embedding:
    - React state is the record [AppState]; a handler is a computation in the
      monad [M], which threads the state, appends to a log of observable
      events (store requests, notifications, transfer lifecycle) and may end
      by a thrown error.
    - The object store is an oracle ([S3.Client]): for each request it says
      whether the promise rejects or which response it resolves to.
    - A handler reads the variables captured by its closure from the state it
      is started in; an un-awaited call is run at its call site.  Where a
      property depends on what happens between a request and its answer, the
      listing handlers are cut at their [await] and the requests in flight
      are part of the state (section "Answers that arrive later").
    - A JavaScript Number is a binary64 value, with the arithmetic of the
      Standard Library's [SpecFloat]. *)

From Stdlib Require Import String Ascii List Bool Arith ZArith NArith Lia DecimalString.
From Stdlib Require SpecFloat.
Import ListNotations.
Open Scope string_scope.
Open Scope list_scope.

(* ------------------------------------------------------------------ *)
(** ** JavaScript values and built-ins used by the source *)

Module Js.

(** A thrown value; the handlers only ever read [error.name]. *)
Record Error := { name : string }.

(** Truthiness of a string: only the empty string is falsy. *)
Definition truthy (s : string) : bool := negb (s =? "").

(** Truthiness of [string | null | undefined]. *)
Definition truthy_opt (o : option string) : bool :=
  match o with
  | Some s => truthy s
  | None => false
  end.

(** [s.endsWith(suffix)] *)
Fixpoint endsWith (s suffix : string) : bool :=
  (s =? suffix)
  || match s with
     | EmptyString => false
     | String _ s' => endsWith s' suffix
     end.

(** [s.startsWith(p)], also the store's notion of a key lying under a
    prefix. *)
Definition startsWith (s p : string) : bool := String.prefix p s.

(** [s.split(sep)] for a one-character separator. *)
Fixpoint split (sep : ascii) (s : string) : list string :=
  match s with
  | EmptyString => [""]
  | String c s' =>
      if Ascii.eqb c sep then "" :: split sep s'
      else match split sep s' with
           | h :: t => String c h :: t
           | [] => [String c ""]
           end
  end.

(** [l.join(sep)]; a [null] element is rendered as the empty string. *)
Definition join (sep : string) (l : list (option string)) : string :=
  String.concat sep (map (fun o => match o with Some s => s | None => "" end) l).

(** [l.slice(from, to)] for non-negative indices. *)
Definition slice {A : Type} (l : list A) (from to : nat) : list A :=
  firstn (to - from) (skipn from l).

(** [[...new Set(l)]]: a [Set] iterates in insertion order, so the first
    occurrence of every element is kept. *)
Definition Set_add (seen : list string) (k : string) : list string :=
  if existsb (String.eqb k) seen then seen else seen ++ [k].

Definition spread_new_Set (l : list string) : list string :=
  fold_left Set_add l [].

(** Decimal rendering of a non-negative integer in a template string. *)
Definition toString (n : N) : string := NilEmpty.string_of_uint (N.to_uint n).

(** A JavaScript Number: an IEEE 754 binary64 value, that is, a
    floating-point number with 53 bits of precision whose exponent range
    ends at 1024. *)
Definition Number : Type := SpecFloat.spec_float.

Definition prec : Z := 53.
Definition emax : Z := 1024.

(** The Number that carries a byte count: the count itself below [2^53],
    and the nearest Number from there on. *)
Definition ofN (n : N) : Number :=
  SpecFloat.binary_normalize prec emax (Z.of_N n) 0 false.

(** [x / y] and [x * y]: the quotient and the product, rounded to the
    nearest Number, ties to even. *)
Definition div (x y : Number) : Number := SpecFloat.SFdiv prec emax x y.
Definition mul (x y : Number) : Number := SpecFloat.SFmul prec emax x y.

(** [Math.round(x)]: for a zero, 0; for a finite Number
    [x = (-1)^s * m * 2^e], the integer nearest to the value of [x], ties
    towards +infinity, the rounding itself being exact.  [NaN] and the
    infinities are not integers: [Math.round] gives them back, and 0 stands
    for them here. *)
Definition Math_round (x : Number) : Z :=
  match x with
  | SpecFloat.S754_zero _ => 0%Z
  | SpecFloat.S754_finite s m e =>
      let n := SpecFloat.cond_Zopp s (Z.pos m) in
      match e with
      | Zneg k => ((2 * n + 2 ^ Z.pos k) / 2 ^ (Z.pos k + 1))%Z
      | _ => (n * 2 ^ e)%Z
      end
  | SpecFloat.S754_infinity _ | SpecFloat.S754_nan => 0%Z
  end.

(** [Number.MAX_SAFE_INTEGER], [2^53 - 1]: up to it every integer is a
    Number. *)
Definition MAX_SAFE_INTEGER : N := 9007199254740991.

End Js.

(** A local file handed over by the file input. *)
Module Web.
Record File := { name : string; size : N }.
End Web.

(* ------------------------------------------------------------------ *)
(** ** The store protocol (the part of [@aws-sdk] the source uses) *)

Module S3.

Record Bucket := { Name : string }.

Record Object := { Key : string; Size : N; LastModified : string }.

Record CommonPrefix := { Prefix : string }.

Record ListObjectsV2Output := {
  Contents : option (list Object);
  CommonPrefixes : option (list CommonPrefix);
  NextContinuationToken : option string
}.

(** The requests the source sends, with the parameters it passes. *)
Inductive Command :=
| ListBucketsCommand
| ListObjectsV2Command (Bucket Prefix : string)
                       (Delimiter ContinuationToken : option string)
| DeleteObjectsCommand (Bucket : string) (Objects : list string).

(** One [httpUploadProgress] event of [lib-storage]'s [Upload]. *)
Record Progress := { loaded : N; total : option N }.

(** What an [Upload] does once [done()] is called: the progress events it
    emits, then whether the promise rejects. *)
Record Transfer := { events : list Progress; settles : option Js.Error }.

(** The connected client, as an oracle for the store's answers: [inl e]
    is a rejected promise. *)
Record Client := {
  listBuckets : Js.Error + option (list Bucket);
  listObjectsV2 :
    string -> string -> option string -> option string ->
    Js.Error + ListObjectsV2Output;
  deleteObjects : string -> list string -> Js.Error + unit;
  upload : string -> string -> Web.File -> Transfer
}.

End S3.

(** Connection parameters and the saved-connection list. *)
Module Conn.
Record Details := { endpoint : string; accessKey : string; secretKey : string }.
Record SaveConfig := { name : string; details : Details }.
Record Saved := { id : N; config : SaveConfig }.
End Conn.

(* ------------------------------------------------------------------ *)
(** ** Application state ([useState] of [App]) *)

(** An entry of the displayed listing: [{ Key, isFolder: true }] for a
    common prefix, [{ ...c, isFolder: false }] for an object. *)
Record ObjectEntry := {
  Key : string;
  isFolder : bool;
  Size : option N;
  LastModified : option string
}.

Record UploadTask := { id : string; name : string; progress : Z }.

Record AppState := {
  s3Client : option S3.Client;
  buckets : list S3.Bucket;
  selectedBucket : option string;
  objects : list ObjectEntry;
  prefix : string;
  isLoadingBuckets : bool;
  isLoadingObjects : bool;
  uploadingFiles : list UploadTask;
  selectedItems : list string;
  isDeleteModalOpen : bool;
  searchQuery : string;
  savedConnections : list Conn.Saved
}.

Definition initialState : AppState :=
  {| s3Client := None; buckets := []; selectedBucket := None; objects := [];
     prefix := ""; isLoadingBuckets := false; isLoadingObjects := false;
     uploadingFiles := []; selectedItems := []; isDeleteModalOpen := false;
     searchQuery := ""; savedConnections := [] |}.

(** Observable effects of a handler, in the order they happen. *)
Inductive Event :=
| Sent (c : S3.Command)
| ShowAlert (message type : string)
| UploadBegin (uploadId Bucket Key : string)
| UploadProgress (uploadId : string) (percent : Z)
| UploadSettled (uploadId : string) (ok : bool).

(* ------------------------------------------------------------------ *)
(** ** The handler monad *)

Inductive Outcome (A : Type) :=
| Returned (a : A)
| Threw (e : Js.Error)
| OutOfFuel.
Arguments Returned {A} a.
Arguments Threw {A} e.
Arguments OutOfFuel {A}.

Definition M (A : Type) : Type := AppState -> Outcome A * AppState * list Event.

Definition ret {A} (a : A) : M A := fun st => (Returned a, st, []).

Definition bind {A B} (m : M A) (k : A -> M B) : M B :=
  fun st =>
    let '(o, st1, l1) := m st in
    match o with
    | Returned a => let '(o2, st2, l2) := k a st1 in (o2, st2, l1 ++ l2)
    | Threw e => (Threw e, st1, l1)
    | OutOfFuel => (OutOfFuel, st1, l1)
    end.

Declare Scope handler_scope.
Delimit Scope handler_scope with handler.
Notation "x <- m ;; k" := (bind m (fun x => k))
  (at level 61, m at next level, right associativity) : handler_scope.
Notation "m ;; k" := (bind m (fun _ => k))
  (at level 61, right associativity) : handler_scope.
Open Scope handler_scope.

Definition throw {A} (e : Js.Error) : M A := fun st => (Threw e, st, []).
Definition diverge {A} : M A := fun st => (OutOfFuel, st, []).
Definition emit (ev : Event) : M unit := fun st => (Returned tt, st, [ev]).
Definition modify (f : AppState -> AppState) : M unit :=
  fun st => (Returned tt, f st, []).

(** [try { m } catch (error) { h error }] *)
Definition try_catch {A} (m : M A) (h : Js.Error -> M A) : M A :=
  fun st =>
    let '(o, st1, l1) := m st in
    match o with
    | Threw e => let '(o2, st2, l2) := h e st1 in (o2, st2, l1 ++ l2)
    | _ => (o, st1, l1)
    end.

(** [try { m } finally { f }] *)
Definition finally {A} (m : M A) (f : M unit) : M A :=
  fun st =>
    let '(o, st1, l1) := m st in
    match o with
    | OutOfFuel => (OutOfFuel, st1, l1)
    | _ =>
        let '(o2, st2, l2) := f st1 in
        (match o2 with
         | Returned _ => o
         | Threw e => Threw e
         | OutOfFuel => OutOfFuel
         end, st2, l1 ++ l2)
    end.

(** [for (const x of l) { body x }], with the iteration index at hand. *)
Fixpoint for_of {A} (l : list A) (k : nat) (body : nat -> A -> M unit) : M unit :=
  match l with
  | [] => ret tt
  | x :: rest => body k x ;; for_of rest (S k) body
  end.

(** Awaiting a store promise: the request is logged, a rejection throws. *)
Definition await_send {A} (c : S3.Command) (answer : Js.Error + A) : M A :=
  emit (Sent c) ;;
  match answer with
  | inl e => throw e
  | inr a => ret a
  end.

Definition result_of {A} (r : Outcome A * AppState * list Event) : Outcome A := fst (fst r).
Definition state_of {A} (r : Outcome A * AppState * list Event) : AppState := snd (fst r).
Definition log_of {A} (r : Outcome A * AppState * list Event) : list Event := snd r.

(* ------------------------------------------------------------------ *)
(** ** State setters *)

Definition setS3Client v : M unit := modify (fun st =>
  {| s3Client := v; buckets := buckets st; selectedBucket := selectedBucket st;
     objects := objects st; prefix := prefix st;
     isLoadingBuckets := isLoadingBuckets st; isLoadingObjects := isLoadingObjects st;
     uploadingFiles := uploadingFiles st; selectedItems := selectedItems st;
     isDeleteModalOpen := isDeleteModalOpen st; searchQuery := searchQuery st;
     savedConnections := savedConnections st |}).

Definition setBuckets v : M unit := modify (fun st =>
  {| s3Client := s3Client st; buckets := v; selectedBucket := selectedBucket st;
     objects := objects st; prefix := prefix st;
     isLoadingBuckets := isLoadingBuckets st; isLoadingObjects := isLoadingObjects st;
     uploadingFiles := uploadingFiles st; selectedItems := selectedItems st;
     isDeleteModalOpen := isDeleteModalOpen st; searchQuery := searchQuery st;
     savedConnections := savedConnections st |}).

Definition setSelectedBucket v : M unit := modify (fun st =>
  {| s3Client := s3Client st; buckets := buckets st; selectedBucket := v;
     objects := objects st; prefix := prefix st;
     isLoadingBuckets := isLoadingBuckets st; isLoadingObjects := isLoadingObjects st;
     uploadingFiles := uploadingFiles st; selectedItems := selectedItems st;
     isDeleteModalOpen := isDeleteModalOpen st; searchQuery := searchQuery st;
     savedConnections := savedConnections st |}).

Definition setObjects v : M unit := modify (fun st =>
  {| s3Client := s3Client st; buckets := buckets st; selectedBucket := selectedBucket st;
     objects := v; prefix := prefix st;
     isLoadingBuckets := isLoadingBuckets st; isLoadingObjects := isLoadingObjects st;
     uploadingFiles := uploadingFiles st; selectedItems := selectedItems st;
     isDeleteModalOpen := isDeleteModalOpen st; searchQuery := searchQuery st;
     savedConnections := savedConnections st |}).

Definition setPrefix v : M unit := modify (fun st =>
  {| s3Client := s3Client st; buckets := buckets st; selectedBucket := selectedBucket st;
     objects := objects st; prefix := v;
     isLoadingBuckets := isLoadingBuckets st; isLoadingObjects := isLoadingObjects st;
     uploadingFiles := uploadingFiles st; selectedItems := selectedItems st;
     isDeleteModalOpen := isDeleteModalOpen st; searchQuery := searchQuery st;
     savedConnections := savedConnections st |}).

Definition setIsLoadingBuckets v : M unit := modify (fun st =>
  {| s3Client := s3Client st; buckets := buckets st; selectedBucket := selectedBucket st;
     objects := objects st; prefix := prefix st;
     isLoadingBuckets := v; isLoadingObjects := isLoadingObjects st;
     uploadingFiles := uploadingFiles st; selectedItems := selectedItems st;
     isDeleteModalOpen := isDeleteModalOpen st; searchQuery := searchQuery st;
     savedConnections := savedConnections st |}).

Definition setIsLoadingObjects v : M unit := modify (fun st =>
  {| s3Client := s3Client st; buckets := buckets st; selectedBucket := selectedBucket st;
     objects := objects st; prefix := prefix st;
     isLoadingBuckets := isLoadingBuckets st; isLoadingObjects := v;
     uploadingFiles := uploadingFiles st; selectedItems := selectedItems st;
     isDeleteModalOpen := isDeleteModalOpen st; searchQuery := searchQuery st;
     savedConnections := savedConnections st |}).

(** [setUploadingFiles(prev => f prev)] *)
Definition setUploadingFiles (f : list UploadTask -> list UploadTask) : M unit :=
  modify (fun st =>
  {| s3Client := s3Client st; buckets := buckets st; selectedBucket := selectedBucket st;
     objects := objects st; prefix := prefix st;
     isLoadingBuckets := isLoadingBuckets st; isLoadingObjects := isLoadingObjects st;
     uploadingFiles := f (uploadingFiles st); selectedItems := selectedItems st;
     isDeleteModalOpen := isDeleteModalOpen st; searchQuery := searchQuery st;
     savedConnections := savedConnections st |}).

Definition setSelectedItems v : M unit := modify (fun st =>
  {| s3Client := s3Client st; buckets := buckets st; selectedBucket := selectedBucket st;
     objects := objects st; prefix := prefix st;
     isLoadingBuckets := isLoadingBuckets st; isLoadingObjects := isLoadingObjects st;
     uploadingFiles := uploadingFiles st; selectedItems := v;
     isDeleteModalOpen := isDeleteModalOpen st; searchQuery := searchQuery st;
     savedConnections := savedConnections st |}).

Definition setIsDeleteModalOpen v : M unit := modify (fun st =>
  {| s3Client := s3Client st; buckets := buckets st; selectedBucket := selectedBucket st;
     objects := objects st; prefix := prefix st;
     isLoadingBuckets := isLoadingBuckets st; isLoadingObjects := isLoadingObjects st;
     uploadingFiles := uploadingFiles st; selectedItems := selectedItems st;
     isDeleteModalOpen := v; searchQuery := searchQuery st;
     savedConnections := savedConnections st |}).

Definition setSearchQuery v : M unit := modify (fun st =>
  {| s3Client := s3Client st; buckets := buckets st; selectedBucket := selectedBucket st;
     objects := objects st; prefix := prefix st;
     isLoadingBuckets := isLoadingBuckets st; isLoadingObjects := isLoadingObjects st;
     uploadingFiles := uploadingFiles st; selectedItems := selectedItems st;
     isDeleteModalOpen := isDeleteModalOpen st; searchQuery := v;
     savedConnections := savedConnections st |}).

Definition setSavedConnections v : M unit := modify (fun st =>
  {| s3Client := s3Client st; buckets := buckets st; selectedBucket := selectedBucket st;
     objects := objects st; prefix := prefix st;
     isLoadingBuckets := isLoadingBuckets st; isLoadingObjects := isLoadingObjects st;
     uploadingFiles := uploadingFiles st; selectedItems := selectedItems st;
     isDeleteModalOpen := isDeleteModalOpen st; searchQuery := searchQuery st;
     savedConnections := v |}).

Definition showAlert (message type : string) : M unit := emit (ShowAlert message type).

(** The double-quote character of the notification templates. *)
Definition dq : string := String (Ascii.ascii_of_nat 34) EmptyString.

(* ------------------------------------------------------------------ *)
(** ** Session: [handleTestConnection], [handleConnect], [handleDisconnect] *)

Module ConnectionManager.

Record TestResult := { message : string; type : string }.

Record State := {
  endpoint : string;
  accessKey : string;
  secretKey : string;
  isTesting : bool;
  testResult : TestResult
}.

(** The text shown for a failed test (the [catch] block). *)
Definition testFailure (error : Js.Error) : TestResult :=
  let errorMessage := ("Error: " ++ Js.name error ++ ". ")%string in
  let errorMessage :=
    (if Js.name error =? "NetworkError"
     then errorMessage ++ "This could be a CORS issue. Please check your Minio server's CORS configuration."
     else errorMessage ++ "Check your credentials and endpoint URL.")%string in
  {| message := errorMessage; type := "error" |}.

(** [handleTestConnection]: the final form state and the requests sent.
    [S3Client] stands for [new S3Client(...)], the store behind the
    endpoint deciding its answers. *)
(** [{ endpoint, accessKey, secretKey }], what the form connects with. *)
Definition connectionDetails (st : State) : Conn.Details :=
  {| Conn.endpoint := endpoint st; Conn.accessKey := accessKey st;
     Conn.secretKey := secretKey st |}.

Definition handleTestConnection (S3Client : Conn.Details -> S3.Client)
    (st : State) : State * list S3.Command :=
  let client := S3Client (connectionDetails st) in
  let result :=
    match S3.listBuckets client with
    | inr _ => {| message := "Success! Connection is working."; type := "success" |}
    | inl error => testFailure error
    end in
  ({| endpoint := endpoint st; accessKey := accessKey st; secretKey := secretKey st;
      isTesting := false; testResult := result |},
   [S3.ListBucketsCommand]).

End ConnectionManager.

(** [l.findIndex(p)]; [None] is the source's [-1]. *)
Fixpoint findIndex {A} (p : A -> bool) (l : list A) : option nat :=
  match l with
  | [] => None
  | x :: rest => if p x then Some 0 else option_map S (findIndex p rest)
  end.

(** [l[i] = f(l[i])] on a copy, for an index inside the array. *)
Fixpoint updateAt {A} (l : list A) (i : nat) (f : A -> A) : list A :=
  match l, i with
  | [], _ => []
  | x :: rest, 0 => f x :: rest
  | x :: rest, S i' => x :: updateAt rest i' f
  end.

(** [handleConnect]; [now] is the reading of [Date.now()]. *)
Definition handleConnect (S3Client : Conn.Details -> S3.Client) (now : N)
    (connectionDetails : Conn.Details) (saveConfig : option Conn.SaveConfig) : M unit :=
  fun st =>
    (try_catch
       (let client := S3Client connectionDetails in
        _ <- await_send S3.ListBucketsCommand (S3.listBuckets client) ;;
        match saveConfig with
        | Some cfg =>
            match findIndex (fun c => Conn.name (Conn.config c) =? Conn.name cfg)
                            (savedConnections st) with
            | Some existingIndex =>
                setSavedConnections
                  (updateAt (savedConnections st) existingIndex
                     (fun old => {| Conn.id := Conn.id old; Conn.config := cfg |}))
            | None =>
                setSavedConnections
                  (savedConnections st ++ [{| Conn.id := now; Conn.config := cfg |}])
            end ;;
            showAlert ("Connection " ++ dq ++ Conn.name cfg ++ dq ++ " saved!") "success"
        | None => ret tt
        end ;;
        setS3Client (Some client))
       (fun error => showAlert ("Connection failed: " ++ Js.name error ++ ".") "error")) st.

Definition handleDisconnect : M unit :=
  setS3Client None ;;
  setBuckets [] ;;
  setSelectedBucket None ;;
  setObjects [] ;;
  setPrefix "" ;;
  setSelectedItems [] ;;
  setSearchQuery "" ;;
  showAlert "Disconnected." "info".

(* ------------------------------------------------------------------ *)
(** ** Namespace navigator: [fetchBuckets], [fetchObjects], navigation *)

Definition fetchBuckets : M unit :=
  fun st =>
    match s3Client st with
    | None => ret tt st
    | Some client =>
        (setIsLoadingBuckets true ;;
         finally
           (try_catch
              (Buckets <- await_send S3.ListBucketsCommand (S3.listBuckets client) ;;
               setBuckets (match Buckets with Some bs => bs | None => [] end))
              (fun _ => showAlert "Could not fetch buckets." "error"))
           (setIsLoadingBuckets false)) st
    end.

Definition folderEntry (p : S3.CommonPrefix) : ObjectEntry :=
  {| Key := S3.Prefix p; isFolder := true; Size := None; LastModified := None |}.

Definition fileEntry (c : S3.Object) : ObjectEntry :=
  {| Key := S3.Key c; isFolder := false; Size := Some (S3.Size c);
     LastModified := Some (S3.LastModified c) |}.

(** The entries built from one listing response (lines 328-330). *)
Definition listingEntries (currentPrefix : string)
    (response : S3.ListObjectsV2Output) : list ObjectEntry :=
  let folders :=
    map folderEntry
        (match S3.CommonPrefixes response with Some ps => ps | None => [] end) in
  let files :=
    map fileEntry
        (filter (fun c => negb (S3.Key c =? currentPrefix))
                (match S3.Contents response with Some cs => cs | None => [] end)) in
  folders ++ files.

Definition fetchObjects (bucket : option string) (currentPrefix : string) : M unit :=
  fun st =>
    match s3Client st, bucket with
    | Some client, Some bucket =>
        if negb (Js.truthy bucket) then ret tt st
        else
          (setIsLoadingObjects true ;;
           setSelectedItems [] ;;
           setSearchQuery "" ;;
           finally
             (try_catch
                (response <-
                   await_send
                     (S3.ListObjectsV2Command bucket currentPrefix (Some "/") None)
                     (S3.listObjectsV2 client bucket currentPrefix (Some "/") None) ;;
                 setObjects (listingEntries currentPrefix response))
                (fun _ => showAlert ("Could not list objects in " ++ bucket ++ ".") "error"))
             (setIsLoadingObjects false)) st
    | _, _ => ret tt st
    end.

(** [useEffect(() => { if (s3Client) fetchObjects(selectedBucket, prefix) },
    [selectedBucket, prefix, s3Client, fetchObjects])]: the body. *)
Definition effectFetchObjects : M unit :=
  fun st =>
    match s3Client st with
    | Some _ => fetchObjects (selectedBucket st) (prefix st) st
    | None => ret tt st
    end.

Definition sameBucket (a b : option string) : bool :=
  match a, b with
  | Some x, Some y => x =? y
  | None, None => true
  | _, _ => false
  end.

(** Whether the navigator context [(selectedBucket, prefix)] differs. *)
Definition contextChanged (before after : AppState) : bool :=
  negb (sameBucket (selectedBucket before) (selectedBucket after)
        && (prefix before =? prefix after)).

(** [breadcrumbs] (line 450). *)
Definition breadcrumbs (st : AppState) : list (option string) :=
  Some "Buckets" :: selectedBucket st
    :: map Some (filter Js.truthy (Js.split "/" (prefix st))).

(** The click handlers that move the navigator. *)
Inductive NavAction :=
| ClickBucket (bucket : S3.Bucket)
| ClickBreadcrumb (i : nat)
| ClickEntry (obj : ObjectEntry).

Definition onClick (a : NavAction) : M unit :=
  fun st =>
    match a with
    | ClickBucket bucket =>
        (setSelectedBucket (Some (S3.Name bucket)) ;; setPrefix "") st
    | ClickBreadcrumb 0 => (setSelectedBucket None ;; setPrefix "") st
    | ClickBreadcrumb 1 => setPrefix "" st
    | ClickBreadcrumb i =>
        let newPrefix :=
          (Js.join "/" (Js.slice (breadcrumbs st) 2 (i + 1)) ++ "/")%string in
        setPrefix newPrefix st
    | ClickEntry obj => (if isFolder obj then setPrefix (Key obj) else ret tt) st
    end.

(** A navigation click followed by the re-render: the listing effect runs
    when one of its dependencies changed; these handlers leave [s3Client]
    alone, so that is when the context changed. *)
Definition navigate (a : NavAction) : M unit :=
  fun st =>
    (onClick a ;;
     (fun st' => if contextChanged st st' then effectFetchObjects st' else ret tt st')) st.

(* ------------------------------------------------------------------ *)
(** ** Upload tracker: [handleFileUpload] *)

(** The percentage of one [httpUploadProgress] event (line 354):
    [progress.total ? Math.round((progress.loaded / progress.total) * 100) : 0],
    computed on Numbers as the source does. *)
Definition percentOf (progress : S3.Progress) : Z :=
  match S3.total progress with
  | Some t =>
      if (t =? 0)%N then 0%Z
      else Js.Math_round
             (Js.mul (Js.div (Js.ofN (S3.loaded progress)) (Js.ofN t)) (Js.ofN 100))
  | None => 0%Z
  end.

(** The [httpUploadProgress] callback of the task [uploadId] (lines 353-356). *)
Definition onHttpUploadProgress (uploadId : string) (progress : S3.Progress) : M unit :=
  let percent := percentOf progress in
  emit (UploadProgress uploadId percent) ;;
  setUploadingFiles
    (fun prev =>
       map (fun f =>
              if id f =? uploadId
              then {| id := id f; name := name f; progress := percent |}
              else f) prev).

(** The body of the [for] loop for one file; [now] is [Date.now()]. *)
Definition uploadOne (client : S3.Client) (bucket currentPrefix : string)
    (now : N) (file : Web.File) : M unit :=
  let uploadId := (Web.name file ++ "-" ++ Js.toString now)%string in
  let key := (currentPrefix ++ Web.name file)%string in
  setUploadingFiles
    (fun prev => prev ++ [{| id := uploadId; name := Web.name file; progress := 0 |}]) ;;
  finally
    (try_catch
       (let parallelUploads3 := S3.upload client bucket key file in
        emit (UploadBegin uploadId bucket key) ;;
        for_of (S3.events parallelUploads3) 0
          (fun _ progress => onHttpUploadProgress uploadId progress) ;;
        match S3.settles parallelUploads3 with
        | Some err => emit (UploadSettled uploadId false) ;; throw err
        | None => emit (UploadSettled uploadId true)
        end ;;
        showAlert ("File " ++ dq ++ Web.name file ++ dq ++ " uploaded successfully.")
                  "success" ;;
        fetchObjects (Some bucket) currentPrefix)
       (fun _ =>
          showAlert ("Failed to upload " ++ dq ++ Web.name file ++ dq ++ ".") "error"))
    (setUploadingFiles (fun prev => filter (fun f => negb (id f =? uploadId)) prev)).

(** [handleFileUpload]; [now k] is what [Date.now()] reads in iteration [k]. *)
Definition handleFileUpload (now : nat -> N) (files : list Web.File) : M unit :=
  fun st =>
    match s3Client st, selectedBucket st with
    | Some client, Some bucket =>
        if negb (Js.truthy bucket) || (length files =? 0)%nat then ret tt st
        else for_of files 0
               (fun k file => uploadOne client bucket (prefix st) (now k) file) st
    | _, _ => ret tt st
    end.

(* ------------------------------------------------------------------ *)
(** ** Recursive key resolver and bulk delete: [handleDeleteSelected] *)

(** The [do ... while (continuationToken)] loop of [getAllKeysInPrefix];
    [fuel] bounds the number of pages requested. *)
Fixpoint getAllKeysLoop (fuel : nat) (client : S3.Client)
    (bucket prefixToDelete : string) (keys : list string)
    (continuationToken : option string) : M (list string) :=
  match fuel with
  | 0 => diverge
  | S fuel' =>
      response <-
        await_send
          (S3.ListObjectsV2Command bucket prefixToDelete None continuationToken)
          (S3.listObjectsV2 client bucket prefixToDelete None continuationToken) ;;
      let keys :=
        match S3.Contents response with
        | Some items => keys ++ map S3.Key items
        | None => keys
        end in
      let continuationToken := S3.NextContinuationToken response in
      if Js.truthy_opt continuationToken
      then getAllKeysLoop fuel' client bucket prefixToDelete keys continuationToken
      else ret keys
  end.

Definition getAllKeysInPrefix (fuel : nat) (client : S3.Client)
    (bucket prefixToDelete : string) : M (list string) :=
  getAllKeysLoop fuel client bucket prefixToDelete [] None.

(** The [for (const key of selectedItems)] loop (lines 385-391). *)
Fixpoint resolveSelection (fuel : nat) (client : S3.Client) (bucket : string)
    (items : list string) (allKeysToDelete : list string) : M (list string) :=
  match items with
  | [] => ret allKeysToDelete
  | key :: rest =>
      if Js.endsWith key "/"
      then
        keys <- getAllKeysInPrefix fuel client bucket key ;;
        resolveSelection fuel client bucket rest (allKeysToDelete ++ keys)
      else resolveSelection fuel client bucket rest (allKeysToDelete ++ [key])
  end.

(** The deduplicated key set (lines 372-393). *)
Definition resolveKeys (fuel : nat) (client : S3.Client) (bucket : string)
    (items : list string) : M (list string) :=
  allKeysToDelete <- resolveSelection fuel client bucket items [] ;;
  ret (Js.spread_new_Set allKeysToDelete).

Definition handleDeleteSelected (fuel : nat) : M unit :=
  fun st =>
    match s3Client st, selectedBucket st with
    | Some client, Some bucket =>
        if negb (Js.truthy bucket) || (length (selectedItems st) =? 0)%nat
        then ret tt st
        else
          (allKeysToDelete <- resolveKeys fuel client bucket (selectedItems st) ;;
           if (length allKeysToDelete =? 0)%nat
           then setIsDeleteModalOpen false
           else
             finally
               (try_catch
                  (await_send (S3.DeleteObjectsCommand bucket allKeysToDelete)
                              (S3.deleteObjects client bucket allKeysToDelete) ;;
                   showAlert
                     (Js.toString (N.of_nat (length allKeysToDelete))
                      ++ " item(s) deleted successfully.") "success")
                  (fun _ => showAlert "Failed to delete items." "error"))
               (setIsDeleteModalOpen false ;;
                fetchObjects (selectedBucket st) (prefix st))) st
    | _, _ => ret tt st
    end.

(* ------------------------------------------------------------------ *)
(** ** Observations on a log, and the notions the properties are stated in *)

(** The key lists of the delete requests sent, in order. *)
Definition deleteRequests (log : list Event) : list (list string) :=
  flat_map (fun ev =>
              match ev with
              | Sent (S3.DeleteObjectsCommand _ Objects) => [Objects]
              | _ => []
              end) log.

(** The notifications raised, in order. *)
Definition alerts (log : list Event) : list (string * string) :=
  flat_map (fun ev =>
              match ev with
              | ShowAlert message type => [(message, type)]
              | _ => []
              end) log.

(** The notification that follows the delete request. *)
Definition deleteNote (answer : Js.Error + unit) (keys : list string) : Event :=
  match answer with
  | inl _ => ShowAlert "Failed to delete items." "error"
  | inr _ =>
      ShowAlert (Js.toString (N.of_nat (length keys)) ++ " item(s) deleted successfully.")
                "success"
  end.

(** A flat listing request: a prefix and no delimiter. *)
Definition isFlatListing (ev : Event) : bool :=
  match ev with
  | Sent (S3.ListObjectsV2Command _ _ None _) => true
  | _ => false
  end.

Definition isUploadEvent (ev : Event) : bool :=
  match ev with
  | UploadBegin _ _ _ | UploadProgress _ _ | UploadSettled _ _ => true
  | _ => false
  end.

(** The transfer lifecycle events of a log. *)
Definition uploadEvents (log : list Event) : list Event := filter isUploadEvent log.

(** Transfers begun and not yet settled, and the largest number of them
    seen so far, after one more event. *)
Definition flightStep (acc : list string * nat) (ev : Event) : list string * nat :=
  match ev with
  | UploadBegin uploadId _ _ =>
      let inFlight := fst acc ++ [uploadId] in
      (inFlight, Nat.max (snd acc) (length inFlight))
  | UploadSettled uploadId _ =>
      (filter (fun x => negb (x =? uploadId)%string) (fst acc), snd acc)
  | _ => acc
  end.

(** The largest number of transfers simultaneously in flight over a log. *)
Definition peakInFlight (log : list Event) : nat :=
  snd (fold_left flightStep log ([], 0)).

(** The lifecycle of the task of one file, from its own transfer alone. *)
Definition taskTrace (client : S3.Client) (bucket currentPrefix : string)
    (now : N) (file : Web.File) : list Event :=
  let uploadId := (Web.name file ++ "-" ++ Js.toString now)%string in
  let key := (currentPrefix ++ Web.name file)%string in
  let transfer := S3.upload client bucket key file in
  UploadBegin uploadId bucket key
    :: map (fun p => UploadProgress uploadId (percentOf p)) (S3.events transfer)
    ++ [UploadSettled uploadId
          (match S3.settles transfer with Some _ => false | None => true end)].

(** The traces of the tasks of a file list, one after the other. *)
Fixpoint taskTraces (client : S3.Client) (bucket currentPrefix : string)
    (now : nat -> N) (k : nat) (files : list Web.File) : list Event :=
  match files with
  | [] => []
  | file :: rest =>
      taskTrace client bucket currentPrefix (now k) file
        ++ taskTraces client bucket currentPrefix now (S k) rest
  end.

(** Chunking as the design document words it: consecutive batches of at
    most [cap] keys. *)
Fixpoint chunksFuel (fuel cap : nat) (keys : list string) : list (list string) :=
  match fuel, keys with
  | 0, _ | _, [] => []
  | S fuel', _ => firstn cap keys :: chunksFuel fuel' cap (skipn cap keys)
  end.

Definition chunksOf (cap : nat) (keys : list string) : list (list string) :=
  chunksFuel (length keys) cap keys.

(** The objects of one listing page ([Contents] is absent on an empty page). *)
Definition pageOf (response : S3.ListObjectsV2Output) : list S3.Object :=
  match S3.Contents response with
  | Some items => items
  | None => []
  end.

(** [Serves client bucket p token pages]: asked for the flat listing of
    [p] from [token] on, the store answers with the pages [pages], each but
    the last carrying a continuation token. *)
Inductive Serves (client : S3.Client) (bucket p : string) :
    option string -> list (list S3.Object) -> Prop :=
| Serves_last token response :
    S3.listObjectsV2 client bucket p None token = inr response ->
    Js.truthy_opt (S3.NextContinuationToken response) = false ->
    Serves client bucket p token [pageOf response]
| Serves_more token response rest :
    S3.listObjectsV2 client bucket p None token = inr response ->
    Js.truthy_opt (S3.NextContinuationToken response) = true ->
    Serves client bucket p (S3.NextContinuationToken response) rest ->
    Serves client bucket p token (pageOf response :: rest).

(** What one selected key contributes to the resolved set, given the pages
    the store serves for each folder prefix. *)
Definition contribution (pagesOf : string -> list (list S3.Object))
    (key : string) : list string :=
  if Js.endsWith key "/" then map S3.Key (concat (pagesOf key)) else [key].

(* ------------------------------------------------------------------ *)
(** ** Sample stores and states used in the examples below *)

Definition obj (k : string) : S3.Object :=
  {| S3.Key := k; S3.Size := 1%N; S3.LastModified := "2024-01-01" |}.

Definition noTransfer : S3.Transfer := {| S3.events := []; S3.settles := None |}.

Definition page (items : list S3.Object) (next : option string) : S3.ListObjectsV2Output :=
  {| S3.Contents := match items with [] => None | _ => Some items end;
     S3.CommonPrefixes := None;
     S3.NextContinuationToken := next |}.

(** A store holding [a/], [a/1], [a/2], [a/sub/3], listing two keys a page. *)
Definition storeA2 : S3.Client :=
  {| S3.listBuckets := inr (Some [{| S3.Name := "b" |}]);
     S3.listObjectsV2 := fun _ p _ token =>
       if (p =? "a/")%string then
         match token with
         | None => inr (page [obj "a/"; obj "a/1"] (Some "t2"))
         | Some _ => inr (page [obj "a/2"; obj "a/sub/3"] None)
         end
       else inr (page [] None);
     S3.deleteObjects := fun _ _ => inr tt;
     S3.upload := fun _ _ _ => noTransfer |}.

(** The same store listing three keys a page. *)
Definition storeA3 : S3.Client :=
  {| S3.listBuckets := inr (Some [{| S3.Name := "b" |}]);
     S3.listObjectsV2 := fun _ p _ token =>
       if (p =? "a/")%string then
         match token with
         | None => inr (page [obj "a/"; obj "a/1"; obj "a/2"] (Some "t3"))
         | Some _ => inr (page [obj "a/sub/3"] None)
         end
       else inr (page [] None);
     S3.deleteObjects := fun _ _ => inr tt;
     S3.upload := fun _ _ _ => noTransfer |}.

(** A store that rejects every request. *)
Definition storeDown (errorName : string) : S3.Client :=
  {| S3.listBuckets := inl {| Js.name := errorName |};
     S3.listObjectsV2 := fun _ _ _ _ => inl {| Js.name := errorName |};
     S3.deleteObjects := fun _ _ => inl {| Js.name := errorName |};
     S3.upload := fun _ _ _ =>
       {| S3.events := []; S3.settles := Some {| Js.name := errorName |} |} |}.

(** A store in which the transfer of [A.bin] (10MB) reports half of its
    bytes and then fails, and any other transfer reports all of its 1KB and
    succeeds. *)
Definition storeUploads : S3.Client :=
  {| S3.listBuckets := inr (Some [{| S3.Name := "b" |}]);
     S3.listObjectsV2 := fun _ _ _ _ => inr (page [] None);
     S3.deleteObjects := fun _ _ => inr tt;
     S3.upload := fun _ key _ =>
       if (key =? "docs/A.bin")%string
       then {| S3.events := [{| S3.loaded := 5242880; S3.total := Some 10485760%N |}];
               S3.settles := Some {| Js.name := "NetworkError" |} |}
       else {| S3.events := [{| S3.loaded := 1024; S3.total := Some 1024%N |}];
               S3.settles := None |} |}.

(** A connected state showing [listing] of [bucket] under [currentPrefix],
    with [items] selected and [query] typed in the filter box. *)
Definition browsing (client : S3.Client) (bucket : option string)
    (currentPrefix : string) (listing : list ObjectEntry)
    (items : list string) (query : string) : AppState :=
  {| s3Client := Some client; buckets := []; selectedBucket := bucket;
     objects := listing; prefix := currentPrefix;
     isLoadingBuckets := false; isLoadingObjects := false;
     uploadingFiles := []; selectedItems := items; isDeleteModalOpen := true;
     searchQuery := query; savedConnections := [] |}.

(* ------------------------------------------------------------------ *)
(** ** Selection and filter view (the table of [App]) *)

(** [s.includes(t)] *)
Fixpoint includes (s t : string) : bool :=
  String.prefix t s
  || match s with
     | EmptyString => false
     | String _ s' => includes s' t
     end.

(** [prev.includes(key)] on an array of strings. *)
Definition arrayIncludes (l : list string) (key : string) : bool :=
  existsb (String.eqb key) l.

Section FilterView.

(** [String.prototype.toLowerCase], left abstract: its case mapping is that
    of the JavaScript engine. *)
Variable toLowerCase : string -> string.

(** [filteredObjects] (lines 441-444). *)
Definition filteredObjects (st : AppState) : list ObjectEntry :=
  if negb (Js.truthy (searchQuery st)) then objects st
  else filter (fun obj => includes (toLowerCase (Key obj))
                                   (toLowerCase (searchQuery st)))
              (objects st).

(** The row checkbox (lines 545-547). *)
Definition toggleItem (key : string) : M unit :=
  fun st =>
    setSelectedItems
      (if arrayIncludes (selectedItems st) key
       then filter (fun k => negb (k =? key)%string) (selectedItems st)
       else selectedItems st ++ [key]) st.

(** The header checkbox: its [checked] attribute and its [onChange]
    (lines 530-533). *)
Definition headerChecked (st : AppState) : bool :=
  (0 <? length (filteredObjects st))%nat
  && (length (selectedItems st) =? length (filteredObjects st))%nat.

Definition toggleAll : M unit :=
  fun st =>
    if (length (selectedItems st) =? length (filteredObjects st))%nat
    then setSelectedItems [] st
    else setSelectedItems (map Key (filteredObjects st)) st.

End FilterView.

(** Lower-casing of the ASCII letters, for the examples. *)
Fixpoint asciiLower (s : string) : string :=
  match s with
  | EmptyString => EmptyString
  | String c s' =>
      let n := Ascii.nat_of_ascii c in
      String (if ((65 <=? n) && (n <=? 90))%nat then Ascii.ascii_of_nat (n + 32) else c)
             (asciiLower s')
  end.

(* ------------------------------------------------------------------ *)
(** ** Names derived from keys *)

(** [s.replace(pattern, replacement)] with a string pattern: the first
    occurrence only. *)
Fixpoint replace (s pattern replacement : string) : string :=
  if String.prefix pattern s
  then (replacement ++ substring (String.length pattern)
                                 (String.length s - String.length pattern) s)%string
  else match s with
       | EmptyString => EmptyString
       | String c s' => String c (replace s' pattern replacement)
       end.

(** The name shown in a row: [obj.Key.replace(prefix, '')] (line 552). *)
Definition displayName (currentPrefix : string) (obj : ObjectEntry) : string :=
  replace (Key obj) currentPrefix "".

(** The name a download is saved under: [key.split('/').pop()] (line 422). *)
Definition downloadName (key : string) : string :=
  last (Js.split "/" key) "".

(** A folder path made of segments: each segment followed by [/]. *)
Fixpoint folderPath (segments : list string) : string :=
  match segments with
  | [] => EmptyString
  | s :: rest => (s ++ "/" ++ folderPath rest)%string
  end.

(** A path segment: not empty, and without [/]. *)
Definition isSegment (s : string) : bool :=
  Js.truthy s && negb (includes s "/").

(* ------------------------------------------------------------------ *)
(** ** Session life cycle *)

(** [useEffect(() => { if (s3Client) fetchBuckets() }, [s3Client, fetchBuckets])] *)
Definition effectFetchBuckets : M unit :=
  fun st =>
    match s3Client st with
    | Some _ => fetchBuckets st
    | None => ret tt st
    end.

(** A connect attempt from the connection form followed by the re-render.
    The form is rendered only while [s3Client] is null, so the two effects
    that depend on [s3Client] run exactly when the attempt has set it. *)
Definition connect (S3Client : Conn.Details -> S3.Client) (now : N)
    (connectionDetails : Conn.Details) (saveConfig : option Conn.SaveConfig) : M unit :=
  fun st =>
    (handleConnect S3Client now connectionDetails saveConfig ;;
     (fun st' =>
        match s3Client st, s3Client st' with
        | None, Some _ => (effectFetchBuckets ;; effectFetchObjects) st'
        | _, _ => ret tt st'
        end)) st.

(* ------------------------------------------------------------------ *)
(** ** Answers that arrive later

    A handler runs up to an [await] and resumes when the promise settles;
    what runs in between finds, and changes, the same state.  Each of the
    two listing handlers is cut here at its [await]. *)

(** The value an awaited promise settles to. *)
Definition settled {A} (answer : Js.Error + A) : M A :=
  match answer with
  | inl e => throw e
  | inr a => ret a
  end.

(** [fetchObjects] up to its [await] (lines 321-327): the guard on the
    client its closure holds and on the bucket, the three resets, and the
    request. *)
Definition fetchObjectsSend (client : option S3.Client) (bucket : option string)
    (currentPrefix : string) : M unit :=
  match client, bucket with
  | Some _, Some bucket =>
      if negb (Js.truthy bucket) then ret tt
      else
        setIsLoadingObjects true ;;
        setSelectedItems [] ;;
        setSearchQuery "" ;;
        emit (Sent (S3.ListObjectsV2Command bucket currentPrefix (Some "/") None))
  | _, _ => ret tt
  end.

(** [fetchObjects] from its [await] on (lines 327-335), run when the answer
    arrives, in the state of that moment. *)
Definition fetchObjectsResume (bucket currentPrefix : string)
    (answer : Js.Error + S3.ListObjectsV2Output) : M unit :=
  finally
    (try_catch
       (response <- settled answer ;;
        setObjects (listingEntries currentPrefix response))
       (fun _ => showAlert ("Could not list objects in " ++ bucket ++ ".") "error"))
    (setIsLoadingObjects false).

(** [fetchBuckets] up to its [await] (lines 308-311), and from it on
    (lines 311-317). *)
Definition fetchBucketsSend (client : option S3.Client) : M unit :=
  match client with
  | Some _ => setIsLoadingBuckets true ;; emit (Sent S3.ListBucketsCommand)
  | None => ret tt
  end.

Definition fetchBucketsResume (answer : Js.Error + option (list S3.Bucket)) : M unit :=
  finally
    (try_catch
       (Buckets <- settled answer ;;
        setBuckets (match Buckets with Some bs => bs | None => [] end))
       (fun _ => showAlert "Could not fetch buckets." "error"))
    (setIsLoadingBuckets false).

(** A navigation click and the re-render, up to the [await] of the listing
    effect. *)
Definition navigateSend (a : NavAction) : M unit :=
  fun st =>
    (onClick a ;;
     (fun st' =>
        if contextChanged st st'
        then fetchObjectsSend (s3Client st') (selectedBucket st') (prefix st') st'
        else ret tt st')) st.

(** A connect attempt from the connection form and the re-render, up to the
    [await]s of the two effects that run when the attempt has set the
    client. *)
Definition connectSend (S3Client : Conn.Details -> S3.Client) (now : N)
    (connectionDetails : Conn.Details) (saveConfig : option Conn.SaveConfig) : M unit :=
  fun st =>
    (handleConnect S3Client now connectionDetails saveConfig ;;
     (fun st' =>
        match s3Client st, s3Client st' with
        | None, Some _ =>
            (fetchBucketsSend (s3Client st') ;;
             fetchObjectsSend (s3Client st') (selectedBucket st') (prefix st')) st'
        | _, _ => ret tt st'
        end)) st.

(** A delimited listing that has been requested and not answered yet. *)
Record Pending := { pendingBucket : string; pendingPrefix : string }.

(** The delimited listings a run has requested. *)
Definition pendingOf (log : list Event) : list Pending :=
  flat_map
    (fun ev =>
       match ev with
       | Sent (S3.ListObjectsV2Command bucket currentPrefix (Some _) None) =>
           [{| pendingBucket := bucket; pendingPrefix := currentPrefix |}]
       | _ => []
       end) log.

(** The application together with its listings in flight. *)
Record Session := { view : AppState; inFlight : list Pending }.

(** The session after a run that started in it. *)
Definition followedBy {A} (s : Session) (r : Outcome A * AppState * list Event) : Session :=
  {| view := state_of r; inFlight := inFlight s ++ pendingOf (log_of r) |}.

(** The table, with its checkboxes, is rendered while a client is
    connected, a bucket is selected and no listing is loading (lines 446
    and 518-522). *)
Definition tableShown (st : AppState) : bool :=
  match s3Client st with
  | Some _ => Js.truthy_opt (selectedBucket st) && negb (isLoadingObjects st)
  | None => false
  end.

Section Moves.

Variable toLowerCase : string -> string.

(** What can happen to a session, one uninterrupted run at a time: a
    click that navigates; a row or header checkbox of the table shown; the
    filter box; the disconnect button; a connect attempt; the listing
    refresh that an upload or a delete starts with the client of its
    closure, and their other state updates (the tracked uploads, the
    confirmation dialog); the answer to the bucket listing; and the answer
    to any one of the listings in flight. *)
Inductive Move : Session -> Session -> Prop :=
| Move_navigate a s :
    Move s (followedBy s (navigateSend a (view s)))
| Move_toggleItem obj s :
    tableShown (view s) = true ->
    In obj (filteredObjects toLowerCase (view s)) ->
    Move s (followedBy s (toggleItem (Key obj) (view s)))
| Move_toggleAll s :
    tableShown (view s) = true ->
    Move s (followedBy s (toggleAll toLowerCase (view s)))
| Move_search query s :
    Move s (followedBy s (setSearchQuery query (view s)))
| Move_disconnect s :
    Move s (followedBy s (handleDisconnect (view s)))
| Move_connect S3Client now details saveConfig s :
    Move s (followedBy s (connectSend S3Client now details saveConfig (view s)))
| Move_refresh client bucket currentPrefix s :
    Move s (followedBy s (fetchObjectsSend client bucket currentPrefix (view s)))
| Move_uploads f s :
    Move s (followedBy s (setUploadingFiles f (view s)))
| Move_dialog open s :
    Move s (followedBy s (setIsDeleteModalOpen open (view s)))
| Move_buckets answer s :
    Move s (followedBy s (fetchBucketsResume answer (view s)))
| Move_answer before request rest answer s :
    inFlight s = before ++ request :: rest ->
    Move s {| view := state_of (fetchObjectsResume (pendingBucket request)
                                  (pendingPrefix request) answer (view s));
              inFlight := before ++ rest |}.

(** A run of moves through sessions that all satisfy [P]. *)
Inductive Reaches (P : Session -> Prop) : Session -> Session -> Prop :=
| Reaches_here s : Reaches P s s
| Reaches_move s1 s2 s3 :
    Move s1 s2 -> P s2 -> Reaches P s2 s3 -> Reaches P s1 s3.

End Moves.

(** At most one listing is in flight. *)
Definition atMostOne (s : Session) : Prop := length (inFlight s) <= 1.

(** Every selected key is the key of an entry of the listing in memory. *)
Definition selectionListed (st : AppState) : Prop :=
  incl (selectedItems st) (map Key (objects st)).

(** At most one listing is in flight, every selected key is listed, and
    while a listing is in flight nothing is selected and the table is
    replaced by the spinner. *)
Definition calm (s : Session) : Prop :=
  atMostOne s
  /\ selectionListed (view s)
  /\ (inFlight s <> [] ->
      selectedItems (view s) = [] /\ isLoadingObjects (view s) = true).

(** A run that either leaves the selection, the listing and the loading
    flag as they were and requests no listing, or requests one listing and
    leaves no selection and the loading flag set. *)
Definition keepsOrResets {A} (st : AppState)
    (r : Outcome A * AppState * list Event) : Prop :=
  (selectedItems (state_of r) = selectedItems st
   /\ objects (state_of r) = objects st
   /\ isLoadingObjects (state_of r) = isLoadingObjects st
   /\ pendingOf (log_of r) = [])
  \/ (length (pendingOf (log_of r)) = 1
      /\ selectedItems (state_of r) = []
      /\ isLoadingObjects (state_of r) = true).

(* ------------------------------------------------------------------ *)
(** ** Upload bookkeeping *)




(** The requests sent to the store, in order. *)
Definition requestsSent (log : list Event) : list S3.Command :=
  flat_map (fun ev => match ev with Sent c => [c] | _ => [] end) log.



(* ------------------------------------------------------------------ *)
(** ** More sample stores *)

(** A store whose listing of [a/] answers the first page and rejects the
    second. *)
Definition storeFlaky : S3.Client :=
  {| S3.listBuckets := inr (Some [{| S3.Name := "b" |}]);
     S3.listObjectsV2 := fun _ _ _ token =>
       match token with
       | None => inr (page [obj "a/1"; obj "a/2"] (Some "t2"))
       | Some _ => inl {| Js.name := "TimeoutError" |}
       end;
     S3.deleteObjects := fun _ _ => inr tt;
     S3.upload := fun _ _ _ => noTransfer |}.

(** A store that answers every page of a flat listing with one key and a
    continuation token. *)
Definition storeEndless : S3.Client :=
  {| S3.listBuckets := inr (Some [{| S3.Name := "b" |}]);
     S3.listObjectsV2 := fun _ _ _ _ => inr (page [obj "a/1"] (Some "more"));
     S3.deleteObjects := fun _ _ => inr tt;
     S3.upload := fun _ _ _ => noTransfer |}.

(* ------------------------------------------------------------------ *)
(** ** Saved connections in local storage ([useLocalStorage]) *)

(** The page: the item [minio-connections] of local storage (an absent
    item reads as the empty list, and a list of connections survives
    [JSON.stringify] and [JSON.parse] unchanged), the state of [App], whose
    hook reads the item once when the page loads, and the list held by the
    hook of [ConnectionManager], which reads the item each time the form is
    mounted, that is, while no client is connected. *)
Record Page := {
  storage : list Conn.Saved;
  appState : AppState;
  formList : option (list Conn.Saved)
}.

Definition loadPage (stored : list Conn.Saved) : Page :=
  {| storage := stored;
     appState := state_of (setSavedConnections stored initialState);
     formList := Some stored |}.

(** [handleDeleteConnection] (lines 138-141): [setValue] sets the hook's
    list and writes it to the item. *)
Definition handleDeleteConnection (id : N) (pg : Page) : Page * list Event :=
  match formList pg with
  | Some savedConnections =>
      let kept := filter (fun c => negb (Conn.id c =? id)%N) savedConnections in
      ({| storage := kept; appState := appState pg; formList := Some kept |},
       [ShowAlert "Connection deleted." "info"])
  | None => (pg, [])
  end.

(** [onConnect] of the form: [handleConnect] of [App] and the re-render.
    [setSavedConnections] is called on the success path with a name to
    save under, and then writes the list it sets to the item; a connected
    client unmounts the form. *)
Definition onConnect (S3Client : Conn.Details -> S3.Client) (now : N)
    (connectionDetails : Conn.Details) (saveConfig : option Conn.SaveConfig)
    (pg : Page) : Page * list Event :=
  let r := connect S3Client now connectionDetails saveConfig (appState pg) in
  ({| storage :=
        match S3.listBuckets (S3Client connectionDetails), saveConfig with
        | inr _, Some _ => savedConnections (state_of r)
        | _, _ => storage pg
        end;
      appState := state_of r;
      formList := match s3Client (state_of r) with
                 | Some _ => None
                 | None => formList pg
                 end |},
   log_of r).

(** [handleQuickConnect] (lines 133-136): connect with a saved entry,
    saving nothing. *)
Definition handleQuickConnect (S3Client : Conn.Details -> S3.Client) (now : N)
    (conn : Conn.Saved) (pg : Page) : Page * list Event :=
  onConnect S3Client now (Conn.details (Conn.config conn)) None pg.

(** The disconnect button: the form is mounted again and reads the item. *)
Definition disconnectPage (pg : Page) : Page * list Event :=
  let r := handleDisconnect (appState pg) in
  ({| storage := storage pg; appState := state_of r; formList := Some (storage pg) |},
   log_of r).

(* ------------------------------------------------------------------ *)
(** ** Numbers: the binary64 format and rounding to nearest *)

Section Binary64Format.

Local Open Scope Z_scope.

(** The percentage line 354 computes from byte counts [l] of [t].  With
    byte counts up to [Number.MAX_SAFE_INTEGER] and [t] not zero, the Number
    that [Math.round] is applied to is a zero or finite
    ([percentage_steps]). *)
Definition percentage (l t : N) : Z :=
  Js.Math_round (Js.mul (Js.div (Js.ofN l) (Js.ofN t)) (Js.ofN 100)).

(** A Number that is not negative ([NaN] has no sign). *)
Definition nonnegative (x : Js.Number) : Prop :=
  match x with
  | SpecFloat.S754_zero s | SpecFloat.S754_infinity s
  | SpecFloat.S754_finite s _ _ => s = false
  | SpecFloat.S754_nan => True
  end.

(** A positive Number in normal form: 53 bits of mantissa. *)
Definition normal (m : positive) (e : Z) : Prop :=
  2 ^ 52 <= Z.pos m < 2 ^ 53 /\ -1074 <= e.

(** The values a Number can take, in units of [2^-1074]: an integer below
    [2^53] times a power of two.  (The upper end of the exponent range plays
    no part below.) *)
Definition inFormat (G : Z) : Prop :=
  exists g u, 0 <= g < 2 ^ 53 /\ 0 <= u /\ G = g * 2 ^ u.

(** [F] is a value of the format nearest to the fraction [A / B]. *)
Definition nearest (A B F : Z) : Prop :=
  forall G, inFormat G -> Z.abs (A - F * B) <= Z.abs (A - G * B).

(** What a rounding location says of the fraction [r / d] that was cut
    off. *)
Definition loc_ok (l : SpecFloat.location) (r d : Z) : Prop :=
  match l with
  | SpecFloat.loc_Exact => r = 0
  | SpecFloat.loc_Inexact Lt => 0 < 2 * r < d
  | SpecFloat.loc_Inexact Eq => 2 * r = d
  | SpecFloat.loc_Inexact Gt => d < 2 * r
  end.

(** The record [mrs] holds the integer part of [T / D], and its two flags
    locate the rest. *)
Definition holds (mrs : SpecFloat.shr_record) (T D : Z) : Prop :=
  0 <= SpecFloat.shr_m mrs
  /\ exists r, T = SpecFloat.shr_m mrs * D + r /\ 0 <= r < D
               /\ loc_ok (SpecFloat.loc_of_shr_record mrs) r D.

End Binary64Format.

(* ------------------------------------------------------------------ *)
(** * Properties *)

(** ** Running the monad *)

Lemma bind_returned {A B} (m : M A) (k : A -> M B) st a st1 l1 :
  m st = (Returned a, st1, l1) ->
  bind m k st =
  (result_of (k a st1), state_of (k a st1), l1 ++ log_of (k a st1)).
Proof.
  intros H. unfold bind, result_of, state_of, log_of. rewrite H.
  destruct (k a st1) as [[o2 st2] l2]. reflexivity.
Qed.

Lemma bind_threw {A B} (m : M A) (k : A -> M B) st e st1 l1 :
  m st = (Threw e, st1, l1) -> bind m k st = (Threw e, st1, l1).
Proof. intros H. unfold bind. rewrite H. reflexivity. Qed.

Lemma run_eta {A} (r : Outcome A * AppState * list Event) :
  r = (result_of r, state_of r, log_of r).
Proof. destruct r as [[o st] l]. reflexivity. Qed.

Lemma result_of_triple {A} (o : Outcome A) st l : result_of (o, st, l) = o.
Proof. reflexivity. Qed.

Lemma state_of_triple {A} (o : Outcome A) st l : state_of (o, st, l) = st.
Proof. reflexivity. Qed.

Lemma log_of_triple {A} (o : Outcome A) st l : log_of (o, st, l) = l.
Proof. reflexivity. Qed.

Lemma run_from_parts {A} (r : Outcome A * AppState * list Event) o l :
  result_of r = o -> log_of r = l -> r = (o, state_of r, l).
Proof. intros <- <-. apply run_eta. Qed.

(** ** Namespace navigator *)

Section Listing.

Variables (client : S3.Client) (bucket currentPrefix : string) (st : AppState).
Hypothesis connected : s3Client st = Some client.
Hypothesis named : Js.truthy bucket = true.

Let request := S3.ListObjectsV2Command bucket currentPrefix (Some "/") None.
Let answer := S3.listObjectsV2 client bucket currentPrefix (Some "/") None.

(** A listing that succeeds replaces the entries by those of the response. *)
Lemma fetchObjects_ok response :
  answer = inr response ->
  let r := fetchObjects (Some bucket) currentPrefix st in
  result_of r = Returned tt
  /\ log_of r = [Sent request]
  /\ objects (state_of r) = listingEntries currentPrefix response
  /\ selectedItems (state_of r) = []
  /\ searchQuery (state_of r) = ""
  /\ isLoadingObjects (state_of r) = false.
Proof.
  intros Hans. unfold fetchObjects. rewrite connected, named.
  subst answer. cbn. rewrite Hans. cbn. repeat split.
Qed.

(** A listing that fails leaves the entries as they were. *)
Lemma fetchObjects_failed error :
  answer = inl error ->
  let r := fetchObjects (Some bucket) currentPrefix st in
  result_of r = Returned tt
  /\ log_of r =
       [Sent request;
        ShowAlert ("Could not list objects in " ++ bucket ++ ".") "error"]
  /\ objects (state_of r) = objects st
  /\ selectedItems (state_of r) = []
  /\ searchQuery (state_of r) = ""
  /\ isLoadingObjects (state_of r) = false.
Proof.
  intros Hans. unfold fetchObjects. rewrite connected, named.
  subst answer. cbn. rewrite Hans. cbn. repeat split.
Qed.

(** Whatever the store answers, the selection and the filter are reset
    and the context and the connection stay. *)
Lemma fetchObjects_resets :
  let r := fetchObjects (Some bucket) currentPrefix st in
  selectedItems (state_of r) = []
  /\ searchQuery (state_of r) = ""
  /\ selectedBucket (state_of r) = selectedBucket st
  /\ prefix (state_of r) = prefix st
  /\ s3Client (state_of r) = s3Client st.
Proof.
  unfold fetchObjects. rewrite connected, named. cbn.
  destruct (S3.listObjectsV2 client bucket currentPrefix (Some "/") None);
    cbn; repeat split; assumption.
Qed.

End Listing.

Lemma listingEntries_file_key currentPrefix response e :
  In e (listingEntries currentPrefix response) ->
  isFolder e = false ->
  Key e <> currentPrefix.
Proof.
  unfold listingEntries. intros Hin Hfile.
  apply in_app_or in Hin. destruct Hin as [Hin | Hin].
  - apply in_map_iff in Hin. destruct Hin as [p [<- _]]. discriminate Hfile.
  - apply in_map_iff in Hin. destruct Hin as [c [<- Hc]].
    apply filter_In in Hc. destruct Hc as [_ Hne].
    apply negb_true_iff in Hne. apply String.eqb_neq in Hne. exact Hne.
Qed.

(** A click handler returns, logs nothing and keeps the connection. *)
Lemma onClick_run a st :
  exists st1,
    onClick a st = (Returned tt, st1, [])
    /\ s3Client st1 = s3Client st
    /\ selectedItems st1 = selectedItems st
    /\ searchQuery st1 = searchQuery st
    /\ objects st1 = objects st.
Proof.
  destruct a as [b | [| [| i]] | e]; cbn.
  - eexists; repeat split.
  - eexists; repeat split.
  - eexists; repeat split.
  - eexists; repeat split.
  - destruct (isFolder e); eexists; repeat split.
Qed.

Lemma navigate_run a st st1 :
  onClick a st = (Returned tt, st1, []) ->
  navigate a st =
  if contextChanged st st1 then effectFetchObjects st1 else (Returned tt, st1, []).
Proof.
  intros H. unfold navigate.
  rewrite (bind_returned _ _ _ _ _ _ H). cbn [app].
  destruct (contextChanged st st1).
  - symmetry. apply run_eta.
  - reflexivity.
Qed.

(** C9.  For every prefix, a listing that the store answers never yields a
    file entry whose key is the prefix itself: the folder-marker object at
    the prefix is dropped from the file entries. *)
Theorem fetchObjects_excludes_prefix_key
    (client : S3.Client) (bucket currentPrefix : string) (st : AppState)
    (response : S3.ListObjectsV2Output) (e : ObjectEntry) :
  s3Client st = Some client ->
  Js.truthy bucket = true ->
  S3.listObjectsV2 client bucket currentPrefix (Some "/") None = inr response ->
  In e (objects (state_of (fetchObjects (Some bucket) currentPrefix st))) ->
  isFolder e = false ->
  Key e <> currentPrefix.
Proof.
  intros Hc Hb Hans Hin Hfile.
  destruct (fetchObjects_ok _ _ currentPrefix _ Hc Hb _ Hans) as (_ & _ & Hobjs & _).
  rewrite Hobjs in Hin.
  exact (listingEntries_file_key _ _ _ Hin Hfile).
Qed.

(** The listing of [a/] in a store whose first page starts with the marker
    [a/]: the file [a/1] is shown and differs from the prefix. *)
Lemma fetchObjects_excludes_prefix_key_witness :
  objects (state_of (fetchObjects (Some "b") "a/"
                       (browsing storeA2 (Some "b") "a/" [] [] "")))
  = [fileEntry (obj "a/1")]
  /\ Key (fileEntry (obj "a/1")) <> "a/".
Proof.
  split; [reflexivity|].
  apply (fetchObjects_excludes_prefix_key storeA2 "b" "a/"
           (browsing storeA2 (Some "b") "a/" [] [] "")
           (page [obj "a/"; obj "a/1"] (Some "t2")) (fileEntry (obj "a/1")));
    try reflexivity.
  simpl. left. reflexivity.
Defined.

(** C3, as stated, fails: showing bucket [old], a click on bucket [new]
    whose listing is rejected leaves the entries of [old] in the listing
    state under the context of [new]. *)
Lemma failed_listing_keeps_previous_entries :
  let before :=
    browsing (storeDown "AccessDenied") (Some "old") ""
             [fileEntry (obj "report.txt")] [] "" in
  let after := state_of (navigate (ClickBucket {| S3.Name := "new" |}) before) in
  selectedBucket after = Some "new"
  /\ objects after = [fileEntry (obj "report.txt")]
  /\ objects after <> []
  /\ alerts (log_of (navigate (ClickBucket {| S3.Name := "new" |}) before))
     = [("Could not list objects in new.", "error")].
Proof.
  cbv zeta. repeat split. discriminate.
Qed.

(** C3, amended.  An object listing that [fetchObjects] requests (the
    delimited listing of a bucket and prefix) and that the store rejects:
    the handler returns normally, raises one error notification, resets the
    loading flag, the selection and the filter, and leaves the listing
    state exactly as it was before the request; the entries fetched before
    are not cleared. *)
Theorem fetchObjects_failure_keeps_listing
    (client : S3.Client) (bucket currentPrefix : string) (st : AppState)
    (error : Js.Error) :
  s3Client st = Some client ->
  Js.truthy bucket = true ->
  S3.listObjectsV2 client bucket currentPrefix (Some "/") None = inl error ->
  let r := fetchObjects (Some bucket) currentPrefix st in
  result_of r = Returned tt
  /\ alerts (log_of r) = [(("Could not list objects in " ++ bucket ++ ".")%string, "error")]
  /\ objects (state_of r) = objects st
  /\ selectedItems (state_of r) = []
  /\ searchQuery (state_of r) = ""
  /\ isLoadingObjects (state_of r) = false.
Proof.
  intros Hc Hb Hans.
  destruct (fetchObjects_failed _ _ currentPrefix _ Hc Hb _ Hans)
    as (Hres & Hlog & Hobjs & Hsel & Hq & Hload).
  cbv zeta. rewrite Hlog. repeat split; assumption.
Qed.

Lemma fetchObjects_failure_keeps_listing_witness :
  let st := browsing (storeDown "AccessDenied") (Some "old") ""
                     [fileEntry (obj "report.txt")] ["report.txt"] "rep" in
  let r := fetchObjects (Some "new") "" st in
  result_of r = Returned tt
  /\ alerts (log_of r) = [("Could not list objects in new.", "error")]
  /\ objects (state_of r) = [fileEntry (obj "report.txt")]
  /\ selectedItems (state_of r) = []
  /\ searchQuery (state_of r) = ""
  /\ isLoadingObjects (state_of r) = false.
Proof.
  exact (fetchObjects_failure_keeps_listing (storeDown "AccessDenied") "new" ""
           (browsing (storeDown "AccessDenied") (Some "old") ""
                     [fileEntry (obj "report.txt")] ["report.txt"] "rep")
           {| Js.name := "AccessDenied" |} eq_refl eq_refl eq_refl).
Defined.

(** C4.  Every change of the navigator context should leave an empty
    selection and a cleared filter query.  The handler misses one case: the
    root breadcrumb clears the bucket, [fetchObjects] returns at its guard
    before its resets, and the selection and the query survive the change
    of context (where [handleDisconnect], which also clears the bucket,
    resets both). *)
Lemma root_breadcrumb_keeps_selection :
  let before :=
    browsing storeA2 (Some "b") "a/" [fileEntry (obj "a/1")] ["a/1"] "1" in
  let after := state_of (navigate (ClickBreadcrumb 0) before) in
  selectedBucket before = Some "b"
  /\ selectedBucket after = None
  /\ contextChanged before after = true
  /\ selectedItems after = ["a/1"]
  /\ searchQuery after = "1".
Proof.
  cbv zeta. repeat split.
Qed.

(** Every navigation click of a connected session that changes the context
    to one with a bucket leaves an empty selection and a cleared filter
    query, whatever the store answers to the listing. *)
Theorem navigation_resets_selection (a : NavAction) (st : AppState) :
  s3Client st <> None ->
  let st' := state_of (navigate a st) in
  contextChanged st st' = true ->
  Js.truthy_opt (selectedBucket st') = true ->
  selectedItems st' = [] /\ searchQuery st' = "".
Proof.
  intros Hconn.
  destruct (onClick_run a st) as (st1 & Hrun & Hcl & _).
  cbv zeta. rewrite (navigate_run _ _ _ Hrun).
  destruct (contextChanged st st1) eqn:Hchg.
  - unfold effectFetchObjects.
    destruct (s3Client st1) as [client |] eqn:Hc1; [| congruence].
    intros _ Hbucket.
    destruct (selectedBucket st1) as [bucket |] eqn:Hb1.
    + destruct (Js.truthy bucket) eqn:Htr.
      * destruct (fetchObjects_resets _ _ (prefix st1) _ Hc1 Htr) as (Hsel & Hq & _).
        split; assumption.
      * exfalso. revert Hbucket. unfold fetchObjects.
        rewrite Hc1, Htr. cbn. rewrite Hb1. cbn. rewrite Htr. discriminate.
    + exfalso. revert Hbucket. unfold fetchObjects. rewrite Hc1. cbn.
      rewrite Hb1. discriminate.
  - cbn [state_of fst snd]. intros Habs. congruence.
Qed.

Lemma navigation_resets_selection_witness :
  let st := browsing storeA2 (Some "b") "" [folderEntry {| S3.Prefix := "a/" |}]
                     ["a/"] "a" in
  let st' := state_of (navigate (ClickEntry (folderEntry {| S3.Prefix := "a/" |})) st) in
  prefix st' = "a/" /\ selectedItems st' = [] /\ searchQuery st' = "".
Proof.
  split; [reflexivity|].
  apply (navigation_resets_selection
           (ClickEntry (folderEntry {| S3.Prefix := "a/" |}))
           (browsing storeA2 (Some "b") "" [folderEntry {| S3.Prefix := "a/" |}]
                     ["a/"] "a")).
  - discriminate.
  - reflexivity.
  - reflexivity.
Defined.

(** ** Session *)

Lemma append_dot_inj (a b : string) :
  (a ++ ".")%string = (b ++ ".")%string -> a = b.
Proof.
  revert b. induction a as [| c a IH]; intros [| d b] H; cbn in H.
  - reflexivity.
  - destruct b; discriminate H.
  - destruct a; discriminate H.
  - injection H as -> H. f_equal. apply IH. exact H.
Qed.

(** A rejected validation call: the connection is not established and the
    notification carries the name of the error. *)
Lemma handleConnect_failed S3Client now details saveConfig st error :
  S3.listBuckets (S3Client details) = inl error ->
  let r := handleConnect S3Client now details saveConfig st in
  result_of r = Returned tt
  /\ log_of r =
       [Sent S3.ListBucketsCommand;
        ShowAlert ("Connection failed: " ++ Js.name error ++ ".") "error"]
  /\ state_of r = st.
Proof.
  intros H. unfold handleConnect. cbn. rewrite H. cbn. repeat split.
Qed.

(** Every connect attempt sends the bucket listing first. *)
Lemma handleConnect_validates S3Client now details saveConfig st :
  exists rest,
    log_of (handleConnect S3Client now details saveConfig st)
    = Sent S3.ListBucketsCommand :: rest
    /\ forall c, ~ In (Sent c) rest.
Proof.
  unfold handleConnect. cbn.
  destruct (S3.listBuckets (S3Client details)) as [error | bs]; cbn.
  - eexists. split; [reflexivity|]. intros c [H | []]. discriminate H.
  - destruct saveConfig as [cfg |]; cbn.
    + destruct (findIndex _ _); cbn;
        (eexists; split; [reflexivity|]; intros c [H | []]; discriminate H).
    + eexists. split; [reflexivity|]. intros c [].
Qed.

Lemma string_app_assoc (a b c : string) :
  ((a ++ b) ++ c)%string = (a ++ (b ++ c))%string.
Proof. induction a as [| x a IH]; cbn; [reflexivity | now rewrite IH]. Qed.

Lemma endsWith_append (a s : string) : Js.endsWith (a ++ s) s = true.
Proof.
  induction a as [| c a IH]; cbn.
  - destruct s; cbn; [reflexivity|].
    rewrite Ascii.eqb_refl, String.eqb_refl. reflexivity.
  - rewrite IH. apply orb_true_r.
Qed.

(** C6.  A connect attempt, and a connection test, validate by sending one
    bucket-listing request; when it is rejected, a network-layer error
    (named [NetworkError]) and a credential error (any other name) are
    surfaced differently: the connect notification names the error, and the
    test result adds a CORS hint for the first and a credentials hint for
    the second. *)
Theorem connect_failure_kinds_distinguished
    (networkDown badCredentials : Conn.Details -> S3.Client)
    (now : N) (saveConfig : option Conn.SaveConfig)
    (st : AppState) (form : ConnectionManager.State) (net auth : Js.Error) :
  let details := ConnectionManager.connectionDetails form in
  Js.name net = "NetworkError" ->
  Js.name auth <> "NetworkError" ->
  S3.listBuckets (networkDown details) = inl net ->
  S3.listBuckets (badCredentials details) = inl auth ->
  let r1 := handleConnect networkDown now details saveConfig st in
  let r2 := handleConnect badCredentials now details saveConfig st in
  let t1 := ConnectionManager.handleTestConnection networkDown form in
  let t2 := ConnectionManager.handleTestConnection badCredentials form in
  (forall S3Client d cfg s,
      exists rest,
        log_of (handleConnect S3Client now d cfg s) = Sent S3.ListBucketsCommand :: rest
        /\ forall c, ~ In (Sent c) rest)
  /\ log_of r1 =
    [Sent S3.ListBucketsCommand; ShowAlert "Connection failed: NetworkError." "error"]
  /\ log_of r2 =
    [Sent S3.ListBucketsCommand;
     ShowAlert ("Connection failed: " ++ Js.name auth ++ ".") "error"]
  /\ alerts (log_of r1) <> alerts (log_of r2)
  /\ snd t1 = [S3.ListBucketsCommand]
  /\ snd t2 = [S3.ListBucketsCommand]
  /\ ConnectionManager.message (ConnectionManager.testResult (fst t1)) =
       "Error: NetworkError. This could be a CORS issue. Please check your Minio server's CORS configuration."
  /\ ConnectionManager.message (ConnectionManager.testResult (fst t2)) =
       ("Error: " ++ Js.name auth ++ ". Check your credentials and endpoint URL.")%string
  /\ ConnectionManager.testResult (fst t1) <> ConnectionManager.testResult (fst t2).
Proof.
  intros details Hnet Hauth H1 H2.
  destruct (handleConnect_failed networkDown now details saveConfig st net H1)
    as (_ & Hl1 & _).
  destruct (handleConnect_failed badCredentials now details saveConfig st auth H2)
    as (_ & Hl2 & _).
  apply String.eqb_neq in Hauth.
  cbv zeta. rewrite Hl1, Hl2, Hnet.
  unfold ConnectionManager.handleTestConnection. fold details. rewrite H1, H2.
  unfold ConnectionManager.testFailure. rewrite Hnet, Hauth.
  cbn [fst snd ConnectionManager.testResult ConnectionManager.message alerts flat_map app].
  split; [intros; apply handleConnect_validates |].
  repeat split.
  - intros H. injection H as H.
    change "NetworkError." with ("NetworkError" ++ ".")%string in H.
    apply append_dot_inj in H.
    apply String.eqb_neq in Hauth. congruence.
  - cbn. rewrite string_app_assoc. reflexivity.
  - intros H. injection H as H.
    apply (f_equal (fun s => Js.endsWith s "Check your credentials and endpoint URL.")) in H.
    rewrite endsWith_append in H. vm_compute in H. discriminate H.
Qed.

Lemma connect_failure_kinds_distinguished_witness :
  let form :=
    {| ConnectionManager.endpoint := "http://127.0.0.1:9000";
       ConnectionManager.accessKey := "minioadmin";
       ConnectionManager.secretKey := "wrong";
       ConnectionManager.isTesting := false;
       ConnectionManager.testResult :=
         {| ConnectionManager.message := ""; ConnectionManager.type := "" |} |} in
  alerts (log_of (handleConnect (fun _ => storeDown "NetworkError") 0%N
                    (ConnectionManager.connectionDetails form) None initialState))
  <> alerts (log_of (handleConnect (fun _ => storeDown "InvalidAccessKeyId") 0%N
                       (ConnectionManager.connectionDetails form) None initialState)).
Proof.
  cbv zeta.
  refine (proj1 (proj2 (proj2 (proj2
    (connect_failure_kinds_distinguished
       (fun _ => storeDown "NetworkError") (fun _ => storeDown "InvalidAccessKeyId")
       0%N None initialState _
       {| Js.name := "NetworkError" |} {| Js.name := "InvalidAccessKeyId" |}
       eq_refl _ eq_refl eq_refl))))).
  discriminate.
Defined.

(** ** Upload tracker: the progress percentage *)

(** Line 354 divides, multiplies and rounds on Numbers.  [SpecFloat] rounds
    a quotient and a product with [binary_round_aux]; what follows shows
    that, away from the ends of the exponent range, its result is a value
    of the format nearest to the number rounded.  The properties of the
    percentage rest on that alone.  Values are counted in units of
    [2^-1074], in which every Number is an integer. *)

Section Binary64.

Local Open Scope Z_scope.

(** *** Bits of a mantissa, and the right shift with its two flags *)

Lemma digits2_pos_bounds (p : positive) :
  2 ^ (Z.pos (SpecFloat.digits2_pos p) - 1) <= Z.pos p < 2 ^ Z.pos (SpecFloat.digits2_pos p).
Proof.
  induction p as [p IH | p IH |]; cbn [SpecFloat.digits2_pos].
  - rewrite Pos2Z.inj_succ.
    replace (Z.succ (Z.pos (SpecFloat.digits2_pos p)) - 1)
      with (Z.succ (Z.pos (SpecFloat.digits2_pos p) - 1)) by lia.
    rewrite !Z.pow_succ_r by lia. lia.
  - rewrite Pos2Z.inj_succ.
    replace (Z.succ (Z.pos (SpecFloat.digits2_pos p)) - 1)
      with (Z.succ (Z.pos (SpecFloat.digits2_pos p) - 1)) by lia.
    rewrite !Z.pow_succ_r by lia. lia.
  - cbn. lia.
Qed.

Lemma digits2_pos_unique (p : positive) (k : Z) :
  2 ^ (k - 1) <= Z.pos p < 2 ^ k -> Z.pos (SpecFloat.digits2_pos p) = k.
Proof.
  intros [Hlo Hhi]. pose proof (digits2_pos_bounds p) as [Blo Bhi].
  set (d := Z.pos (SpecFloat.digits2_pos p)) in *.
  assert (Hd : 0 < d) by (unfold d; lia).
  destruct (Z.lt_trichotomy d k) as [Hlt | [Heq | Hgt]]; [| exact Heq |].
  - exfalso. assert (2 ^ d <= 2 ^ (k - 1)) by (apply Z.pow_le_mono_r; lia). lia.
  - exfalso. destruct (Z.le_gt_cases k 0) as [Hk | Hk].
    + assert (2 ^ k <= 2 ^ 0) by (apply Z.pow_le_mono_r_iff; lia).
      change (2 ^ 0) with 1 in *. lia.
    + assert (2 ^ k <= 2 ^ (d - 1)) by (apply Z.pow_le_mono_r; lia). lia.
Qed.

Ltac unfold_record :=
  cbn [loc_ok SpecFloat.loc_of_shr_record SpecFloat.shr_record_of_loc
       SpecFloat.shr_1 SpecFloat.shr_m SpecFloat.shr_r SpecFloat.shr_s orb] in *.

Lemma holds_of_loc (m : Z) (l : SpecFloat.location) (r d : Z) :
  0 <= m -> 0 <= r < d -> loc_ok l r d ->
  holds (SpecFloat.shr_record_of_loc m l) (m * d + r) d.
Proof.
  intros Hm Hr Hl. split.
  - destruct l as [| []]; exact Hm.
  - exists r. destruct l as [| []]; unfold_record; repeat split; try lia.
Qed.

Lemma holds_shr_1 (mrs : SpecFloat.shr_record) (T D : Z) :
  holds mrs T D -> holds (SpecFloat.shr_1 mrs) T (D * 2).
Proof.
  intros [Hm (r & HT & Hr & Hl)].
  destruct mrs as [m rb sb]. unfold holds. unfold_record.
  destruct m as [| p | p]; [| | lia].
  - unfold_record. split; [lia |].
    exists r. destruct rb, sb; unfold_record; repeat split; lia.
  - destruct p as [p | p |]; unfold_record.
    + split; [lia |]. exists (D + r).
      destruct rb, sb; unfold_record; repeat split; lia.
    + split; [lia |]. exists r.
      destruct rb, sb; unfold_record; repeat split; lia.
    + split; [lia |]. exists (D + r).
      destruct rb, sb; unfold_record; repeat split; lia.
Qed.

Lemma holds_iter_shr_1 (n : positive) :
  forall mrs T D,
    holds mrs T D ->
    holds (SpecFloat.iter_pos SpecFloat.shr_1 n mrs) T (D * 2 ^ Z.pos n).
Proof.
  induction n as [n IH | n IH |]; intros mrs T D H; cbn [SpecFloat.iter_pos].
  - apply holds_shr_1 in H. apply IH in H. apply IH in H.
    replace (D * 2 ^ Z.pos n~1) with (D * 2 * 2 ^ Z.pos n * 2 ^ Z.pos n); [exact H |].
    replace (Z.pos n~1) with (1 + Z.pos n + Z.pos n) by lia.
    rewrite !Z.pow_add_r by lia. change (2 ^ 1) with 2. ring.
  - apply IH in H. apply IH in H.
    replace (D * 2 ^ Z.pos n~0) with (D * 2 ^ Z.pos n * 2 ^ Z.pos n); [exact H |].
    replace (Z.pos n~0) with (Z.pos n + Z.pos n) by lia.
    rewrite Z.pow_add_r by lia. ring.
  - apply holds_shr_1 in H. change (2 ^ 1) with 2. exact H.
Qed.

(** *** Rounding to a nearest value of the format *)

Lemma pow2_pos (e : Z) : 0 <= e -> 0 < 2 ^ e.
Proof. intros H. apply Z.pow_pos_nonneg; lia. Qed.

Lemma pow2_split (a b : Z) : 0 <= a -> 0 <= b -> 2 ^ (a + b) = 2 ^ a * 2 ^ b.
Proof. intros Ha Hb. apply Z.pow_add_r; assumption. Qed.

Lemma pow2_ge_2 (k : Z) : 1 <= k -> 2 <= 2 ^ k.
Proof.
  intros H. change 2 with (2 ^ 1) at 1. apply Z.pow_le_mono_r; lia.
Qed.

(** Rounding [T / Dn] to a neighbouring integer [M'] that is nearest gives,
    scaled by [2^U], a nearest value of the format, once the integer part
    has 53 bits. *)
Lemma nearest_of_rounding (T Dn M M' U : Z) :
  0 < Dn -> 0 <= U -> 2 ^ 52 <= M -> M * Dn <= T ->
  M <= M' <= M + 1 -> 2 * Z.abs (T - M' * Dn) <= Dn ->
  nearest (T * 2 ^ U) Dn (M' * 2 ^ U).
Proof.
  intros HD HU HM HT HM' Hhalf G (g & u & Hg & Hu & ->).
  assert (Hclose : Z.abs (T - M' * Dn) <= T - M * Dn).
  { assert (Hcase : M' = M \/ M' = M + 1) by lia.
    destruct Hcase as [-> | ->]; [lia |].
    replace ((M + 1) * Dn) with (M * Dn + Dn) in * by ring. lia. }
  destruct (Z_le_gt_dec U u) as [Hle | Hgt].
  - replace u with (U + (u - U)) by lia. rewrite pow2_split by lia.
    set (K := g * 2 ^ (u - U)).
    pose proof (pow2_pos U HU) as HpU.
    replace (T * 2 ^ U - M' * 2 ^ U * Dn) with (2 ^ U * (T - M' * Dn)) by ring.
    replace (T * 2 ^ U - g * (2 ^ U * 2 ^ (u - U)) * Dn)
      with (2 ^ U * (T - K * Dn)) by (unfold K; ring).
    rewrite !Z.abs_mul, (Z.abs_eq (2 ^ U)) by lia.
    apply Z.mul_le_mono_nonneg_l; [lia |].
    destruct (Z.lt_trichotomy K M') as [Hlt | [-> | Hlt]]; [| lia |].
    + assert (K * Dn <= (M' - 1) * Dn) by (apply Z.mul_le_mono_nonneg_r; lia). lia.
    + assert ((M' + 1) * Dn <= K * Dn) by (apply Z.mul_le_mono_nonneg_r; lia). lia.
  - replace U with (u + (U - u)) by lia. rewrite pow2_split by lia.
    set (P := 2 ^ (U - u)).
    assert (HP : 2 <= P) by (apply pow2_ge_2; lia).
    pose proof (pow2_pos u Hu) as Hpu.
    replace (T * (2 ^ u * P) - M' * (2 ^ u * P) * Dn)
      with (2 ^ u * (P * (T - M' * Dn))) by ring.
    replace (T * (2 ^ u * P) - g * 2 ^ u * Dn)
      with (2 ^ u * (T * P - g * Dn)) by ring.
    rewrite !Z.abs_mul, (Z.abs_eq (2 ^ u)), (Z.abs_eq P) by lia.
    apply Z.mul_le_mono_nonneg_l; [lia |].
    assert (H1 : g * Dn <= 2 ^ 53 * Dn) by (apply Z.mul_le_mono_nonneg_r; lia).
    change (2 ^ 53) with (2 * 2 ^ 52) in H1.
    assert (H2 : 2 * 2 ^ 52 * Dn <= P * (M * Dn)) by nia.
    assert (H3 : P * Z.abs (T - M' * Dn) <= P * (T - M * Dn))
      by (apply Z.mul_le_mono_nonneg_l; lia).
    lia.
Qed.

Lemma fexp_normal (e : Z) :
  -1021 <= e -> SpecFloat.fexp Js.prec Js.emax e = e - 53.
Proof. intros H. unfold SpecFloat.fexp, SpecFloat.emin, Js.prec, Js.emax. lia. Qed.

(** The first shift of [binary_round_aux]: a mantissa of [53 + n] bits
    loses its [n] low bits, which the flags remember. *)
Lemma shr_fexp_holds (mx ex : Z) (lx : SpecFloat.location) (r d n : Z) :
  0 < mx -> SpecFloat.Zdigits2 mx = 53 + n -> 0 <= n ->
  0 <= r < d -> loc_ok lx r d -> -1074 <= ex + n ->
  exists mrs,
    SpecFloat.shr_fexp Js.prec Js.emax mx ex lx = (mrs, ex + n)
    /\ holds mrs (mx * d + r) (d * 2 ^ n).
Proof.
  intros Hmx Hdig Hn Hr Hl Hlow.
  unfold SpecFloat.shr_fexp. rewrite Hdig, fexp_normal by lia.
  replace (53 + n + ex - 53 - ex) with n by lia.
  pose proof (holds_of_loc mx lx r d (Z.lt_le_incl _ _ Hmx) Hr Hl) as H0.
  destruct n as [| p | p]; [| | lia].
  - eexists. split; [unfold SpecFloat.shr; f_equal; lia |].
    rewrite Z.mul_1_r. exact H0.
  - eexists. split; [reflexivity |].
    apply holds_iter_shr_1. exact H0.
Qed.

Lemma round_nearest_even_near (mrs : SpecFloat.shr_record) (T Dn : Z) :
  holds mrs T Dn ->
  let M := SpecFloat.shr_m mrs in
  let M' := SpecFloat.round_nearest_even M (SpecFloat.loc_of_shr_record mrs) in
  M * Dn <= T /\ T < (M + 1) * Dn
  /\ M <= M' <= M + 1 /\ 2 * Z.abs (T - M' * Dn) <= Dn.
Proof.
  intros [Hm (r & HT & Hr & Hl)]. cbv zeta.
  set (M := SpecFloat.shr_m mrs) in *.
  replace ((M + 1) * Dn) with (M * Dn + Dn) by ring.
  destruct (SpecFloat.loc_of_shr_record mrs) as [| []];
    cbn [SpecFloat.round_nearest_even loc_ok] in *.
  - repeat split; lia.
  - destruct (Z.even M); replace ((M + 1) * Dn) with (M * Dn + Dn) by ring;
      repeat split; lia.
  - repeat split; lia.
  - replace ((M + 1) * Dn) with (M * Dn + Dn) by ring. repeat split; lia.
Qed.

Lemma Zdigits2_bounds (mx k : Z) :
  0 < mx -> SpecFloat.Zdigits2 mx = k -> 2 ^ (k - 1) <= mx < 2 ^ k.
Proof.
  intros Hmx <-. destruct mx as [| p | p]; [lia | | lia].
  apply digits2_pos_bounds.
Qed.

Lemma Zdigits2_unique (mx k : Z) :
  2 ^ (k - 1) <= mx < 2 ^ k -> 0 < mx -> SpecFloat.Zdigits2 mx = k.
Proof.
  intros H Hmx. destruct mx as [| p | p]; [lia | | lia].
  apply digits2_pos_unique. exact H.
Qed.

(** [binary_round_aux] on a positive mantissa of at least 53 bits, away
    from the ends of the exponent range: the result is a normal Number, and
    a value of the format nearest to the number being rounded. *)
Lemma binary_round_aux_nearest (mx ex : Z) (lx : SpecFloat.location) (r d n : Z) :
  0 < mx -> SpecFloat.Zdigits2 mx = 53 + n -> 0 <= n ->
  0 <= r < d -> loc_ok lx r d ->
  -1074 <= ex + n -> ex + n + 1 <= 971 ->
  exists m e,
    SpecFloat.binary_round_aux Js.prec Js.emax false mx ex lx
    = SpecFloat.S754_finite false m e
    /\ 2 ^ 52 <= Z.pos m < 2 ^ 53
    /\ ex + n <= e <= ex + n + 1
    /\ nearest ((mx * d + r) * 2 ^ (ex + n + 1074)) (d * 2 ^ n)
               (Z.pos m * 2 ^ (e + 1074)).
Proof.
  intros Hmx Hdig Hn Hr Hl Hlow Hhigh.
  destruct (shr_fexp_holds mx ex lx r d n Hmx Hdig Hn Hr Hl Hlow) as (mrs & E1 & Hh).
  pose proof (round_nearest_even_near mrs _ _ Hh) as Hnear. cbv zeta in Hnear.
  unfold SpecFloat.binary_round_aux. rewrite E1.
  set (T := mx * d + r) in *. set (Dn := d * 2 ^ n) in *.
  set (M := SpecFloat.shr_m mrs) in *.
  set (M' := SpecFloat.round_nearest_even M (SpecFloat.loc_of_shr_record mrs)) in *.
  destruct Hnear as (HMT & HTM & HM' & Hhalf).
  pose proof (pow2_pos n Hn) as Hpn.
  assert (HDn : 0 < Dn) by (unfold Dn; nia).
  pose proof (Zdigits2_bounds mx _ Hmx Hdig) as Hb.
  replace (53 + n - 1) with (52 + n) in Hb by lia.
  rewrite !pow2_split in Hb by lia.
  assert (HM : 2 ^ 52 <= M < 2 ^ 53).
  { assert (2 ^ 52 * Dn <= T) by (unfold T, Dn; nia).
    assert (T < 2 ^ 53 * Dn) by (unfold T, Dn; nia).
    split; nia. }
  assert (HN : nearest (T * 2 ^ (ex + n + 1074)) Dn (M' * 2 ^ (ex + n + 1074))).
  { apply (nearest_of_rounding T Dn M M'); try assumption; lia. }
  assert (Hcase : M' < 2 ^ 53 \/ M' = 2 ^ 53) by lia.
  destruct Hcase as [Hlt | Heq].
  - assert (Hd' : SpecFloat.Zdigits2 M' = 53) by (apply Zdigits2_unique; lia).
    unfold SpecFloat.shr_fexp. rewrite Hd', fexp_normal by lia.
    replace (53 + (ex + n) - 53 - (ex + n)) with 0 by lia.
    cbn [SpecFloat.shr SpecFloat.shr_record_of_loc SpecFloat.shr_m].
    destruct M' as [| q | q] eqn:EM; [lia | | lia].
    replace (ex + n <=? Js.emax - Js.prec) with true
      by (symmetry; apply Z.leb_le; unfold Js.emax, Js.prec; lia).
    exists q, (ex + n).
    split; [reflexivity |]. split; [lia |]. split; [lia | exact HN].
  - rewrite Heq in *.
    unfold SpecFloat.shr_fexp.
    change (SpecFloat.Zdigits2 (2 ^ 53)) with 54.
    rewrite fexp_normal by lia.
    replace (54 + (ex + n) - 53 - (ex + n)) with 1 by lia.
    cbn [SpecFloat.shr SpecFloat.shr_record_of_loc SpecFloat.iter_pos].
    change (SpecFloat.shr_m
              (SpecFloat.shr_1
                 {| SpecFloat.shr_m := 2 ^ 53; SpecFloat.shr_r := false;
                    SpecFloat.shr_s := false |}))
      with (Z.pos (Z.to_pos (2 ^ 52))).
    cbv iota beta.
    replace (ex + n + 1 <=? Js.emax - Js.prec) with true
      by (symmetry; apply Z.leb_le; unfold Js.emax, Js.prec; lia).
    exists (Z.to_pos (2 ^ 52)), (ex + n + 1).
    split; [reflexivity |].
    split; [change (Z.pos (Z.to_pos (2 ^ 52))) with (2 ^ 52); lia |].
    split; [lia |].
    replace (Z.pos (Z.to_pos (2 ^ 52)) * 2 ^ (ex + n + 1 + 1074))
        with (2 ^ 53 * 2 ^ (ex + n + 1074)); [exact HN |].
    change (Z.pos (Z.to_pos (2 ^ 52))) with (2 ^ 52).
    replace (ex + n + 1 + 1074) with (1 + (ex + n + 1074)) by lia.
    rewrite (pow2_split 1) by lia. change (2 ^ 53) with (2 ^ 52 * 2 ^ 1). ring.
Qed.

(** *** What follows from being nearest *)

Lemma nearest_same_fraction (A B A' B' F : Z) :
  0 < B -> 0 < B' -> A * B' = A' * B -> nearest A B F -> nearest A' B' F.
Proof.
  intros HB HB' Hfrac H G HG. specialize (H G HG).
  assert (Hscale : forall X, Z.abs (A - X * B) * B' = Z.abs (A' - X * B') * B).
  { intros X. rewrite <- (Z.abs_eq B') at 1 by lia.
    rewrite <- (Z.abs_eq B) at 2 by lia. rewrite <- !Z.abs_mul. f_equal.
    rewrite !Z.mul_sub_distr_r, Hfrac. ring. }
  pose proof (Hscale F) as HF. pose proof (Hscale G) as HG'.
  assert (Z.abs (A - F * B) * B' <= Z.abs (A - G * B) * B')
    by (apply Z.mul_le_mono_nonneg_r; lia).
  nia.
Qed.

(** A fraction that is itself a value of the format is rounded to
    itself. *)
Lemma nearest_exact (A B F G : Z) :
  0 < B -> nearest A B F -> inFormat G -> A = G * B -> F = G.
Proof.
  intros HB H HG ->. specialize (H G HG).
  replace (G * B - G * B) with 0 in H by ring.
  replace (G * B - F * B) with ((G - F) * B) in H by ring.
  rewrite Z.abs_mul, (Z.abs_eq B) in H by lia. cbn in H. nia.
Qed.

(** Rounding to nearest keeps the order, and does not cross a value of the
    format. *)
Lemma nearest_mono (A1 B1 F1 A2 B2 F2 : Z) :
  0 < B1 -> 0 < B2 -> A1 * B2 < A2 * B1 ->
  nearest A1 B1 F1 -> nearest A2 B2 F2 -> inFormat F1 -> inFormat F2 ->
  F1 <= F2.
Proof.
  intros HB1 HB2 Hlt H1 H2 HF1 HF2.
  destruct (Z_le_gt_dec F1 F2) as [Hle | Hgt]; [exact Hle | exfalso].
  specialize (H1 F2 HF2). specialize (H2 F1 HF1).
  assert (F2 * B1 < F1 * B1) by (apply Z.mul_lt_mono_pos_r; lia).
  assert (F2 * B2 < F1 * B2) by (apply Z.mul_lt_mono_pos_r; lia).
  assert (Hmid1 : F1 * B1 + F2 * B1 <= 2 * A1) by lia.
  assert (Hmid2 : 2 * A2 <= F1 * B2 + F2 * B2) by lia.
  assert ((F1 * B1 + F2 * B1) * B2 <= 2 * A1 * B2)
    by (apply Z.mul_le_mono_nonneg_r; lia).
  assert (2 * A2 * B1 <= (F1 * B2 + F2 * B2) * B1)
    by (apply Z.mul_le_mono_nonneg_r; lia).
  nia.
Qed.

Lemma nearest_le (A B F C : Z) :
  0 < B -> nearest A B F -> inFormat C -> A <= C * B -> F <= C.
Proof.
  intros HB H HC Hle.
  destruct (Z_le_gt_dec F C) as [Hok | Hgt]; [exact Hok | exfalso].
  specialize (H C HC).
  assert (C * B < F * B) by (apply Z.mul_lt_mono_pos_r; lia). lia.
Qed.

Lemma nearest_ge (A B F C : Z) :
  0 < B -> nearest A B F -> inFormat C -> C * B <= A -> C <= F.
Proof.
  intros HB H HC Hle.
  destruct (Z_le_gt_dec C F) as [Hok | Hgt]; [exact Hok | exfalso].
  specialize (H C HC).
  assert (F * B < C * B) by (apply Z.mul_lt_mono_pos_r; lia). lia.
Qed.

Lemma normal_inFormat (m : positive) (e : Z) :
  normal m e -> inFormat (Z.pos m * 2 ^ (e + 1074)).
Proof. intros [Hm He]. exists (Z.pos m), (e + 1074). repeat split; lia. Qed.

(** Two normal Numbers of the same value are the same Number. *)
Lemma normal_unique (m1 : positive) (e1 : Z) (m2 : positive) (e2 : Z) :
  normal m1 e1 -> normal m2 e2 ->
  Z.pos m1 * 2 ^ (e1 + 1074) = Z.pos m2 * 2 ^ (e2 + 1074) ->
  m1 = m2 /\ e1 = e2.
Proof.
  intros [Hm1 He1] [Hm2 He2] Hv.
  assert (Hexp : forall a b ma mb,
             2 ^ 52 <= ma < 2 ^ 53 -> 2 ^ 52 <= mb < 2 ^ 53 ->
             0 <= a -> a < b -> ma * 2 ^ a = mb * 2 ^ b -> False).
  { intros a b ma mb Ha Hb H0 Hab Heq.
    replace b with (a + (b - a)) in Heq by lia. rewrite pow2_split in Heq by lia.
    pose proof (pow2_pos a H0). pose proof (pow2_ge_2 (b - a) ltac:(lia)).
    assert (ma = mb * 2 ^ (b - a)) by nia. nia. }
  destruct (Z.lt_trichotomy e1 e2) as [Hlt | [Heq | Hgt]].
  - exfalso. apply (Hexp (e1 + 1074) (e2 + 1074) (Z.pos m1) (Z.pos m2)); auto; lia.
  - subst e2. split; [| reflexivity].
    pose proof (pow2_pos (e1 + 1074) ltac:(lia)).
    assert (Z.pos m1 = Z.pos m2) by nia. congruence.
  - exfalso. apply (Hexp (e2 + 1074) (e1 + 1074) (Z.pos m2) (Z.pos m1)); auto; lia.
Qed.

(** *** Byte counts, quotient, product and [Math.round] *)

Lemma Pos_iter_xO (p k : positive) :
  Z.pos (Pos.iter xO p k) = Z.pos p * 2 ^ Z.pos k.
Proof.
  induction k as [| k IH] using Pos.peano_ind.
  - cbn. lia.
  - rewrite Pos.iter_succ, Pos2Z.inj_xO, IH, Pos2Z.inj_succ, Z.pow_succ_r by lia.
    ring.
Qed.

(** A byte count below [2^53] is carried exactly, by a normal Number. *)
Lemma ofN_exact (n : N) :
  (0 < n)%N -> Z.of_N n < 2 ^ 53 ->
  exists m e,
    Js.ofN n = SpecFloat.S754_finite false m e
    /\ normal m e /\ -52 <= e <= 0
    /\ Z.pos m * 2 ^ (e + 1074) = Z.of_N n * 2 ^ 1074.
Proof.
  intros Hpos Hlt. destruct n as [| p]; [lia |].
  cbn [Z.of_N] in *.
  unfold Js.ofN. cbn [Z.of_N SpecFloat.binary_normalize].
  unfold SpecFloat.binary_round.
  pose proof (digits2_pos_bounds p) as Hb.
  set (dg := Z.pos (SpecFloat.digits2_pos p)) in *.
  assert (Hdg : 1 <= dg <= 53).
  { split; [unfold dg; lia |].
    destruct (Z_le_gt_dec dg 53) as [H | H]; [exact H | exfalso].
    assert (2 ^ 53 <= 2 ^ (dg - 1)) by (apply Z.pow_le_mono_r; lia). lia. }
  rewrite fexp_normal by lia.
  assert (Hal : exists mz,
             SpecFloat.shl_align p 0 (dg + 0 - 53) = (mz, dg - 53)
             /\ Z.pos mz = Z.pos p * 2 ^ (53 - dg)).
  { unfold SpecFloat.shl_align.
    destruct (dg + 0 - 53 - 0) as [| k | k] eqn:Ek; [| lia |].
    - exists p. split; [f_equal; lia |].
      replace (53 - dg) with 0 by lia. lia.
    - exists (Pos.iter xO p k). split; [f_equal; lia |].
      rewrite Pos_iter_xO. f_equal. f_equal. lia. }
  destruct Hal as (mz & -> & Hmz).
  assert (Hd : SpecFloat.Zdigits2 (Z.pos mz) = 53 + 0).
  { apply Zdigits2_unique; [| lia]. rewrite Hmz.
    pose proof (pow2_pos (53 - dg) ltac:(lia)) as Hp.
    replace (2 ^ (53 + 0 - 1)) with (2 ^ (dg - 1) * 2 ^ (53 - dg))
      by (rewrite <- pow2_split by lia; f_equal; lia).
    replace (2 ^ (53 + 0)) with (2 ^ dg * 2 ^ (53 - dg))
      by (rewrite <- pow2_split by lia; f_equal; lia).
    split; [apply Z.mul_le_mono_nonneg_r | apply Z.mul_lt_mono_pos_r]; lia. }
  destruct (binary_round_aux_nearest (Z.pos mz) (dg - 53) SpecFloat.loc_Exact 0 1 0)
    as (m & e & Hrun & Hm & He & Hnear); try lia.
  { reflexivity. }
  assert (Hnorm : normal m e) by (split; lia).
  assert (Hval : Z.pos m * 2 ^ (e + 1074) = Z.pos p * 2 ^ 1074).
  { apply (nearest_exact _ 1 _ (Z.pos p * 2 ^ 1074)) in Hnear; [exact Hnear | lia | |].
    - exists (Z.pos p), 1074. repeat split; lia.
    - rewrite Hmz.
      replace (dg - 53 + 0 + 1074) with (1074 - (53 - dg)) by lia.
      replace (2 ^ 1074) with (2 ^ (53 - dg) * 2 ^ (1074 - (53 - dg)))
        by (rewrite <- pow2_split by lia; f_equal; lia).
      ring. }
  exists m, e. split; [exact Hrun |]. split; [exact Hnorm |].
  split; [| exact Hval].
  split; [lia |].
  destruct (Z_le_gt_dec e 0) as [H0 | H0]; [exact H0 | exfalso].
  assert (2 ^ 1075 <= 2 ^ (e + 1074)) by (apply Z.pow_le_mono_r; lia).
  assert (2 ^ 52 * 2 ^ 1075 <= Z.pos m * 2 ^ (e + 1074)).
  { apply Z.mul_le_mono_nonneg; lia. }
  assert (Z.pos p * 2 ^ 1074 < 2 ^ 53 * 2 ^ 1074)
    by (apply Z.mul_lt_mono_pos_r; [apply pow2_pos |]; lia).
  change (2 ^ 1075) with (2 * 2 ^ 1074) in *. change (2 ^ 53) with (2 * 2 ^ 52) in *.
  lia.
Qed.

Lemma new_location_ok (nb k : Z) :
  0 <= k < nb -> loc_ok (SpecFloat.new_location nb k) k nb.
Proof.
  intros Hk. unfold SpecFloat.new_location.
  destruct (Z.even nb) eqn:Ev.
  - unfold SpecFloat.new_location_even.
    destruct (Z.eqb_spec k 0) as [-> | Hne]; [reflexivity |].
    destruct (Z.compare_spec (2 * k) nb); cbn [loc_ok]; lia.
  - unfold SpecFloat.new_location_odd.
    destruct (Z.eqb_spec k 0) as [-> | Hne]; [reflexivity |].
    assert (Hodd : Z.odd nb = true) by (rewrite <- Z.negb_even, Ev; reflexivity).
    apply Z.odd_spec in Hodd. destruct Hodd as (j & Hj).
    destruct (Z.compare_spec (2 * k + 1) nb); cbn [loc_ok]; lia.
Qed.

(** The quotient of two normal Numbers, away from the ends of the exponent
    range, is a normal Number nearest to the exact quotient. *)
Lemma div_nearest (m1 : positive) (e1 : Z) (m2 : positive) (e2 : Z) :
  normal m1 e1 -> normal m2 e2 ->
  -1000 <= e1 - e2 <= 1000 ->
  exists m e,
    Js.div (SpecFloat.S754_finite false m1 e1) (SpecFloat.S754_finite false m2 e2)
    = SpecFloat.S754_finite false m e
    /\ normal m e /\ e1 - e2 - 53 <= e <= e1 - e2 - 51
    /\ nearest (Z.pos m1 * 2 ^ (e1 + 1074) * 2 ^ 1074) (Z.pos m2 * 2 ^ (e2 + 1074))
               (Z.pos m * 2 ^ (e + 1074)).
Proof.
  intros [Hm1 He1] [Hm2 He2] Hrange.
  unfold Js.div. cbn [SpecFloat.SFdiv xorb].
  unfold SpecFloat.SFdiv_core_binary.
  rewrite (Zdigits2_unique (Z.pos m1) 53), (Zdigits2_unique (Z.pos m2) 53) by lia.
  rewrite fexp_normal by lia.
  replace (Z.min (53 + e1 - (53 + e2) - 53) (e1 - e2)) with (e1 - e2 - 53) by lia.
  replace (e1 - e2 - (e1 - e2 - 53)) with 53 by lia.
  rewrite Z.shiftl_mul_pow2 by lia.
  pose proof (Z_div_mod (Z.pos m1 * 2 ^ 53) (Z.pos m2) ltac:(lia)) as Hdm.
  destruct (Z.div_eucl (Z.pos m1 * 2 ^ 53) (Z.pos m2)) as [q r].
  destruct Hdm as [Hq Hr].
  assert (Hqb : 2 ^ 52 <= q < 2 ^ 54).
  { change (2 ^ 54) with (2 * 2 ^ 53). change (2 ^ 53) with (2 * 2 ^ 52) in *.
    split; nia. }
  assert (Hn : exists n, 0 <= n <= 1 /\ SpecFloat.Zdigits2 q = 53 + n).
  { destruct (Z_lt_le_dec q (2 ^ 53)) as [Hs | Hs].
    - exists 0. split; [lia |]. apply Zdigits2_unique; lia.
    - exists 1. split; [lia |]. apply Zdigits2_unique; lia. }
  destruct Hn as (n & Hn & Hd).
  destruct (binary_round_aux_nearest q (e1 - e2 - 53)
              (SpecFloat.new_location (Z.pos m2) r) r (Z.pos m2) n)
    as (m & e & Hrun & Hm & He & Hnear); try lia.
  { apply new_location_ok. lia. }
  exists m, e. split; [exact Hrun |]. split; [split; lia |]. split; [lia |].
  pose proof (pow2_pos n ltac:(lia)) as Hpn.
  pose proof (pow2_pos (e2 + 1074) ltac:(lia)) as Hp2.
  apply (nearest_same_fraction
           ((q * Z.pos m2 + r) * 2 ^ (e1 - e2 - 53 + n + 1074)) (Z.pos m2 * 2 ^ n));
    [nia | nia | | exact Hnear].
  replace (q * Z.pos m2 + r) with (Z.pos m1 * 2 ^ 53) by lia.
  assert (Hpow : 2 ^ 53 * 2 ^ (e1 - e2 - 53 + n + 1074) * 2 ^ (e2 + 1074)
                 = 2 ^ (e1 + 1074) * 2 ^ 1074 * 2 ^ n).
  { rewrite <- !pow2_split by lia. f_equal. lia. }
  transitivity (Z.pos m1 * Z.pos m2
                * (2 ^ 53 * 2 ^ (e1 - e2 - 53 + n + 1074) * 2 ^ (e2 + 1074)));
    [ring | rewrite Hpow; ring].
Qed.

(** The product of a normal Number with the Number 100 is a normal Number
    nearest to the exact product. *)
Lemma mul_100_nearest (m1 : positive) (e1 : Z) :
  normal m1 e1 -> -900 <= e1 <= 900 ->
  exists m e,
    Js.mul (SpecFloat.S754_finite false m1 e1) (Js.ofN 100)
    = SpecFloat.S754_finite false m e
    /\ normal m e
    /\ nearest (Z.pos m1 * 2 ^ (e1 + 1074) * 100) 1 (Z.pos m * 2 ^ (e + 1074)).
Proof.
  intros [Hm1 He1] Hrange.
  change (Js.ofN 100) with (SpecFloat.S754_finite false 7036874417766400 (-46)).
  unfold Js.mul. cbn [SpecFloat.SFmul xorb].
  rewrite Pos2Z.inj_mul.
  change (Z.pos 7036874417766400) with (100 * 2 ^ 46).
  set (P := Z.pos m1 * (100 * 2 ^ 46)).
  assert (HP : 2 ^ 104 <= P < 2 ^ 106).
  { unfold P. change (2 ^ 104) with (2 ^ 52 * 2 ^ 52).
    change (2 ^ 106) with (2 ^ 53 * 2 ^ 53).
    assert (2 ^ 52 <= 100 * 2 ^ 46 < 2 ^ 53) by (cbn; lia).
    split; [apply Z.mul_le_mono_nonneg | apply Z.mul_lt_mono_nonneg]; lia. }
  assert (Hn : exists n, 52 <= n <= 53 /\ SpecFloat.Zdigits2 P = 53 + n).
  { destruct (Z_lt_le_dec P (2 ^ 105)) as [Hs | Hs].
    - exists 52. split; [lia |]. apply Zdigits2_unique; lia.
    - exists 53. split; [lia |]. apply Zdigits2_unique; lia. }
  destruct Hn as (n & Hn & Hd).
  destruct (binary_round_aux_nearest P (e1 + -46) SpecFloat.loc_Exact 0 1 n)
    as (m & e & Hrun & Hm & He & Hnear); try lia.
  { reflexivity. }
  exists m, e. split; [exact Hrun |]. split; [split; lia |].
  pose proof (pow2_pos n ltac:(lia)) as Hpn.
  apply (nearest_same_fraction
           ((P * 1 + 0) * 2 ^ (e1 + -46 + n + 1074)) (1 * 2 ^ n));
    [lia | lia | | exact Hnear].
  assert (Hpow : 2 ^ 46 * 2 ^ (e1 + -46 + n + 1074) = 2 ^ (e1 + 1074) * 2 ^ n).
  { rewrite <- !pow2_split by lia. f_equal. lia. }
  unfold P.
  transitivity (Z.pos m1 * 100 * (2 ^ 46 * 2 ^ (e1 + -46 + n + 1074)));
    [ring | rewrite Hpow; ring].
Qed.

(** [Math.round] of a Number that is not negative, from its value in
    units of [2^-1074]. *)
Lemma Math_round_units (m : positive) (e : Z) :
  -1074 <= e ->
  Js.Math_round (SpecFloat.S754_finite false m e)
  = (2 * (Z.pos m * 2 ^ (e + 1074)) + 2 ^ 1074) / 2 ^ 1075.
Proof.
  intros He. unfold Js.Math_round. cbn [SpecFloat.cond_Zopp].
  pose proof (pow2_pos 1074 ltac:(lia)) as HW.
  destruct e as [| k | k].
  - rewrite Z.mul_1_r. change (0 + 1074) with 1074.
    change (2 ^ 1075) with (2 * 2 ^ 1074).
    replace (2 * (Z.pos m * 2 ^ 1074) + 2 ^ 1074)
      with ((2 * Z.pos m + 1) * 2 ^ 1074) by ring.
    rewrite Z.div_mul_cancel_r by lia.
    apply Z.div_unique with (r := 1); lia.
  - rewrite (pow2_split (Z.pos k)) by lia.
    change (2 ^ 1075) with (2 * 2 ^ 1074).
    replace (2 * (Z.pos m * (2 ^ Z.pos k * 2 ^ 1074)) + 2 ^ 1074)
      with ((2 * (Z.pos m * 2 ^ Z.pos k) + 1) * 2 ^ 1074) by ring.
    rewrite Z.div_mul_cancel_r by lia.
    apply Z.div_unique with (r := 1); lia.
  - assert (Hk : Z.pos k <= 1074) by lia.
    set (W := 2 ^ (Z.neg k + 1074)).
    assert (HWp : 0 < W) by (apply pow2_pos; lia).
    replace (2 ^ 1074) with (2 ^ Z.pos k * W)
      by (unfold W; rewrite <- pow2_split by lia; f_equal; lia).
    replace (2 ^ 1075) with (2 ^ (Z.pos k + 1) * W)
      by (unfold W; rewrite <- pow2_split by lia; f_equal; lia).
    replace (2 * (Z.pos m * W) + 2 ^ Z.pos k * W)
      with ((2 * Z.pos m + 2 ^ Z.pos k) * W) by ring.
    rewrite Z.div_mul_cancel_r; [reflexivity | | lia].
    pose proof (pow2_pos (Z.pos k + 1) ltac:(lia)). lia.
Qed.

(** *** Signs *)

Lemma binary_round_aux_nonnegative (mx ex : Z) (lx : SpecFloat.location) :
  nonnegative (SpecFloat.binary_round_aux Js.prec Js.emax false mx ex lx).
Proof.
  unfold SpecFloat.binary_round_aux.
  destruct (SpecFloat.shr_fexp Js.prec Js.emax mx ex lx) as [mrs' e'].
  destruct (SpecFloat.shr_fexp Js.prec Js.emax _ e' SpecFloat.loc_Exact) as [mrs'' e''].
  destruct (SpecFloat.shr_m mrs'') as [| m | m]; cbn [nonnegative].
  - reflexivity.
  - destruct (e'' <=? Js.emax - Js.prec); reflexivity.
  - exact I.
Qed.

Lemma ofN_nonnegative (n : N) : nonnegative (Js.ofN n).
Proof.
  unfold Js.ofN. destruct n as [| p]; cbn [Z.of_N SpecFloat.binary_normalize].
  - reflexivity.
  - unfold SpecFloat.binary_round.
    destruct (SpecFloat.shl_align p 0 _) as [mz ez].
    apply binary_round_aux_nonnegative.
Qed.

Lemma div_nonnegative (x y : Js.Number) :
  nonnegative x -> nonnegative y -> nonnegative (Js.div x y).
Proof.
  intros Hx Hy. unfold Js.div.
  destruct x as [sx | sx | | sx mx ex], y as [sy | sy | | sy my ey];
    cbn in Hx, Hy; subst; cbn [SpecFloat.SFdiv xorb nonnegative]; try reflexivity;
    try exact I.
  destruct (SpecFloat.SFdiv_core_binary Js.prec Js.emax (Z.pos mx) ex (Z.pos my) ey)
    as [[mz ez] lz].
  apply binary_round_aux_nonnegative.
Qed.

Lemma mul_nonnegative (x y : Js.Number) :
  nonnegative x -> nonnegative y -> nonnegative (Js.mul x y).
Proof.
  intros Hx Hy. unfold Js.mul.
  destruct x as [sx | sx | | sx mx ex], y as [sy | sy | | sy my ey];
    cbn in Hx, Hy; subst; cbn [SpecFloat.SFmul xorb nonnegative]; try reflexivity;
    try exact I.
  apply binary_round_aux_nonnegative.
Qed.

Lemma Math_round_nonnegative (x : Js.Number) :
  nonnegative x -> 0 <= Js.Math_round x.
Proof.
  intros Hx. destruct x as [s | s | | s m e]; cbn [Js.Math_round]; try lia.
  cbn in Hx. subst s. cbn [SpecFloat.cond_Zopp].
  destruct e as [| k | k].
  - lia.
  - pose proof (pow2_pos (Z.pos k) ltac:(lia)). nia.
  - apply Z.div_pos.
    + pose proof (pow2_pos (Z.pos k) ltac:(lia)). lia.
    + apply pow2_pos. lia.
Qed.

(** *** The percentage of byte counts below [2^53] *)

(** The quotient is a Number [q] nearest to [l / t], the product a Number
    [p] nearest to [100 q], and the percentage the integer nearest to
    [p]. *)
Lemma percentage_steps (l t : N) :
  (0 < l)%N -> (0 < t)%N -> Z.of_N l < 2 ^ 53 -> Z.of_N t < 2 ^ 53 ->
  exists mq eq mp ep,
    Js.div (Js.ofN l) (Js.ofN t) = SpecFloat.S754_finite false mq eq
    /\ normal mq eq
    /\ nearest (Z.of_N l * 2 ^ 1074) (Z.of_N t) (Z.pos mq * 2 ^ (eq + 1074))
    /\ Js.mul (SpecFloat.S754_finite false mq eq) (Js.ofN 100)
       = SpecFloat.S754_finite false mp ep
    /\ normal mp ep
    /\ nearest (Z.pos mq * 2 ^ (eq + 1074) * 100) 1 (Z.pos mp * 2 ^ (ep + 1074))
    /\ percentage l t = (2 * (Z.pos mp * 2 ^ (ep + 1074)) + 2 ^ 1074) / 2 ^ 1075.
Proof.
  intros Hl Ht Hlb Htb.
  destruct (ofN_exact l Hl Hlb) as (m1 & e1 & E1 & N1 & R1 & V1).
  destruct (ofN_exact t Ht Htb) as (m2 & e2 & E2 & N2 & R2 & V2).
  destruct (div_nearest m1 e1 m2 e2 N1 N2 ltac:(lia))
    as (mq & eq & Eq & Nq & Rq & Hq).
  destruct (mul_100_nearest mq eq Nq ltac:(lia)) as (mp & ep & Ep & Np & Hp).
  exists mq, eq, mp, ep.
  unfold percentage. rewrite E1, E2, Eq, Ep.
  split; [reflexivity |]. split; [exact Nq |]. split.
  { pose proof (pow2_pos 1074 ltac:(lia)) as HW.
    apply (nearest_same_fraction
             (Z.pos m1 * 2 ^ (e1 + 1074) * 2 ^ 1074) (Z.pos m2 * 2 ^ (e2 + 1074)));
      [rewrite V2; nia | lia | rewrite V1, V2; ring | exact Hq]. }
  split; [reflexivity |]. split; [exact Np |]. split; [exact Hp |].
  apply Math_round_units. destruct Np as [_ H]. exact H.
Qed.

Lemma percentage_nonneg (l t : N) : 0 <= percentage l t.
Proof.
  unfold percentage. apply Math_round_nonnegative, mul_nonnegative.
  - apply div_nonnegative; apply ofN_nonnegative.
  - apply ofN_nonnegative.
Qed.

Lemma percentage_nothing (t : N) : percentage 0 t = 0.
Proof.
  unfold percentage. change (Js.ofN 0) with (SpecFloat.S754_zero false).
  change (Js.ofN 100) with (SpecFloat.S754_finite false 7036874417766400 (-46)).
  pose proof (ofN_nonnegative t) as Ht.
  destruct (Js.ofN t) as [s | s | | s m e]; cbn in Ht; subst; reflexivity.
Qed.

Lemma round_units_le (U V : Z) :
  U <= V -> (2 * U + 2 ^ 1074) / 2 ^ 1075 <= (2 * V + 2 ^ 1074) / 2 ^ 1075.
Proof.
  intros H. apply Z.div_le_mono; [apply pow2_pos |]; lia.
Qed.

Lemma round_units_100 : (2 * (100 * 2 ^ 1074) + 2 ^ 1074) / 2 ^ 1075 = 100.
Proof.
  pose proof (pow2_pos 1074 ltac:(lia)) as HW.
  change (2 ^ 1075) with (2 * 2 ^ 1074).
  replace (2 * (100 * 2 ^ 1074) + 2 ^ 1074) with (201 * 2 ^ 1074) by ring.
  rewrite Z.div_mul_cancel_r by lia. reflexivity.
Qed.

Lemma inFormat_small (k : Z) : 0 <= k < 2 ^ 53 -> inFormat (k * 2 ^ 1074).
Proof. intros H. exists k, 1074. repeat split; lia. Qed.

Lemma percentage_le_100 (l t : N) :
  Z.of_N t < 2 ^ 53 -> (l <= t)%N -> percentage l t <= 100.
Proof.
  intros Htb Hle.
  destruct (N.eq_dec l 0) as [-> | Hl]; [rewrite percentage_nothing; lia |].
  destruct (percentage_steps l t) as (mq & eq & mp & ep & _ & Nq & Hq & _ & Np & Hp & ->);
    try lia.
  pose proof (pow2_pos 1074 ltac:(lia)) as HW.
  assert (Hq1 : Z.pos mq * 2 ^ (eq + 1074) <= 1 * 2 ^ 1074).
  { apply (nearest_le (Z.of_N l * 2 ^ 1074) (Z.of_N t));
      [lia | exact Hq | apply inFormat_small; lia | nia]. }
  assert (Hp1 : Z.pos mp * 2 ^ (ep + 1074) <= 100 * 2 ^ 1074).
  { apply (nearest_le (Z.pos mq * 2 ^ (eq + 1074) * 100) 1);
      [lia | exact Hp | apply inFormat_small; lia | lia]. }
  rewrite <- round_units_100. apply round_units_le. exact Hp1.
Qed.

Lemma percentage_full (t : N) :
  (0 < t)%N -> Z.of_N t < 2 ^ 53 -> percentage t t = 100.
Proof.
  intros Ht Htb.
  destruct (percentage_steps t t) as (mq & eq & mp & ep & _ & Nq & Hq & _ & Np & Hp & ->);
    try lia.
  assert (Hq1 : Z.pos mq * 2 ^ (eq + 1074) = 1 * 2 ^ 1074).
  { apply (nearest_exact (Z.of_N t * 2 ^ 1074) (Z.of_N t));
      [lia | exact Hq | apply inFormat_small; lia | ring]. }
  assert (Hp1 : Z.pos mp * 2 ^ (ep + 1074) = 100 * 2 ^ 1074).
  { apply (nearest_exact (Z.pos mq * 2 ^ (eq + 1074) * 100) 1);
      [lia | exact Hp | apply inFormat_small; lia | rewrite Hq1; ring]. }
  rewrite Hp1. apply round_units_100.
Qed.

Lemma percentage_mono (l1 l2 t : N) :
  Z.of_N t < 2 ^ 53 -> Z.of_N l2 < 2 ^ 53 -> (l1 <= l2)%N ->
  percentage l1 t <= percentage l2 t.
Proof.
  intros Htb Hlb Hle.
  destruct (N.eq_dec l1 0) as [-> | Hl1];
    [rewrite percentage_nothing; apply percentage_nonneg |].
  destruct (N.eq_dec l1 l2) as [-> | Hne]; [lia |].
  destruct (N.eq_dec t 0) as [-> | Ht].
  { unfold percentage. change (Js.ofN 0) with (SpecFloat.S754_zero false).
    pose proof (ofN_nonnegative l1) as H1. pose proof (ofN_nonnegative l2) as H2.
    destruct (Js.ofN l1) as [s | s | | s m e], (Js.ofN l2) as [s' | s' | | s' m' e'];
      cbn in H1, H2; subst; cbn; lia. }
  destruct (percentage_steps l1 t)
    as (mq1 & eq1 & mp1 & ep1 & _ & Nq1 & Hq1 & Ep1 & Np1 & Hp1 & ->); try lia.
  destruct (percentage_steps l2 t)
    as (mq2 & eq2 & mp2 & ep2 & _ & Nq2 & Hq2 & Ep2 & Np2 & Hp2 & ->); try lia.
  pose proof (pow2_pos 1074 ltac:(lia)) as HW.
  apply round_units_le.
  assert (Hq : Z.pos mq1 * 2 ^ (eq1 + 1074) <= Z.pos mq2 * 2 ^ (eq2 + 1074)).
  { apply (nearest_mono (Z.of_N l1 * 2 ^ 1074) (Z.of_N t) _
                        (Z.of_N l2 * 2 ^ 1074) (Z.of_N t));
      try assumption; try lia; try (apply normal_inFormat; assumption).
    apply Z.mul_lt_mono_pos_r; [lia |].
    apply Z.mul_lt_mono_pos_r; lia. }
  destruct (Z.eq_dec (Z.pos mq1 * 2 ^ (eq1 + 1074)) (Z.pos mq2 * 2 ^ (eq2 + 1074)))
    as [Heq | Hneq].
  - destruct (normal_unique _ _ _ _ Nq1 Nq2 Heq) as [-> ->].
    rewrite Ep1 in Ep2. injection Ep2 as -> ->. lia.
  - apply (nearest_mono (Z.pos mq1 * 2 ^ (eq1 + 1074) * 100) 1 _
                        (Z.pos mq2 * 2 ^ (eq2 + 1074) * 100) 1);
      try assumption; try lia; apply normal_inFormat; assumption.
Qed.

(** For [l <= t], the percentage is the exact value [100 l / t] rounded
    down or rounded up to an integer. *)
Lemma percentage_accurate (l t : N) :
  (0 < t)%N -> Z.of_N t < 2 ^ 53 -> (l <= t)%N ->
  100 * Z.of_N l / Z.of_N t <= percentage l t
  /\ percentage l t <= (100 * Z.of_N l + Z.of_N t - 1) / Z.of_N t.
Proof.
  intros Ht Htb Hle.
  destruct (N.eq_dec l 0) as [-> | Hl].
  { rewrite percentage_nothing. cbn [Z.of_N]. rewrite Z.mul_0_r, Z.div_0_l by lia.
    split; [lia |]. apply Z.div_pos; lia. }
  destruct (percentage_steps l t) as (mq & eq & mp & ep & _ & Nq & Hq & _ & Np & Hp & ->);
    try lia.
  set (L := Z.of_N l) in *. set (D := Z.of_N t) in *.
  set (Uq := Z.pos mq * 2 ^ (eq + 1074)) in *.
  set (Up := Z.pos mp * 2 ^ (ep + 1074)) in *.
  assert (HL : 0 < L <= D) by (unfold L, D; lia).
  set (V := 2 ^ 1021).
  assert (HV : 0 < V) by (apply pow2_pos; lia).
  assert (HW : 2 ^ 1074 = 2 ^ 53 * V) by (unfold V; rewrite <- pow2_split by lia; reflexivity).
  assert (HW5 : 2 ^ 1075 = 2 * (2 ^ 53 * V))
    by (unfold V; rewrite <- pow2_split by lia; reflexivity).
  assert (HX : 2 ^ 1028 = 128 * V)
    by (unfold V; change 128 with (2 ^ 7); rewrite <- pow2_split by lia; reflexivity).
  rewrite HW in *. rewrite HW5.
  (* the quotient, on the grid of step 2^-53 *)
  set (k0 := L * 2 ^ 53 / D).
  assert (Hk0 : k0 * D <= L * 2 ^ 53 < (k0 + 1) * D).
  { unfold k0. pose proof (Z.mul_div_le (L * 2 ^ 53) D ltac:(lia)).
    pose proof (Z.mul_succ_div_gt (L * 2 ^ 53) D ltac:(lia)). lia. }
  assert (Hk0b : 0 <= k0 <= 2 ^ 53).
  { split; [unfold k0; apply Z.div_pos; lia |].
    assert (k0 * D <= 2 ^ 53 * D) by nia. nia. }
  assert (Hgrid : forall k, 0 <= k <= 2 ^ 53 -> inFormat (k * V)).
  { intros k Hk. destruct (Z.eq_dec k (2 ^ 53)) as [-> | Hne].
    - exists 1, 1074. repeat split; try lia.
    - exists k, 1021. repeat split; lia. }
  assert (Hq1 : Uq <= 2 ^ 53 * V).
  { apply (nearest_le (L * (2 ^ 53 * V)) D); [lia | exact Hq | apply Hgrid; lia | nia]. }
  assert (Hqlo : k0 * V <= Uq).
  { apply (nearest_ge (L * (2 ^ 53 * V)) D); [lia | exact Hq | apply Hgrid; lia | nia]. }
  assert (Hqhi : Uq <= (k0 + 1) * V).
  { destruct (Z.eq_dec k0 (2 ^ 53)) as [E | Hne]; [nia |].
    apply (nearest_le (L * (2 ^ 53 * V)) D); [lia | exact Hq | apply Hgrid; lia | nia]. }
  (* the product, on the grid of step 2^-46 *)
  set (j0 := Uq * 100 / (128 * V)).
  assert (Hj0 : j0 * (128 * V) <= Uq * 100 < (j0 + 1) * (128 * V)).
  { unfold j0. pose proof (Z.mul_div_le (Uq * 100) (128 * V) ltac:(lia)).
    pose proof (Z.mul_succ_div_gt (Uq * 100) (128 * V) ltac:(lia)). lia. }
  assert (Hj0b : 0 <= j0 < 2 ^ 53 - 1).
  { split; [unfold j0; apply Z.div_pos; [| lia]; unfold Uq; nia |].
    assert (j0 * (128 * V) <= 2 ^ 53 * V * 100) by lia.
    assert (j0 * 128 <= 2 ^ 53 * 100) by nia. lia. }
  assert (Hgrid' : forall j, 0 <= j < 2 ^ 53 -> inFormat (j * (128 * V))).
  { intros j Hj. exists j, 1028. repeat split; lia. }
  assert (Hplo : j0 * (128 * V) <= Up).
  { apply (nearest_ge (Uq * 100) 1); [lia | exact Hp | apply Hgrid'; lia | lia]. }
  assert (Hphi : Up <= (j0 + 1) * (128 * V)).
  { apply (nearest_le (Uq * 100) 1); [lia | exact Hp | apply Hgrid'; lia | lia]. }
  (* together *)
  assert (Hlow : 100 * L * (2 ^ 53 * V) - 228 * V * D < Up * D).
  { assert (Uq * 100 - 128 * V < Up) by lia.
    assert ((Uq * 100 - 128 * V) * D < Up * D) by (apply Z.mul_lt_mono_pos_r; lia).
    assert (k0 * V * D <= Uq * D) by (apply Z.mul_le_mono_nonneg_r; lia).
    assert ((L * 2 ^ 53 - D) * V < k0 * D * V) by (apply Z.mul_lt_mono_pos_r; lia).
    nia. }
  assert (Hhigh : Up * D <= 100 * L * (2 ^ 53 * V) + 228 * V * D).
  { assert (Up <= Uq * 100 + 128 * V) by lia.
    assert (Up * D <= (Uq * 100 + 128 * V) * D) by (apply Z.mul_le_mono_nonneg_r; lia).
    assert (Uq * D <= (k0 + 1) * V * D) by (apply Z.mul_le_mono_nonneg_r; lia).
    assert (k0 * D * V <= L * 2 ^ 53 * V) by (apply Z.mul_le_mono_nonneg_r; lia).
    nia. }
  assert (H456 : 456 < 2 ^ 53) by (cbn; lia).
  split.
  - apply Z.div_le_lower_bound; [lia |].
    set (c0 := 100 * L / D).
    assert (Hc0 : c0 * D <= 100 * L) by (unfold c0; pose proof (Z.mul_div_le (100 * L) D); lia).
    assert (Hc0n : 0 <= c0) by (unfold c0; apply Z.div_pos; lia).
    apply (Z.mul_le_mono_pos_r _ _ D); [lia |].
    assert (c0 * D * (2 * (2 ^ 53 * V)) <= 100 * L * (2 * (2 ^ 53 * V)))
      by (apply Z.mul_le_mono_nonneg_r; lia).
    nia.
  - set (c1 := (100 * L + D - 1) / D).
    assert (Hc1 : 100 * L <= c1 * D).
    { unfold c1. pose proof (Z.mul_succ_div_gt (100 * L + D - 1) D ltac:(lia)). lia. }
    apply Z.lt_succ_r. apply Z.div_lt_upper_bound; [lia |].
    apply (Z.mul_lt_mono_pos_r D); [lia |].
    assert (100 * L * (2 * (2 ^ 53 * V)) <= c1 * D * (2 * (2 ^ 53 * V)))
      by (apply Z.mul_le_mono_nonneg_r; lia).
    nia.
Qed.

End Binary64.

Lemma percentOf_known (p : S3.Progress) (t : N) :
  S3.total p = Some t -> t <> 0%N -> percentOf p = percentage (S3.loaded p) t.
Proof.
  intros Ht Hne. unfold percentOf. rewrite Ht.
  destruct (N.eqb_spec t 0); [contradiction | reflexivity].
Qed.

Lemma percentOf_nonneg (p : S3.Progress) : (0 <= percentOf p)%Z.
Proof.
  unfold percentOf. destruct (S3.total p) as [t |]; [| lia].
  destruct (N.eqb_spec t 0); [lia |].
  apply (percentage_nonneg (S3.loaded p) t).
Qed.

Lemma percentOf_nothing (p : S3.Progress) : S3.loaded p = 0%N -> percentOf p = 0%Z.
Proof.
  intros Hl. unfold percentOf. destruct (S3.total p) as [t |]; [| reflexivity].
  destruct (N.eqb_spec t 0); [reflexivity |].
  rewrite Hl. apply (percentage_nothing t).
Qed.

Lemma safe_integer (n : N) : (n <= Js.MAX_SAFE_INTEGER)%N -> (Z.of_N n < 2 ^ 53)%Z.
Proof. unfold Js.MAX_SAFE_INTEGER. intros H. change (2 ^ 53)%Z with 9007199254740992%Z. lia. Qed.

(** The callback stores the percentage of the event in the task it
    belongs to. *)
Lemma onHttpUploadProgress_sets uploadId p st task :
  In task (uploadingFiles (state_of (onHttpUploadProgress uploadId p st))) ->
  id task = uploadId ->
  progress task = percentOf p.
Proof.
  cbn. intros Hin Hid. apply in_map_iff in Hin.
  destruct Hin as (f & Hf & _). subst task.
  destruct (String.eqb_spec (id f) uploadId) as [E | NE]; cbn in *.
  - reflexivity.
  - contradiction.
Qed.

(** C8, as stated, fails: a task whose callbacks report 50 of 100 bytes,
    then 60 bytes of an unknown total, then 200 of 100 bytes shows 50, 0
    and 200: the value drops, and leaves the interval [0,100]. *)
Lemma progress_neither_clamped_nor_monotone :
  let callbacks :=
    [{| S3.loaded := 50; S3.total := Some 100%N |};
     {| S3.loaded := 60; S3.total := None |};
     {| S3.loaded := 200; S3.total := Some 100%N |}] in
  let client :=
    {| S3.listBuckets := inr None;
       S3.listObjectsV2 := fun _ _ _ _ => inr (page [] None);
       S3.deleteObjects := fun _ _ => inr tt;
       S3.upload := fun _ _ _ => {| S3.events := callbacks; S3.settles := None |} |} in
  let r := handleFileUpload (fun _ => 7%N) [{| Web.name := "f"; Web.size := 100 |}]
             (browsing client (Some "b") "" [] [] "") in
  map percentOf callbacks = [50; 0; 200]%Z
  /\ filter (fun ev => match ev with UploadProgress _ _ => true | _ => false end)
            (log_of r)
     = [UploadProgress "f-7" 50; UploadProgress "f-7" 0; UploadProgress "f-7" 200]
  /\ ~ (200 <= 100)%Z
  /\ ~ (50 <= 0)%Z.
Proof.
  cbv zeta. split; [vm_compute; reflexivity |]. split; [vm_compute; reflexivity |]. lia.
Qed.

(** C8, amended.  The percentage a progress callback stores in its task is
    computed from that event alone, on Numbers as line 354 does: it is 0
    when the total is unknown or zero, and 0 when nothing is loaded.  For a
    known total up to [Number.MAX_SAFE_INTEGER] it is never negative; when
    that total is not zero, it is 100 when [loaded] equals [total], and
    whenever [loaded] does not exceed [total] it is the exact value
    [100 * loaded / total] rounded down or rounded up to an integer, hence
    at most 100; and of two callbacks with that total, the one with the
    larger [loaded] does not report the smaller percentage.  No clamping and
    no comparison with the previous value take place. *)
Theorem percentOf_properties (uploadId : string) (p q : S3.Progress) (t : N)
    (st : AppState) :
  (forall task,
      In task (uploadingFiles (state_of (onHttpUploadProgress uploadId p st))) ->
      id task = uploadId -> progress task = percentOf p)
  /\ (S3.total p = None \/ S3.total p = Some 0%N -> percentOf p = 0%Z)
  /\ (S3.loaded p = 0%N -> percentOf p = 0%Z)
  /\ (S3.total p = Some t -> (t <= Js.MAX_SAFE_INTEGER)%N ->
      (0 <= percentOf p)%Z
      /\ (t <> 0%N -> S3.loaded p = t -> percentOf p = 100%Z)
      /\ (t <> 0%N -> (S3.loaded p <= t)%N ->
          (100 * Z.of_N (S3.loaded p) / Z.of_N t <= percentOf p)%Z
          /\ (percentOf p <= (100 * Z.of_N (S3.loaded p) + Z.of_N t - 1) / Z.of_N t)%Z
          /\ (percentOf p <= 100)%Z)
      /\ (S3.total q = Some t -> (S3.loaded p <= S3.loaded q)%N ->
          (S3.loaded q <= Js.MAX_SAFE_INTEGER)%N ->
          (percentOf p <= percentOf q)%Z)).
Proof.
  split; [intros task; apply onHttpUploadProgress_sets |].
  split.
  { intros [H | H]; unfold percentOf; rewrite H; reflexivity. }
  split; [apply percentOf_nothing |].
  intros Ht Hsafe.
  pose proof (safe_integer t Hsafe) as Hbound.
  split; [apply percentOf_nonneg |].
  split; [| split].
  - intros Hne Hl. rewrite (percentOf_known p t Ht Hne), Hl.
    apply percentage_full; [lia | exact Hbound].
  - intros Hne Hle. rewrite (percentOf_known p t Ht Hne).
    destruct (percentage_accurate (S3.loaded p) t) as [Hlow Hhigh];
      [lia | exact Hbound | exact Hle |].
    split; [exact Hlow |]. split; [exact Hhigh |].
    apply percentage_le_100; assumption.
  - intros Hq Hle Hsafe'.
    destruct (N.eq_dec t 0) as [Hz | Hne].
    + unfold percentOf. rewrite Ht, Hq, Hz. cbn. lia.
    + rewrite (percentOf_known p t Ht Hne), (percentOf_known q t Hq Hne).
      apply percentage_mono; [exact Hbound | apply safe_integer, Hsafe' | exact Hle].
Qed.

(** 29 of 200 bytes: the quotient [0.145] and the product [14.5] are not
    Numbers, the product computed is just below [14.5], and the percentage
    stored is 14. *)
Lemma percentOf_properties_witness :
  let p := {| S3.loaded := 29; S3.total := Some 200%N |} in
  let q := {| S3.loaded := 150; S3.total := Some 200%N |} in
  percentOf p = 14%Z
  /\ (100 * 29 / 200 <= percentOf p)%Z
  /\ (percentOf p <= 100)%Z
  /\ (percentOf p <= percentOf q)%Z.
Proof.
  cbv zeta.
  pose proof (percentOf_properties "f-7"
                {| S3.loaded := 29; S3.total := Some 200%N |}
                {| S3.loaded := 150; S3.total := Some 200%N |} 200%N initialState)
    as (_ & _ & _ & Hknown).
  destruct (Hknown eq_refl ltac:(discriminate)) as (_ & _ & Hle & Hmono).
  destruct (Hle ltac:(discriminate) ltac:(discriminate)) as (Hlow & _ & H100).
  split; [vm_compute; reflexivity |].
  split; [exact Hlow |]. split; [exact H100 |].
  apply Hmono; [reflexivity | discriminate | discriminate].
Defined.

(** ** Recursive key resolver *)

(** [[...new Set(l)]] has the elements of [l], each once. *)
Lemma fold_Set_add_In (l seen : list string) (k : string) :
  In k (fold_left Js.Set_add l seen) <-> In k seen \/ In k l.
Proof.
  revert seen. induction l as [| x l IH]; intros seen; cbn.
  - tauto.
  - rewrite IH. unfold Js.Set_add.
    destruct (existsb (String.eqb x) seen) eqn:E.
    + apply existsb_exists in E. destruct E as (y & Hy & Exy).
      apply String.eqb_eq in Exy. subst y.
      split; [tauto |]. intros [H | [<- | H]]; tauto.
    + rewrite in_app_iff. cbn. tauto.
Qed.

Lemma fold_Set_add_NoDup (l seen : list string) :
  NoDup seen -> NoDup (fold_left Js.Set_add l seen).
Proof.
  revert seen. induction l as [| x l IH]; intros seen Hnd; cbn.
  - exact Hnd.
  - apply IH. unfold Js.Set_add.
    destruct (existsb (String.eqb x) seen) eqn:E; [exact Hnd |].
    apply NoDup_app; [exact Hnd | repeat constructor; intros [] |].
    intros y Hy [Exy | []]. subst y.
    assert (existsb (String.eqb x) seen = true); [| congruence].
    apply existsb_exists. exists x. split; [exact Hy | apply String.eqb_refl].
Qed.

Lemma spread_new_Set_In (l : list string) (k : string) :
  In k (Js.spread_new_Set l) <-> In k l.
Proof. unfold Js.spread_new_Set. rewrite fold_Set_add_In. cbn. tauto. Qed.

Lemma spread_new_Set_NoDup (l : list string) : NoDup (Js.spread_new_Set l).
Proof. apply fold_Set_add_NoDup. constructor. Qed.

Lemma spread_new_Set_nil (l : list string) : Js.spread_new_Set l = [] -> l = [].
Proof.
  intros H. destruct l as [| x l]; [reflexivity |].
  assert (Hin : In x (Js.spread_new_Set (x :: l))).
  { apply spread_new_Set_In. left. reflexivity. }
  rewrite H in Hin. destruct Hin.
Qed.

(** One turn of the paging loop. *)
Lemma getAllKeysLoop_step fuel client bucket p keys token st :
  getAllKeysLoop (S fuel) client bucket p keys token st =
  match S3.listObjectsV2 client bucket p None token with
  | inl e => (Threw e, st, [Sent (S3.ListObjectsV2Command bucket p None token)])
  | inr response =>
      let keys' := keys ++ map S3.Key (pageOf response) in
      if Js.truthy_opt (S3.NextContinuationToken response)
      then
        let r := getAllKeysLoop fuel client bucket p keys'
                   (S3.NextContinuationToken response) st in
        (result_of r, state_of r,
         Sent (S3.ListObjectsV2Command bucket p None token) :: log_of r)
      else (Returned keys', st, [Sent (S3.ListObjectsV2Command bucket p None token)])
  end.
Proof.
  cbn [getAllKeysLoop]. unfold await_send, bind at 1. cbn.
  destruct (S3.listObjectsV2 client bucket p None token) as [e | response];
    cbn; [reflexivity |].
  assert (Hk : match S3.Contents response with
               | Some items => keys ++ map S3.Key items
               | None => keys
               end = keys ++ map S3.Key (pageOf response)).
  { unfold pageOf. destruct (S3.Contents response); cbn;
      [reflexivity | now rewrite app_nil_r]. }
  rewrite Hk.
  destruct (Js.truthy_opt (S3.NextContinuationToken response)); cbn.
  - destruct (getAllKeysLoop fuel client bucket p _ _ st) as [[o s] l]. reflexivity.
  - reflexivity.
Qed.

(** The paging loop only reads: it leaves the state alone and sends
    nothing but listing requests. *)
Lemma getAllKeysLoop_quiet fuel client bucket p :
  forall keys token st,
    let r := getAllKeysLoop fuel client bucket p keys token st in
    state_of r = st /\ forallb isFlatListing (log_of r) = true.
Proof.
  induction fuel as [| fuel IH]; intros keys token st.
  - cbn. split; reflexivity.
  - cbv zeta. rewrite getAllKeysLoop_step.
    destruct (S3.listObjectsV2 client bucket p None token) as [e | response].
    + split; reflexivity.
    + cbv zeta.
      destruct (Js.truthy_opt (S3.NextContinuationToken response)).
      * destruct (IH (keys ++ map S3.Key (pageOf response))
                     (S3.NextContinuationToken response) st) as [Hs Hl].
        cbn. split; assumption.
      * split; reflexivity.
Qed.

(** When the store serves the pages [pages], the loop returns the keys of
    all of them, in order, provided it may ask for that many pages. *)
Lemma getAllKeysLoop_serves client bucket p token pages :
  Serves client bucket p token pages ->
  forall fuel keys st,
    length pages <= fuel ->
    result_of (getAllKeysLoop fuel client bucket p keys token st)
    = Returned (keys ++ map S3.Key (concat pages)).
Proof.
  induction 1 as [token response Hans Hlast
                 | token response rest Hans Hmore Hrest IH];
    intros fuel keys st Hfuel.
  - destruct fuel as [| fuel]; [cbn in Hfuel; lia |].
    rewrite getAllKeysLoop_step, Hans. cbv zeta. rewrite Hlast.
    cbn. rewrite app_nil_r. reflexivity.
  - destruct fuel as [| fuel]; [cbn in Hfuel; lia |].
    rewrite getAllKeysLoop_step, Hans. cbv zeta. rewrite Hmore.
    unfold result_of at 1. cbn [fst]. rewrite IH by (cbn in Hfuel; lia).
    cbn. rewrite map_app, app_assoc. reflexivity.
Qed.

Lemma resolveSelection_quiet fuel client bucket items :
  forall acc st,
    let r := resolveSelection fuel client bucket items acc st in
    state_of r = st /\ forallb isFlatListing (log_of r) = true.
Proof.
  induction items as [| key rest IH]; intros acc st; cbn [resolveSelection].
  - split; reflexivity.
  - destruct (Js.endsWith key "/"); [| apply IH].
    unfold getAllKeysInPrefix, bind.
    pose proof (getAllKeysLoop_quiet fuel client bucket key [] None st) as Hq.
    cbv zeta in Hq.
    destruct (getAllKeysLoop fuel client bucket key [] None st) as [[o s] l].
    cbn in Hq. destruct Hq as [-> Hl].
    destruct o as [keys | e |]; try (split; [reflexivity | exact Hl]).
    pose proof (IH (acc ++ keys) st) as Hr. cbv zeta in Hr.
    destruct (resolveSelection fuel client bucket rest (acc ++ keys) st) as [[o2 s2] l2].
    cbn in Hr |- *. destruct Hr as [-> Hl2].
    split; [reflexivity |]. rewrite forallb_app, Hl, Hl2. reflexivity.
Qed.

Lemma resolveSelection_serves fuel client bucket pagesOf items :
  (forall key, In key items -> Js.endsWith key "/" = true ->
               Serves client bucket key None (pagesOf key)
               /\ length (pagesOf key) <= fuel) ->
  forall acc st,
    result_of (resolveSelection fuel client bucket items acc st)
    = Returned (acc ++ flat_map (contribution pagesOf) items).
Proof.
  induction items as [| key rest IH]; intros Hserved acc st; cbn [resolveSelection flat_map].
  - cbn. now rewrite app_nil_r.
  - assert (Hrest : forall k, In k rest -> Js.endsWith k "/" = true ->
                       Serves client bucket k None (pagesOf k)
                       /\ length (pagesOf k) <= fuel).
    { intros k Hk. apply Hserved. right. exact Hk. }
    unfold contribution at 1.
    destruct (Js.endsWith key "/") eqn:Hfolder.
    + destruct (Hserved key (or_introl eq_refl) Hfolder) as [Hs Hlen].
      pose proof (getAllKeysLoop_serves _ _ _ _ _ Hs fuel [] st Hlen) as Hres.
      pose proof (getAllKeysLoop_quiet fuel client bucket key [] None st) as Hq.
      cbv zeta in Hq. unfold getAllKeysInPrefix, bind.
      destruct (getAllKeysLoop fuel client bucket key [] None st) as [[o s] l].
      cbn in Hres, Hq. destruct Hq as [-> _]. subst o.
      pose proof (IH Hrest (acc ++ map S3.Key (concat (pagesOf key))) st) as Hr.
      destruct (resolveSelection fuel client bucket rest _ st) as [[o2 s2] l2].
      cbn in Hr |- *. rewrite Hr, app_assoc. reflexivity.
    + rewrite (IH Hrest). rewrite <- app_assoc. reflexivity.
Qed.

Lemma resolveKeys_run fuel client bucket items st :
  let r := resolveSelection fuel client bucket items [] st in
  resolveKeys fuel client bucket items st =
  (match result_of r with
   | Returned all => Returned (Js.spread_new_Set all)
   | Threw e => Threw e
   | OutOfFuel => OutOfFuel
   end, st, log_of r).
Proof.
  cbv zeta. unfold resolveKeys, bind.
  pose proof (resolveSelection_quiet fuel client bucket items [] st) as Hq.
  cbv zeta in Hq.
  destruct (resolveSelection fuel client bucket items [] st) as [[o s] l].
  cbn in Hq |- *. destruct Hq as [-> _].
  destruct o; cbn; [rewrite app_nil_r |..]; reflexivity.
Qed.

(** ** Bulk delete *)

Lemma quiet_no_delete (log : list Event) :
  forallb isFlatListing log = true -> deleteRequests log = [] /\ alerts log = [].
Proof.
  induction log as [| ev log IH]; cbn; [split; reflexivity |].
  intros H. apply andb_true_iff in H. destruct H as [Hev Hlog].
  destruct (IH Hlog) as [Hd Ha]. unfold deleteRequests, alerts in *. cbn.
  rewrite Hd, Ha.
  destruct ev as [[| b p [d |] t | b objs] | | | |]; try discriminate Hev.
  split; reflexivity.
Qed.

Lemma deleteRequests_app (l1 l2 : list Event) :
  deleteRequests (l1 ++ l2) = deleteRequests l1 ++ deleteRequests l2.
Proof. apply flat_map_app. Qed.

Lemma alerts_app (l1 l2 : list Event) : alerts (l1 ++ l2) = alerts l1 ++ alerts l2.
Proof. apply flat_map_app. Qed.

(** A refresh of the listing returns and sends no delete request. *)
Lemma fetchObjects_refresh bucket currentPrefix st :
  let r := fetchObjects bucket currentPrefix st in
  result_of r = Returned tt
  /\ deleteRequests (log_of r) = []
  /\ isDeleteModalOpen (state_of r) = isDeleteModalOpen st.
Proof.
  unfold fetchObjects.
  destruct (s3Client st) as [client |]; [| repeat split].
  destruct bucket as [bucket |]; [| repeat split].
  destruct (Js.truthy bucket); [| repeat split]. cbn.
  destruct (S3.listObjectsV2 client bucket currentPrefix (Some "/") None);
    cbn; repeat split.
Qed.


Lemma deleteRequests_cons_delete bucket keys (log : list Event) :
  deleteRequests (Sent (S3.DeleteObjectsCommand bucket keys) :: log)
  = keys :: deleteRequests log.
Proof. reflexivity. Qed.

Lemma deleteRequests_cons_note answer keys (log : list Event) :
  deleteRequests (deleteNote answer keys :: log) = deleteRequests log.
Proof. destruct answer; reflexivity. Qed.

(** The run of [handleDeleteSelected] once the resolver has returned. *)
Lemma handleDeleteSelected_run fuel st client bucket keys lg :
  s3Client st = Some client ->
  selectedBucket st = Some bucket ->
  Js.truthy bucket = true ->
  selectedItems st <> [] ->
  resolveKeys fuel client bucket (selectedItems st) st = (Returned keys, st, lg) ->
  let closed := state_of (setIsDeleteModalOpen false st) in
  handleDeleteSelected fuel st =
  match keys with
  | [] => (Returned tt, closed, lg)
  | _ =>
      let r := fetchObjects (Some bucket) (prefix st) closed in
      (Returned tt, state_of r,
       lg ++ Sent (S3.DeleteObjectsCommand bucket keys)
          :: deleteNote (S3.deleteObjects client bucket keys) keys
          :: log_of r)
  end.
Proof.
  intros Hc Hb Htr Hsel Hres. cbv zeta.
  unfold handleDeleteSelected. rewrite Hc, Hb, Htr.
  destruct (selectedItems st) as [| item items] eqn:Hitems; [contradiction |].
  cbn [length Nat.eqb negb orb].
  rewrite (bind_returned _ _ _ _ _ _ Hres).
  destruct keys as [| k keys].
  - cbn. rewrite app_nil_r. reflexivity.
  - cbn [length Nat.eqb].
    set (ks := k :: keys).
    pose proof (fetchObjects_refresh (Some bucket) (prefix st)
                  (state_of (setIsDeleteModalOpen false st))) as Hf.
    cbv zeta in Hf. destruct Hf as (Hret & _).
    unfold finally, try_catch, await_send, bind, emit, showAlert, throw, ret.
    destruct (S3.deleteObjects client bucket ks) as [e | []]; cbn.
    + destruct (fetchObjects (Some bucket) (prefix st) _) as [[o s] l] eqn:Ef.
      cbn in Hret. subst o. reflexivity.
    + destruct (fetchObjects (Some bucket) (prefix st) _) as [[o s] l] eqn:Ef.
      cbn in Hret. subst o. reflexivity.
Qed.

(** C7.  When the selection resolves to no key at all (a selected folder
    with nothing under its prefix, say), the delete handler returns
    normally having sent no delete request and raised no notification,
    error or other; and it has closed the confirmation dialog if anything
    was selected. *)
Theorem empty_resolution_sends_no_delete
    (fuel : nat) (st : AppState) (client : S3.Client) (bucket : string) :
  s3Client st = Some client ->
  selectedBucket st = Some bucket ->
  Js.truthy bucket = true ->
  result_of (resolveKeys fuel client bucket (selectedItems st) st) = Returned [] ->
  let r := handleDeleteSelected fuel st in
  result_of r = Returned tt
  /\ deleteRequests (log_of r) = []
  /\ alerts (log_of r) = []
  /\ (selectedItems st <> [] -> isDeleteModalOpen (state_of r) = false).
Proof.
  intros Hc Hb Htr Hres. cbv zeta.
  destruct (selectedItems st) as [| item items] eqn:Hitems.
  - unfold handleDeleteSelected. rewrite Hc, Hb, Htr, Hitems. cbn.
    repeat split. intros H. contradiction.
  - assert (Hne : selectedItems st <> []) by (rewrite Hitems; discriminate).
    pose proof (resolveKeys_run fuel client bucket (item :: items) st) as Hrun.
    cbv zeta in Hrun.
    pose proof (resolveSelection_quiet fuel client bucket (item :: items) [] st) as Hq.
    cbv zeta in Hq. destruct Hq as [_ Hquiet].
    rewrite Hrun in Hres. cbn [result_of fst] in Hres.
    destruct (result_of (resolveSelection fuel client bucket (item :: items) [] st))
      as [all | e |] eqn:Hall; try discriminate Hres.
    injection Hres as Hempty.
    rewrite Hempty in Hrun. rewrite <- Hitems in Hrun.
    rewrite (handleDeleteSelected_run fuel st client bucket [] _ Hc Hb Htr Hne Hrun).
    rewrite Hitems.
    destruct (quiet_no_delete _ Hquiet) as [Hd Ha].
    repeat split; assumption.
Qed.

(** A store in which nothing lies under the selected folder [empty/]. *)
Lemma empty_resolution_sends_no_delete_witness :
  let st := browsing storeA2 (Some "b") "" [folderEntry {| S3.Prefix := "empty/" |}]
                     ["empty/"] "" in
  let r := handleDeleteSelected 1 st in
  result_of r = Returned tt
  /\ deleteRequests (log_of r) = []
  /\ alerts (log_of r) = []
  /\ isDeleteModalOpen (state_of r) = false.
Proof.
  cbv zeta.
  destruct (empty_resolution_sends_no_delete 1
              (browsing storeA2 (Some "b") "" [folderEntry {| S3.Prefix := "empty/" |}]
                        ["empty/"] "")
              storeA2 "b" eq_refl eq_refl eq_refl eq_refl) as (H1 & H2 & H3 & H4).
  split; [exact H1 |]. split; [exact H2 |]. split; [exact H3 |].
  apply H4. discriminate.
Defined.

(** Once the resolver has returned a non-empty key set, the delete requests
    of the handler are one request with that key set. *)
Lemma handleDeleteSelected_requests
    (fuel : nat) (st : AppState) (client : S3.Client) (bucket : string)
    (keys : list string) :
  s3Client st = Some client ->
  selectedBucket st = Some bucket ->
  Js.truthy bucket = true ->
  selectedItems st <> [] ->
  result_of (resolveKeys fuel client bucket (selectedItems st) st) = Returned keys ->
  keys <> [] ->
  deleteRequests (log_of (handleDeleteSelected fuel st)) = [keys].
Proof.
  intros Hc Hb Htr Hne Hres Hkeys.
  pose proof (resolveKeys_run fuel client bucket (selectedItems st) st) as Hrun.
  cbv zeta in Hrun.
  pose proof (resolveSelection_quiet fuel client bucket (selectedItems st) [] st) as Hq.
  cbv zeta in Hq. destruct Hq as [_ Hquiet].
  destruct (quiet_no_delete _ Hquiet) as [Hd _].
  rewrite Hrun in Hres. cbn [result_of fst] in Hres. rewrite Hres in Hrun.
  rewrite (handleDeleteSelected_run fuel st client bucket keys _ Hc Hb Htr Hne Hrun).
  destruct keys as [| k keys]; [contradiction |].
  pose proof (fetchObjects_refresh (Some bucket) (prefix st)
                (state_of (setIsDeleteModalOpen false st))) as Hf.
  cbv zeta in Hf. destruct Hf as (_ & Hfd & _).
  cbv zeta. rewrite log_of_triple, deleteRequests_app, Hd. cbn [app].
  rewrite deleteRequests_cons_delete, deleteRequests_cons_note, Hfd.
  reflexivity.
Qed.

(** C1, as stated, fails: with 1001 keys selected and a store that accepts
    1000 keys a request, the handler sends one delete request carrying all
    1001 keys where chunking would send one of 1000 keys and one of 1. *)
Lemma large_selection_sent_in_one_request :
  let keys := map (fun n => ("k" ++ Js.toString (N.of_nat n))%string) (seq 0 1001) in
  let st := browsing storeA2 (Some "b") "" [] keys "" in
  let requests := deleteRequests (log_of (handleDeleteSelected 1 st)) in
  map (@length string) requests = [1001]
  /\ map (@length string) (chunksOf 1000 keys) = [1000; 1]
  /\ requests <> chunksOf 1000 keys.
Proof.
  cbv zeta.
  assert (H1 : map (@length string)
                 (deleteRequests
                    (log_of (handleDeleteSelected 1
                       (browsing storeA2 (Some "b") "" []
                          (map (fun n => ("k" ++ Js.toString (N.of_nat n))%string)
                               (seq 0 1001)) "")))) = [1001])
    by (vm_compute; reflexivity).
  assert (H2 : map (@length string)
                 (chunksOf 1000
                    (map (fun n => ("k" ++ Js.toString (N.of_nat n))%string)
                         (seq 0 1001))) = [1000; 1])
    by (vm_compute; reflexivity).
  split; [exact H1 |]. split; [exact H2 |].
  intros E. rewrite E, H2 in H1. discriminate H1.
Qed.

(** C1, amended.  For every non-empty resolved key set, whatever its size,
    the handler sends exactly one delete request, carrying all resolved
    keys; whether the store accepts or rejects it, the handler returns
    normally, raises the matching notification (success with the count, or
    failure), closes the dialog and refreshes the listing. *)
Theorem delete_sends_single_request
    (fuel : nat) (st : AppState) (client : S3.Client) (bucket : string)
    (keys : list string) :
  s3Client st = Some client ->
  selectedBucket st = Some bucket ->
  Js.truthy bucket = true ->
  selectedItems st <> [] ->
  result_of (resolveKeys fuel client bucket (selectedItems st) st) = Returned keys ->
  keys <> [] ->
  let r := handleDeleteSelected fuel st in
  result_of r = Returned tt
  /\ deleteRequests (log_of r) = [keys]
  /\ In (deleteNote (S3.deleteObjects client bucket keys) keys) (log_of r)
  /\ In (Sent (S3.ListObjectsV2Command bucket (prefix st) (Some "/") None)) (log_of r)
  /\ isDeleteModalOpen (state_of r) = false.
Proof.
  intros Hc Hb Htr Hne Hres Hkeys. cbv zeta.
  pose proof (handleDeleteSelected_requests fuel st client bucket keys
                Hc Hb Htr Hne Hres Hkeys) as Hreq.
  pose proof (resolveKeys_run fuel client bucket (selectedItems st) st) as Hrun.
  cbv zeta in Hrun.
  rewrite Hrun in Hres. cbn [result_of fst] in Hres. rewrite Hres in Hrun.
  rewrite (handleDeleteSelected_run fuel st client bucket keys _ Hc Hb Htr Hne Hrun)
    in Hreq |- *.
  destruct keys as [| k keys]; [contradiction |].
  set (ks := k :: keys) in *.
  set (closed := state_of (setIsDeleteModalOpen false st)) in *.
  pose proof (fetchObjects_refresh (Some bucket) (prefix st) closed) as Hf.
  cbv zeta in Hf. destruct Hf as (_ & _ & Hfm).
  cbv zeta in Hreq |- *.
  rewrite result_of_triple, state_of_triple, !log_of_triple.
  split; [reflexivity |]. split; [exact Hreq |]. split; [| split].
  - apply in_or_app. right. right. left. reflexivity.
  - apply in_or_app. right. right. right.
    unfold fetchObjects. subst closed. cbn. rewrite Hc, Htr. cbn.
    destruct (S3.listObjectsV2 client bucket (prefix st) (Some "/") None); cbn;
      left; reflexivity.
  - exact Hfm.
Qed.

Lemma delete_sends_single_request_witness :
  let st := browsing (storeDown "SlowDown") (Some "b") "" [] ["x"; "y"; "x"] "" in
  let r := handleDeleteSelected 1 st in
  result_of r = Returned tt
  /\ deleteRequests (log_of r) = [["x"; "y"]]
  /\ In (ShowAlert "Failed to delete items." "error") (log_of r).
Proof.
  cbv zeta.
  destruct (delete_sends_single_request 1
              (browsing (storeDown "SlowDown") (Some "b") "" [] ["x"; "y"; "x"] "")
              (storeDown "SlowDown") "b" ["x"; "y"]
              eq_refl eq_refl eq_refl) as (H1 & H2 & H3 & _).
  - discriminate.
  - reflexivity.
  - discriminate.
  - repeat split; assumption.
Defined.

(** ** Resolution of a mixed selection *)

Lemma contribution_paging (pagesOf pagesOf' : string -> list (list S3.Object))
    (items : list string) :
  (forall key, In key items -> Js.endsWith key "/" = true ->
               concat (pagesOf key) = concat (pagesOf' key)) ->
  flat_map (contribution pagesOf) items = flat_map (contribution pagesOf') items.
Proof.
  induction items as [| key rest IH]; intros H; cbn; [reflexivity |].
  rewrite IH by (intros k Hk; apply H; right; exact Hk).
  f_equal. unfold contribution.
  destruct (Js.endsWith key "/") eqn:E; [| reflexivity].
  rewrite (H key (or_introl eq_refl) E). reflexivity.
Qed.

Lemma contribution_In (pagesOf : string -> list (list S3.Object))
    (items : list string) (k : string) :
  In k (flat_map (contribution pagesOf) items) <->
  (In k items /\ Js.endsWith k "/" = false)
  \/ (exists p, In p items /\ Js.endsWith p "/" = true
                /\ In k (map S3.Key (concat (pagesOf p)))).
Proof.
  rewrite in_flat_map. unfold contribution. split.
  - intros (key & Hkey & Hin).
    destruct (Js.endsWith key "/") eqn:E.
    + right. exists key. auto.
    + destruct Hin as [<- | []]. left. auto.
  - intros [[Hin E] | (p & Hp & E & Hin)].
    + exists k. rewrite E. split; [exact Hin | left; reflexivity].
    + exists p. rewrite E. auto.
Qed.

(** C5.  For a selection of file keys and folder prefixes, the resolver
    returns the deduplicated union of the file keys taken as they are and,
    for each folder prefix, every key of every page of the flat listing
    under it, fetched until no continuation token comes back; two stores
    serving the same keys with different page boundaries give the same
    result. *)
Theorem resolveKeys_union_any_paging
    (fuel : nat) (client client' : S3.Client) (bucket : string)
    (items : list string) (pagesOf pagesOf' : string -> list (list S3.Object))
    (st st' : AppState) :
  (forall key, In key items -> Js.endsWith key "/" = true ->
               Serves client bucket key None (pagesOf key)
               /\ length (pagesOf key) <= fuel) ->
  (forall key, In key items -> Js.endsWith key "/" = true ->
               Serves client' bucket key None (pagesOf' key)
               /\ length (pagesOf' key) <= fuel) ->
  (forall key, In key items -> Js.endsWith key "/" = true ->
               concat (pagesOf key) = concat (pagesOf' key)) ->
  let resolved := Js.spread_new_Set (flat_map (contribution pagesOf) items) in
  result_of (resolveKeys fuel client bucket items st) = Returned resolved
  /\ result_of (resolveKeys fuel client' bucket items st') = Returned resolved
  /\ NoDup resolved
  /\ (forall k,
        In k resolved <->
        (In k items /\ Js.endsWith k "/" = false)
        \/ (exists p, In p items /\ Js.endsWith p "/" = true
                      /\ In k (map S3.Key (concat (pagesOf p))))).
Proof.
  intros Hs Hs' Hsame. cbv zeta.
  split; [| split; [| split]].
  - rewrite resolveKeys_run. cbn [result_of fst].
    fold (result_of (resolveSelection fuel client bucket items [] st)).
    rewrite (resolveSelection_serves fuel client bucket pagesOf items Hs).
    reflexivity.
  - rewrite resolveKeys_run. cbn [result_of fst].
    fold (result_of (resolveSelection fuel client' bucket items [] st')).
    rewrite (resolveSelection_serves fuel client' bucket pagesOf' items Hs').
    cbn [app]. rewrite (contribution_paging pagesOf pagesOf' items Hsame).
    reflexivity.
  - apply spread_new_Set_NoDup.
  - intros k. rewrite spread_new_Set_In. apply contribution_In.
Qed.

Lemma storeA2_serves :
  Serves storeA2 "b" "a/" None [[obj "a/"; obj "a/1"]; [obj "a/2"; obj "a/sub/3"]].
Proof.
  apply (Serves_more storeA2 "b" "a/" None (page [obj "a/"; obj "a/1"] (Some "t2"))
           [[obj "a/2"; obj "a/sub/3"]]); [reflexivity | reflexivity |].
  apply (Serves_last storeA2 "b" "a/" (Some "t2") (page [obj "a/2"; obj "a/sub/3"] None));
    reflexivity.
Defined.

Lemma storeA3_serves :
  Serves storeA3 "b" "a/" None [[obj "a/"; obj "a/1"; obj "a/2"]; [obj "a/sub/3"]].
Proof.
  apply (Serves_more storeA3 "b" "a/" None
           (page [obj "a/"; obj "a/1"; obj "a/2"] (Some "t3")) [[obj "a/sub/3"]]);
    [reflexivity | reflexivity |].
  apply (Serves_last storeA3 "b" "a/" (Some "t3") (page [obj "a/sub/3"] None));
    reflexivity.
Defined.

(** The file [x], the folder [a/] and the file [a/1] lying in it, against a
    store paging by two and one paging by three. *)
Lemma resolveKeys_union_any_paging_witness :
  result_of (resolveKeys 2 storeA2 "b" ["x"; "a/"; "a/1"] initialState)
  = Returned ["x"; "a/"; "a/1"; "a/2"; "a/sub/3"]
  /\ result_of (resolveKeys 2 storeA3 "b" ["x"; "a/"; "a/1"] initialState)
  = Returned ["x"; "a/"; "a/1"; "a/2"; "a/sub/3"].
Proof.
  assert (Hitem : forall key, In key ["x"; "a/"; "a/1"] ->
                              Js.endsWith key "/" = true -> key = "a/").
  { intros key [<- | [<- | [<- | []]]] E; try reflexivity; discriminate E. }
  destruct (resolveKeys_union_any_paging 2 storeA2 storeA3 "b" ["x"; "a/"; "a/1"]
              (fun _ => [[obj "a/"; obj "a/1"]; [obj "a/2"; obj "a/sub/3"]])
              (fun _ => [[obj "a/"; obj "a/1"; obj "a/2"]; [obj "a/sub/3"]])
              initialState initialState) as (H1 & H2 & _).
  - intros key Hin E. rewrite (Hitem key Hin E).
    split; [exact storeA2_serves | cbn; lia].
  - intros key Hin E. rewrite (Hitem key Hin E).
    split; [exact storeA3_serves | cbn; lia].
  - reflexivity.
  - split; [exact H1 | exact H2].
Defined.

Lemma startsWith_refl (p : string) : Js.startsWith p p = true.
Proof.
  unfold Js.startsWith. induction p as [| c p IH]; cbn; [reflexivity |].
  destruct (ascii_dec c c); [exact IH | contradiction].
Qed.

(** C10.  The flat listing passes a prefix and no delimiter; so when the
    store answers it with the stored keys that start with the selected
    folder prefix, the resolved key set is exactly that set of keys, the
    folder-marker object stored under the prefix itself included, and the
    delete request carries the marker with the rest. *)
Theorem folder_resolves_to_all_keys_under_prefix
    (fuel : nat) (client : S3.Client) (bucket p : string)
    (stored : list string) (pages : list (list S3.Object)) (st : AppState) :
  s3Client st = Some client ->
  selectedBucket st = Some bucket ->
  Js.truthy bucket = true ->
  selectedItems st = [p] ->
  Js.endsWith p "/" = true ->
  Serves client bucket p None pages ->
  length pages <= fuel ->
  map S3.Key (concat pages) = filter (fun k => Js.startsWith k p) stored ->
  exists keys,
    result_of (resolveKeys fuel client bucket [p] st) = Returned keys
    /\ NoDup keys
    /\ (forall k, In k keys <-> In k stored /\ Js.startsWith k p = true)
    /\ (forall d t,
          In (Sent (S3.ListObjectsV2Command bucket p d t))
             (log_of (resolveKeys fuel client bucket [p] st)) -> d = None)
    /\ (In p stored ->
        In p keys
        /\ deleteRequests (log_of (handleDeleteSelected fuel st)) = [keys]).
Proof.
  intros Hc Hb Htr Hsel Hfolder Hserves Hfuel Hstore.
  exists (Js.spread_new_Set (map S3.Key (concat pages))).
  assert (Hres : result_of (resolveKeys fuel client bucket [p] st)
                 = Returned (Js.spread_new_Set (map S3.Key (concat pages)))).
  { rewrite resolveKeys_run. cbn [result_of fst].
    fold (result_of (resolveSelection fuel client bucket [p] [] st)).
    rewrite (resolveSelection_serves fuel client bucket (fun _ => pages) [p]).
    - cbn. unfold contribution. rewrite Hfolder, app_nil_r. reflexivity.
    - intros key [<- | []] _. split; assumption. }
  assert (Hin : forall k, In k (Js.spread_new_Set (map S3.Key (concat pages)))
                          <-> In k stored /\ Js.startsWith k p = true).
  { intros k. rewrite spread_new_Set_In, Hstore, filter_In. tauto. }
  split; [exact Hres |]. split; [apply spread_new_Set_NoDup |].
  split; [exact Hin |]. split.
  - intros d t Hsent.
    pose proof (resolveSelection_quiet fuel client bucket [p] [] st) as Hq.
    cbv zeta in Hq. destruct Hq as [_ Hquiet].
    rewrite resolveKeys_run in Hsent. cbn [log_of snd] in Hsent.
    fold (log_of (resolveSelection fuel client bucket [p] [] st)) in Hsent.
    rewrite forallb_forall in Hquiet. specialize (Hquiet _ Hsent).
    destruct d; [discriminate Hquiet | reflexivity].
  - intros Hmarker.
    assert (Hp : In p (Js.spread_new_Set (map S3.Key (concat pages)))).
    { apply Hin. split; [exact Hmarker | apply startsWith_refl]. }
    split; [exact Hp |].
    assert (Hne : selectedItems st <> []) by (rewrite Hsel; discriminate).
    assert (Hkeys : Js.spread_new_Set (map S3.Key (concat pages)) <> []).
    { intros E. rewrite E in Hp. destruct Hp. }
    rewrite <- Hsel in Hres.
    exact (handleDeleteSelected_requests fuel st client bucket _
             Hc Hb Htr Hne Hres Hkeys).
Qed.

(** The store holds [a/], [a/1], [a/2], [a/sub/3], [b/1] and [x]; the folder
    [a/] is selected. *)
Lemma folder_resolves_to_all_keys_under_prefix_witness :
  let st := browsing storeA2 (Some "b") "" [folderEntry {| S3.Prefix := "a/" |}]
                     ["a/"] "" in
  result_of (resolveKeys 2 storeA2 "b" ["a/"] st)
  = Returned ["a/"; "a/1"; "a/2"; "a/sub/3"]
  /\ deleteRequests (log_of (handleDeleteSelected 2 st))
     = [["a/"; "a/1"; "a/2"; "a/sub/3"]].
Proof.
  cbv zeta.
  destruct (folder_resolves_to_all_keys_under_prefix 2 storeA2 "b" "a/"
              ["a/"; "a/1"; "a/2"; "a/sub/3"; "b/1"; "x"]
              [[obj "a/"; obj "a/1"]; [obj "a/2"; obj "a/sub/3"]]
              (browsing storeA2 (Some "b") "" [folderEntry {| S3.Prefix := "a/" |}]
                        ["a/"] "")
              eq_refl eq_refl eq_refl eq_refl eq_refl storeA2_serves (le_n 2) eq_refl)
    as (keys & Hres & _ & _ & _ & Hdel).
  assert (Hk : keys = ["a/"; "a/1"; "a/2"; "a/sub/3"]).
  { cbn in Hres. injection Hres as <-. reflexivity. }
  subst keys. split; [exact Hres |].
  apply Hdel. left. reflexivity.
Defined.

(** ** Upload tracker: lifecycle of the tasks *)

Lemma finally_run {A} (m : M A) (f : M unit) st o st1 l1 st2 l2 :
  m st = (o, st1, l1) ->
  o <> OutOfFuel ->
  f st1 = (Returned tt, st2, l2) ->
  finally m f st = (o, st2, l1 ++ l2).
Proof.
  intros Hm Ho Hf. unfold finally. rewrite Hm.
  destruct o; [| | contradiction]; rewrite Hf; reflexivity.
Qed.

Lemma try_catch_returned {A} (m : M A) (h : Js.Error -> M A) st a st1 l1 :
  m st = (Returned a, st1, l1) -> try_catch m h st = (Returned a, st1, l1).
Proof. intros Hm. unfold try_catch. rewrite Hm. reflexivity. Qed.

Lemma try_catch_threw {A} (m : M A) (h : Js.Error -> M A) st e st1 l1 :
  m st = (Threw e, st1, l1) ->
  try_catch m h st =
  (result_of (h e st1), state_of (h e st1), l1 ++ log_of (h e st1)).
Proof.
  intros Hm. unfold try_catch. rewrite Hm.
  destruct (h e st1) as [[o s] l]. reflexivity.
Qed.

(** The callbacks of one transfer, run in order. *)
Lemma progress_loop uploadId (events : list S3.Progress) :
  forall i st,
    let r := for_of events i (fun _ p => onHttpUploadProgress uploadId p) st in
    result_of r = Returned tt
    /\ log_of r = map (fun p => UploadProgress uploadId (percentOf p)) events.
Proof.
  induction events as [| p events IH]; intros i st; cbv zeta; cbn [for_of map].
  - split; reflexivity.
  - rewrite (bind_returned _ _ st tt (state_of (onHttpUploadProgress uploadId p st))
               [UploadProgress uploadId (percentOf p)] eq_refl).
    cbv beta. rewrite result_of_triple, log_of_triple.
    destruct (IH (S i) (state_of (onHttpUploadProgress uploadId p st))) as [Hr Hl].
    rewrite Hr, Hl. split; reflexivity.
Qed.

Lemma fetchObjects_no_upload_events bucket currentPrefix st :
  uploadEvents (log_of (fetchObjects bucket currentPrefix st)) = [].
Proof.
  unfold fetchObjects.
  destruct (s3Client st) as [client |]; [| reflexivity].
  destruct bucket as [bucket |]; [| reflexivity].
  destruct (Js.truthy bucket); [| reflexivity]. cbn.
  destruct (S3.listObjectsV2 client bucket currentPrefix (Some "/") None);
    reflexivity.
Qed.

Lemma uploadEvents_app (l1 l2 : list Event) :
  uploadEvents (l1 ++ l2) = uploadEvents l1 ++ uploadEvents l2.
Proof. apply filter_app. Qed.

Lemma uploadEvents_progress uploadId (events : list S3.Progress) :
  uploadEvents (map (fun p => UploadProgress uploadId (percentOf p)) events)
  = map (fun p => UploadProgress uploadId (percentOf p)) events.
Proof.
  induction events as [| p events IH]; cbn; [reflexivity |].
  unfold uploadEvents in IH. rewrite IH. reflexivity.
Qed.

(** One iteration of the upload loop: it returns whether the transfer
    succeeds or not, and its lifecycle events are those of its own task. *)
Lemma uploadOne_run client bucket currentPrefix now file st :
  let r := uploadOne client bucket currentPrefix now file st in
  result_of r = Returned tt
  /\ uploadEvents (log_of r) = taskTrace client bucket currentPrefix now file.
Proof.
  cbv zeta. unfold uploadOne, taskTrace.
  set (uploadId := (Web.name file ++ "-" ++ Js.toString now)%string).
  set (key := (currentPrefix ++ Web.name file)%string).
  set (transfer := S3.upload client bucket key file).
  set (added := setUploadingFiles (fun prev => prev ++ _)).
  set (fin := setUploadingFiles (fun prev => filter _ prev)).
  rewrite (bind_returned added _ st tt (state_of (added st)) [] eq_refl).
  set (st1 := state_of (added st)) in *. cbn [app]. cbv beta.
  set (progressed := map (fun p => UploadProgress uploadId (percentOf p))
                         (S3.events transfer)).
  destruct (progress_loop uploadId (S3.events transfer) 0 st1) as [Hlr Hll].
  pose proof (run_from_parts _ _ _ Hlr Hll) as Hloop. fold progressed in Hloop.
  set (st2 := state_of (for_of (S3.events transfer) 0
                          (fun _ p => onHttpUploadProgress uploadId p) st1)) in *.
  clearbody st2. clear Hlr Hll.
  set (begin := UploadBegin uploadId bucket key).
  match goal with
  | |- context [finally (try_catch ?body ?handler) fin] =>
      set (b := body); set (h := handler)
  end.
  assert (Hfin : forall s, fin s = (Returned tt, state_of (fin s), []))
    by (intros s; reflexivity).
  destruct (S3.settles transfer) as [err |] eqn:Hsettle.
  - assert (Hb : b st1 = (Threw err, st2,
                          begin :: progressed ++ [UploadSettled uploadId false])).
    { subst b. rewrite (bind_returned _ _ st1 tt st1 [begin] eq_refl).
      rewrite (bind_returned _ _ st1 tt _ _ Hloop).
      cbn. reflexivity. }
    pose proof (try_catch_threw b h st1 err _ _ Hb) as Hc.
    assert (Hh : h err st2 = (Returned tt, st2, [ShowAlert
               ("Failed to upload " ++ dq ++ Web.name file ++ dq ++ ".") "error"]))
      by reflexivity.
    rewrite Hh in Hc. cbn [result_of state_of log_of fst snd] in Hc.
    rewrite (finally_run _ fin st1 _ _ _ _ _ Hc ltac:(discriminate) (Hfin st2)).
    rewrite !result_of_triple, !log_of_triple. split; [reflexivity |].
    rewrite app_nil_r. rewrite !uploadEvents_app. rewrite app_nil_r.
    change (begin :: progressed ++ [UploadSettled uploadId false])
      with ([begin] ++ progressed ++ [UploadSettled uploadId false]).
    rewrite !uploadEvents_app. subst progressed.
    rewrite uploadEvents_progress. reflexivity.
  - set (refreshed := fetchObjects (Some bucket) currentPrefix st2).
    pose proof (fetchObjects_refresh (Some bucket) currentPrefix st2) as Hr.
    cbv zeta in Hr. destruct Hr as (Hret & _).
    pose proof (fetchObjects_no_upload_events (Some bucket) currentPrefix st2) as Hnu.
    fold refreshed in Hret, Hnu.
    assert (Hb : b st1 =
                 (Returned tt, state_of refreshed,
                  begin :: progressed
                    ++ UploadSettled uploadId true
                    :: ShowAlert ("File " ++ dq ++ Web.name file ++ dq
                                  ++ " uploaded successfully.") "success"
                    :: log_of refreshed)).
    { subst b. rewrite (bind_returned _ _ st1 tt st1 [begin] eq_refl).
      rewrite (bind_returned _ _ st1 tt _ _ Hloop).
      cbv beta.
      rewrite (bind_returned _ _ st2 tt st2 [UploadSettled uploadId true] eq_refl).
      cbv beta.
      rewrite (bind_returned _ _ st2 tt st2
                 [ShowAlert ("File " ++ dq ++ Web.name file ++ dq
                             ++ " uploaded successfully.") "success"] eq_refl).
      cbv beta. fold refreshed.
      rewrite !result_of_triple, !state_of_triple, !log_of_triple.
      rewrite Hret. cbn [app]. reflexivity. }
    pose proof (try_catch_returned b h st1 tt _ _ Hb) as Hc.
    rewrite (finally_run _ fin st1 _ _ _ _ _ Hc ltac:(discriminate)
               (Hfin (state_of refreshed))).
    rewrite !result_of_triple, !log_of_triple. split; [reflexivity |].
    rewrite app_nil_r.
    change (begin :: progressed ++ ?x) with ([begin] ++ progressed ++ x).
    rewrite !uploadEvents_app. subst progressed.
    rewrite uploadEvents_progress.
    change (UploadSettled uploadId true :: ShowAlert ?m ?t :: log_of refreshed)
      with ([UploadSettled uploadId true; ShowAlert m t] ++ log_of refreshed).
    rewrite uploadEvents_app. rewrite Hnu. reflexivity.
Qed.

(** The upload loop over the selected files. *)
Lemma upload_loop client bucket currentPrefix now (files : list Web.File) :
  forall k st,
    let r := for_of files k
               (fun k file => uploadOne client bucket currentPrefix (now k) file) st in
    result_of r = Returned tt
    /\ uploadEvents (log_of r) = taskTraces client bucket currentPrefix now k files.
Proof.
  induction files as [| file rest IH]; intros k st; cbv zeta;
    cbn [for_of taskTraces].
  - split; reflexivity.
  - destruct (uploadOne_run client bucket currentPrefix (now k) file st) as [Hr Hl].
    pose proof (run_from_parts _ _ _ Hr eq_refl) as Hrun.
    rewrite (bind_returned _ _ st tt _ _ Hrun). cbv beta.
    rewrite result_of_triple, log_of_triple.
    destruct (IH (S k) (state_of (uploadOne client bucket currentPrefix (now k) file st)))
      as [Hr2 Hl2].
    split; [exact Hr2 |].
    rewrite uploadEvents_app, Hl, Hl2. reflexivity.
Qed.

(** Only lifecycle events move the in-flight set. *)
Lemma flight_uploadEvents (log : list Event) :
  forall acc, fold_left flightStep log acc = fold_left flightStep (uploadEvents log) acc.
Proof.
  induction log as [| ev log IH]; intros acc; [reflexivity |].
  destruct ev; cbn; apply IH.
Qed.

Lemma flight_progress uploadId (events : list S3.Progress) acc :
  fold_left flightStep
    (map (fun p => UploadProgress uploadId (percentOf p)) events) acc = acc.
Proof. induction events as [| p events IH]; cbn; [reflexivity | exact IH]. Qed.

(** A task begins and settles before the next event: with nothing in flight
    before it, nothing is in flight after it, and one transfer was. *)
Lemma flight_taskTrace client bucket currentPrefix now file (n : nat) :
  fold_left flightStep (taskTrace client bucket currentPrefix now file) ([], n)
  = ([], Nat.max n 1).
Proof.
  unfold taskTrace. cbn [fold_left flightStep fst snd app length].
  rewrite fold_left_app, flight_progress.
  cbn. rewrite String.eqb_refl. reflexivity.
Qed.

Lemma flight_taskTraces client bucket currentPrefix now (files : list Web.File) :
  forall k n,
    fold_left flightStep (taskTraces client bucket currentPrefix now k files) ([], n)
    = ([], match files with [] => n | _ => Nat.max n 1 end).
Proof.
  induction files as [| file rest IH]; intros k n; cbn [taskTraces].
  - reflexivity.
  - rewrite fold_left_app, flight_taskTrace, IH.
    destruct rest; [reflexivity |]. f_equal. lia.
Qed.

(** C2, as stated, fails: of two selected files the second starts only
    after the first has settled, so the two transfers are never in flight
    together. *)
Lemma second_upload_waits_for_first :
  let files := [{| Web.name := "A.bin"; Web.size := 10485760 |};
                {| Web.name := "B.txt"; Web.size := 1024 |}] in
  let r := handleFileUpload (fun k => (1700000000000 + N.of_nat k)%N) files
             (browsing storeUploads (Some "b") "docs/" [] [] "") in
  uploadEvents (log_of r)
  = [UploadBegin "A.bin-1700000000000" "b" "docs/A.bin";
     UploadProgress "A.bin-1700000000000" 50;
     UploadSettled "A.bin-1700000000000" false;
     UploadBegin "B.txt-1700000000001" "b" "docs/B.txt";
     UploadProgress "B.txt-1700000000001" 100;
     UploadSettled "B.txt-1700000000001" true]
  /\ length files = 2
  /\ peakInFlight (log_of r) = 1.
Proof.
  cbv zeta. split; [vm_compute; reflexivity |]. split; reflexivity.
Qed.

(** C2, amended.  The files of one selection are transferred one after the
    other, in list order: a transfer begins only once the previous one has
    settled, so at most one of them is in flight at any time.  Every file's
    transfer is begun and settles whatever the outcome of the others, and
    the progress values of a task are the percentages of its own transfer's
    events. *)
Theorem uploads_run_one_at_a_time
    (now : nat -> N) (files : list Web.File) (st : AppState)
    (client : S3.Client) (bucket : string) :
  s3Client st = Some client ->
  selectedBucket st = Some bucket ->
  Js.truthy bucket = true ->
  let r := handleFileUpload now files st in
  result_of r = Returned tt
  /\ uploadEvents (log_of r) = taskTraces client bucket (prefix st) now 0 files
  /\ peakInFlight (log_of r) <= 1.
Proof.
  intros Hc Hb Htr. cbv zeta.
  assert (H : result_of (handleFileUpload now files st) = Returned tt
              /\ uploadEvents (log_of (handleFileUpload now files st))
                 = taskTraces client bucket (prefix st) now 0 files).
  { unfold handleFileUpload. rewrite Hc, Hb, Htr. cbn [negb orb].
    destruct files as [| file rest]; [split; reflexivity |].
    cbn [length Nat.eqb]. apply upload_loop. }
  destruct H as [Hr Hl]. split; [exact Hr |]. split; [exact Hl |].
  unfold peakInFlight. rewrite flight_uploadEvents, Hl, flight_taskTraces.
  destruct files; cbn; lia.
Qed.

Lemma uploads_run_one_at_a_time_witness :
  let files := [{| Web.name := "A.bin"; Web.size := 10485760 |};
                {| Web.name := "B.txt"; Web.size := 1024 |}] in
  let r := handleFileUpload (fun k => (1700000000000 + N.of_nat k)%N) files
             (browsing storeUploads (Some "b") "docs/" [] [] "") in
  result_of r = Returned tt /\ peakInFlight (log_of r) <= 1.
Proof.
  cbv zeta.
  destruct (uploads_run_one_at_a_time
              (fun k => (1700000000000 + N.of_nat k)%N)
              [{| Web.name := "A.bin"; Web.size := 10485760 |};
               {| Web.name := "B.txt"; Web.size := 1024 |}]
              (browsing storeUploads (Some "b") "docs/" [] [] "")
              storeUploads "b" eq_refl eq_refl eq_refl) as (H1 & _ & H3).
  split; [exact H1 | exact H3].
Defined.

(* ------------------------------------------------------------------ *)
(** * Further properties of the handlers *)

(** ** Resolver: edge behaviour *)

Lemma fold_Set_add_fresh (l seen : list string) :
  NoDup (seen ++ l) -> fold_left Js.Set_add l seen = seen ++ l.
Proof.
  revert seen. induction l as [| x l IH]; intros seen Hnd; cbn.
  - now rewrite app_nil_r.
  - assert (Hx : existsb (String.eqb x) seen = false).
    { destruct (existsb (String.eqb x) seen) eqn:E; [| reflexivity].
      apply existsb_exists in E. destruct E as (y & Hy & Exy).
      apply String.eqb_eq in Exy. subst y.
      apply NoDup_remove_2 in Hnd. exfalso. apply Hnd.
      apply in_or_app. left. exact Hy. }
    unfold Js.Set_add at 2. rewrite Hx.
    rewrite IH; rewrite <- app_assoc; [reflexivity | exact Hnd].
Qed.

(** An array without duplicates goes through [[...new Set(l)]] unchanged. *)
Lemma spread_new_Set_fixes_NoDup (l : list string) :
  NoDup l -> Js.spread_new_Set l = l.
Proof. intros H. unfold Js.spread_new_Set. now rewrite fold_Set_add_fresh. Qed.

Lemma resolveSelection_files fuel client bucket (items : list string) :
  (forall k, In k items -> Js.endsWith k "/" = false) ->
  forall acc st,
    resolveSelection fuel client bucket items acc st = (Returned (acc ++ items), st, []).
Proof.
  induction items as [| key rest IH]; intros Hfiles acc st; cbn [resolveSelection].
  - cbn. now rewrite app_nil_r.
  - rewrite (Hfiles key (or_introl eq_refl)).
    rewrite IH by (intros k Hk; apply Hfiles; right; exact Hk).
    rewrite <- app_assoc. reflexivity.
Qed.

(** X1.  A selection of file keys only is resolved without any request to
    the store, whatever the bound on the paging loop; when it holds no key
    twice, the one delete request carries the keys exactly as selected, and
    is followed by its notification and the refresh of the listing. *)
Theorem files_only_selection_deleted_as_selected
    (fuel : nat) (st : AppState) (client : S3.Client) (bucket : string) :
  s3Client st = Some client ->
  selectedBucket st = Some bucket ->
  Js.truthy bucket = true ->
  selectedItems st <> [] ->
  (forall k, In k (selectedItems st) -> Js.endsWith k "/" = false) ->
  NoDup (selectedItems st) ->
  let r := handleDeleteSelected fuel st in
  log_of (resolveKeys fuel client bucket (selectedItems st) st) = []
  /\ result_of r = Returned tt
  /\ log_of r =
       Sent (S3.DeleteObjectsCommand bucket (selectedItems st))
       :: deleteNote (S3.deleteObjects client bucket (selectedItems st)) (selectedItems st)
       :: log_of (fetchObjects (Some bucket) (prefix st)
                    (state_of (setIsDeleteModalOpen false st)))
  /\ selectedItems (state_of r) = [].
Proof.
  intros Hc Hb Htr Hne Hfiles Hnd. cbv zeta.
  assert (Hrun : resolveKeys fuel client bucket (selectedItems st) st
                 = (Returned (selectedItems st), st, [])).
  { rewrite resolveKeys_run.
    rewrite (resolveSelection_files fuel client bucket _ Hfiles [] st).
    cbn [result_of log_of fst snd app].
    rewrite (spread_new_Set_fixes_NoDup _ Hnd). reflexivity. }
  split; [rewrite Hrun; reflexivity |].
  rewrite (handleDeleteSelected_run fuel st client bucket _ _ Hc Hb Htr Hne Hrun).
  destruct (selectedItems st) as [| k ks] eqn:Hsel; [contradiction |].
  cbv zeta. rewrite result_of_triple, state_of_triple, log_of_triple. cbn [app].
  split; [reflexivity |]. split; [reflexivity |].
  assert (Hc' : s3Client (state_of (setIsDeleteModalOpen false st)) = Some client)
    by exact Hc.
  destruct (fetchObjects_resets client bucket (prefix st) _ Hc' Htr) as (Hs & _).
  exact Hs.
Qed.

Lemma files_only_selection_deleted_as_selected_witness :
  let st := browsing storeA2 (Some "b") "" [] ["y"; "x"] "" in
  log_of (handleDeleteSelected 0 st)
  = [Sent (S3.DeleteObjectsCommand "b" ["y"; "x"]);
     ShowAlert "2 item(s) deleted successfully." "success";
     Sent (S3.ListObjectsV2Command "b" "" (Some "/") None)].
Proof.
  cbv zeta.
  destruct (files_only_selection_deleted_as_selected 0
              (browsing storeA2 (Some "b") "" [] ["y"; "x"] "")
              storeA2 "b" eq_refl eq_refl eq_refl) as (_ & _ & Hlog & _).
  - discriminate.
  - intros k [<- | [<- | []]]; reflexivity.
  - repeat constructor; cbn; intuition discriminate.
  - exact Hlog.
Defined.

(** X2.  When a page request of the flat listing is rejected, after
    however many pages that were answered, the rejection leaves the delete
    handler uncaught: no delete request is sent, no notification is raised
    and the state is untouched, the confirmation dialog included. *)
Theorem rejected_page_aborts_delete
    (fuel : nat) (st : AppState) (client : S3.Client) (bucket : string)
    (error : Js.Error) :
  s3Client st = Some client ->
  selectedBucket st = Some bucket ->
  Js.truthy bucket = true ->
  result_of (resolveKeys fuel client bucket (selectedItems st) st) = Threw error ->
  let r := handleDeleteSelected fuel st in
  result_of r = Threw error
  /\ state_of r = st
  /\ deleteRequests (log_of r) = []
  /\ alerts (log_of r) = [].
Proof.
  intros Hc Hb Htr Hres. cbv zeta.
  pose proof (resolveKeys_run fuel client bucket (selectedItems st) st) as Hrun.
  cbv zeta in Hrun.
  pose proof (resolveSelection_quiet fuel client bucket (selectedItems st) [] st) as Hq.
  cbv zeta in Hq. destruct Hq as [_ Hquiet].
  destruct (quiet_no_delete _ Hquiet) as [Hd Ha].
  rewrite Hrun in Hres. cbn [result_of fst] in Hres. rewrite Hres in Hrun.
  unfold handleDeleteSelected. rewrite Hc, Hb, Htr.
  destruct (selectedItems st) as [| k ks] eqn:Hsel.
  - cbn in Hres. discriminate Hres.
  - cbn [length Nat.eqb negb orb].
    rewrite (bind_threw _ _ _ _ _ _ Hrun).
    repeat split; assumption.
Qed.

Lemma rejected_page_aborts_delete_witness :
  let st := browsing storeFlaky (Some "b") "" [] ["a/"] "" in
  let r := handleDeleteSelected 5 st in
  result_of r = Threw {| Js.name := "TimeoutError" |}
  /\ isDeleteModalOpen (state_of r) = true
  /\ deleteRequests (log_of r) = [].
Proof.
  cbv zeta.
  destruct (rejected_page_aborts_delete 5
              (browsing storeFlaky (Some "b") "" [] ["a/"] "")
              storeFlaky "b" {| Js.name := "TimeoutError" |}
              eq_refl eq_refl eq_refl eq_refl) as (H1 & H2 & H3 & _).
  split; [exact H1 |]. split; [rewrite H2; reflexivity | exact H3].
Defined.

(** X3.  The paging loop has no bound of its own: against a store that
    answers every page with a non-empty continuation token it has not
    returned after any number of requests, and sends one more request for
    each one allowed. *)
Theorem endless_tokens_never_return
    (client : S3.Client) (bucket p : string) :
  (forall token, exists response,
      S3.listObjectsV2 client bucket p None token = inr response
      /\ Js.truthy_opt (S3.NextContinuationToken response) = true) ->
  forall fuel keys token st,
    let r := getAllKeysLoop fuel client bucket p keys token st in
    result_of r = OutOfFuel /\ length (log_of r) = fuel.
Proof.
  intros Hmore fuel. induction fuel as [| fuel IH]; intros keys token st; cbv zeta.
  - split; reflexivity.
  - rewrite getAllKeysLoop_step.
    destruct (Hmore token) as (response & Hans & Htok).
    rewrite Hans. cbv zeta. rewrite Htok.
    rewrite result_of_triple, log_of_triple.
    destruct (IH (keys ++ map S3.Key (pageOf response))
                 (S3.NextContinuationToken response) st) as [Hr Hl].
    split; [exact Hr | cbn; now rewrite Hl].
Qed.

Lemma endless_tokens_never_return_witness :
  result_of (getAllKeysLoop 100 storeEndless "b" "a/" [] None initialState) = OutOfFuel.
Proof.
  refine (proj1 (endless_tokens_never_return storeEndless "b" "a/" _ 100 [] None
                   initialState)).
  intros token. exists (page [obj "a/1"] (Some "more")). split; reflexivity.
Defined.

(** X4.  The paging loop makes one request a page, in continuation order:
    when the store serves [n] pages it sends exactly [n] flat listing
    requests, the first without a token, and leaves the state alone. *)
Theorem one_request_per_page
    (client : S3.Client) (bucket p : string) (token : option string)
    (pages : list (list S3.Object)) :
  Serves client bucket p token pages ->
  forall fuel keys st,
    length pages <= fuel ->
    let r := getAllKeysLoop fuel client bucket p keys token st in
    length (log_of r) = length pages
    /\ hd_error (log_of r) = Some (Sent (S3.ListObjectsV2Command bucket p None token))
    /\ forallb isFlatListing (log_of r) = true
    /\ state_of r = st.
Proof.
  induction 1 as [token response Hans Hlast
                 | token response rest Hans Hmore Hrest IH];
    intros fuel keys st Hfuel; cbv zeta.
  - destruct fuel as [| fuel]; [cbn in Hfuel; lia |].
    rewrite getAllKeysLoop_step, Hans. cbv zeta. rewrite Hlast.
    repeat split.
  - destruct fuel as [| fuel]; [cbn in Hfuel; lia |].
    rewrite getAllKeysLoop_step, Hans. cbv zeta. rewrite Hmore.
    rewrite log_of_triple, state_of_triple.
    destruct (IH fuel (keys ++ map S3.Key (pageOf response)) st) as (Hl & _ & Hq & Hs);
      [cbn in Hfuel; lia |].
    cbn [length hd_error forallb isFlatListing andb].
    rewrite Hl. repeat split; assumption.
Qed.

Lemma one_request_per_page_witness :
  log_of (getAllKeysLoop 2 storeA3 "b" "a/" [] None initialState)
  = [Sent (S3.ListObjectsV2Command "b" "a/" None None);
     Sent (S3.ListObjectsV2Command "b" "a/" None (Some "t3"))]
  /\ length (log_of (getAllKeysLoop 2 storeA3 "b" "a/" [] None initialState)) = 2.
Proof.
  split; [reflexivity |].
  exact (proj1 (one_request_per_page storeA3 "b" "a/" None _ storeA3_serves
                  2 [] initialState (le_n 2))).
Defined.

(** ** Upload tracker: what an invocation leaves behind *)














Lemma requestsSent_app (l1 l2 : list Event) :
  requestsSent (l1 ++ l2) = requestsSent l1 ++ requestsSent l2.
Proof. apply flat_map_app. Qed.


(** A refresh of a connected session sends its one listing request. *)
Lemma fetchObjects_request client bucket currentPrefix st :
  s3Client st = Some client ->
  Js.truthy bucket = true ->
  requestsSent (log_of (fetchObjects (Some bucket) currentPrefix st))
  = [S3.ListObjectsV2Command bucket currentPrefix (Some "/") None].
Proof.
  intros Hc Htr. unfold fetchObjects. rewrite Hc, Htr. cbn.
  destruct (S3.listObjectsV2 client bucket currentPrefix (Some "/") None);
    reflexivity.
Qed.





(** ** Selection *)

Lemma arrayIncludes_In (l : list string) (key : string) :
  arrayIncludes l key = true <-> In key l.
Proof.
  unfold arrayIncludes. rewrite existsb_exists. split.
  - intros (y & Hy & E). apply String.eqb_eq in E. now subst y.
  - intros H. exists key. split; [exact H | apply String.eqb_refl].
Qed.

Lemma filter_neq_In (l : list string) (key k : string) :
  In k (filter (fun x => negb (x =? key)%string) l) <-> In k l /\ k <> key.
Proof.
  rewrite filter_In, negb_true_iff, String.eqb_neq. tauto.
Qed.

Lemma filter_neq_absent (l : list string) (key : string) :
  ~ In key l -> filter (fun x => negb (x =? key)%string) l = l.
Proof.
  induction l as [| x l IH]; intros Hn; cbn; [reflexivity |].
  destruct (String.eqb_spec x key) as [-> | Hne]; cbn.
  - exfalso. apply Hn. left. reflexivity.
  - f_equal. apply IH. intros H. apply Hn. right. exact H.
Qed.

(** X7.  A row checkbox adds the key of its row to the selection when it
    is not selected and removes it when it is: afterwards the key is
    selected exactly when it was not before, every other key is as before,
    and a selection without duplicates stays so.  Ticking and unticking a
    row that was not selected gives back the selection as it was. *)
Theorem toggleItem_flips_membership (key : string) (st : AppState) :
  let st1 := state_of (toggleItem key st) in
  let st2 := state_of (toggleItem key st1) in
  (In key (selectedItems st1) <-> ~ In key (selectedItems st))
  /\ (forall k, k <> key -> (In k (selectedItems st1) <-> In k (selectedItems st)))
  /\ (NoDup (selectedItems st) -> NoDup (selectedItems st1))
  /\ (~ In key (selectedItems st) -> selectedItems st2 = selectedItems st)
  /\ objects st1 = objects st.
Proof.
  cbv zeta. unfold toggleItem.
  destruct (arrayIncludes (selectedItems st) key) eqn:E.
  - apply arrayIncludes_In in E.
    cbn [state_of setSelectedItems modify fst snd selectedItems objects].
    split; [| split; [| split; [| split]]].
    + rewrite filter_neq_In. tauto.
    + intros k Hk. rewrite filter_neq_In. tauto.
    + intros Hnd. apply NoDup_filter. exact Hnd.
    + intros Hn. contradiction.
    + reflexivity.
  - assert (Hn : ~ In key (selectedItems st)).
    { intros H. apply arrayIncludes_In in H. congruence. }
    cbn [state_of setSelectedItems modify fst snd selectedItems objects].
    assert (E2 : arrayIncludes (selectedItems st ++ [key]) key = true).
    { apply arrayIncludes_In, in_or_app. right. left. reflexivity. }
    rewrite E2.
    cbn [state_of setSelectedItems modify fst snd selectedItems objects].
    split; [| split; [| split; [| split]]].
    + rewrite in_app_iff. cbn. tauto.
    + intros k Hk. rewrite in_app_iff. cbn. split; [| tauto].
      intros [H | [H | []]]; [exact H | congruence].
    + intros Hnd. apply NoDup_app; [exact Hnd | repeat constructor; intros [] |].
      intros x Hx [<- | []]. contradiction.
    + intros _. rewrite filter_app, (filter_neq_absent _ _ Hn). cbn.
      rewrite String.eqb_refl. cbn. apply app_nil_r.
    + reflexivity.
Qed.

Section Selection.

Variable toLowerCase : string -> string.

Lemma filteredObjects_incl (st : AppState) :
  incl (filteredObjects toLowerCase st) (objects st).
Proof.
  unfold filteredObjects. destruct (negb (Js.truthy (searchQuery st))).
  - apply incl_refl.
  - intros e He. apply filter_In in He. tauto.
Qed.

(** X8.  The header checkbox compares the number of selected keys with
    the number of displayed rows.  When the selection lies within the
    displayed rows, and neither holds a key twice, that comparison is
    exact: the numbers agree exactly when every displayed row is selected;
    the box is then shown ticked if there is a row at all, and a click
    clears the selection; otherwise a click selects exactly the displayed
    rows. *)
Theorem toggleAll_all_or_nothing (st : AppState) :
  let visible := map Key (filteredObjects toLowerCase st) in
  NoDup (selectedItems st) ->
  NoDup visible ->
  incl (selectedItems st) visible ->
  ((length (selectedItems st) =? length (filteredObjects toLowerCase st))%nat = true
   <-> incl visible (selectedItems st))
  /\ (headerChecked toLowerCase st = true
      <-> filteredObjects toLowerCase st <> [] /\ incl visible (selectedItems st))
  /\ (incl visible (selectedItems st) ->
      selectedItems (state_of (toggleAll toLowerCase st)) = [])
  /\ (~ incl visible (selectedItems st) ->
      selectedItems (state_of (toggleAll toLowerCase st)) = visible).
Proof.
  intros visible Hsel Hvis Hincl.
  assert (Hlen : length visible = length (filteredObjects toLowerCase st))
    by apply length_map.
  assert (Hiff : (length (selectedItems st)
                  =? length (filteredObjects toLowerCase st))%nat = true
                 <-> incl visible (selectedItems st)).
  { rewrite Nat.eqb_eq, <- Hlen. split.
    - intros E. apply NoDup_length_incl; [exact Hsel | lia | exact Hincl].
    - intros Hback.
      pose proof (NoDup_incl_length Hsel Hincl).
      pose proof (NoDup_incl_length Hvis Hback). lia. }
  split; [exact Hiff |]. split.
  { unfold headerChecked. rewrite andb_true_iff, Hiff, Nat.ltb_lt.
    destruct (filteredObjects toLowerCase st); cbn; split.
    - intros [H _]. lia.
    - intros [H _]. now contradiction H.
    - intros [_ H]. split; [discriminate | exact H].
    - intros [_ H]. split; [lia | exact H]. }
  unfold toggleAll. split.
  - intros Hall. apply Hiff in Hall. rewrite Hall. reflexivity.
  - intros Hnot.
    destruct (length (selectedItems st)
              =? length (filteredObjects toLowerCase st))%nat eqn:E.
    + exfalso. apply Hnot, Hiff. reflexivity.
    + reflexivity.
Qed.

Lemma bind_out_of_fuel {A B} (m : M A) (k : A -> M B) st st1 l1 :
  m st = (OutOfFuel, st1, l1) -> bind m k st = (OutOfFuel, st1, l1).
Proof. intros H. unfold bind. rewrite H. reflexivity. Qed.

End Selection.

Lemma toggleAll_all_or_nothing_witness :
  let st := browsing storeA2 (Some "b") ""
              [folderEntry {| S3.Prefix := "a/" |}; fileEntry (obj "x")] ["x"] "" in
  selectedItems (state_of (toggleAll asciiLower st)) = ["a/"; "x"].
Proof.
  cbv zeta.
  refine (proj2 (proj2 (proj2 (toggleAll_all_or_nothing asciiLower
            (browsing storeA2 (Some "b") ""
               [folderEntry {| S3.Prefix := "a/" |}; fileEntry (obj "x")] ["x"] "")
            _ _ _))) _).
  - repeat constructor; cbn; intuition.
  - repeat constructor; cbn; intuition discriminate.
  - intros k [<- | []]. right. left. reflexivity.
  - intros H. specialize (H "a/" (or_introl eq_refl)). destruct H as [H | []].
    discriminate H.
Defined.

Lemma toggleItem_flips_membership_witness :
  let st := browsing storeA2 (Some "b") "" [fileEntry (obj "x"); fileEntry (obj "y")]
                     ["x"] "" in
  selectedItems (state_of (toggleItem "y" st)) = ["x"; "y"]
  /\ selectedItems (state_of (toggleItem "y" (state_of (toggleItem "y" st)))) = ["x"].
Proof.
  cbv zeta. split; [reflexivity |].
  refine (proj1 (proj2 (proj2 (proj2 (toggleItem_flips_membership "y"
            (browsing storeA2 (Some "b") "" [fileEntry (obj "x"); fileEntry (obj "y")]
                      ["x"] ""))))) _).
  cbn. intuition discriminate.
Defined.

(** ** Listings in flight *)

Lemma selectionListed_nil st : selectedItems st = [] -> selectionListed st.
Proof. unfold selectionListed. intros ->. intros x []. Qed.

(** Cut at its [await] and answered at once, [fetchObjects] is the handler
    as a whole. *)
Lemma fetchObjects_split client bucket currentPrefix st :
  s3Client st = Some client ->
  Js.truthy bucket = true ->
  fetchObjects (Some bucket) currentPrefix st
  = (fetchObjectsSend (Some client) (Some bucket) currentPrefix ;;
     fetchObjectsResume bucket currentPrefix
       (S3.listObjectsV2 client bucket currentPrefix (Some "/") None)) st.
Proof.
  intros Hc Hb. unfold fetchObjects, fetchObjectsSend, fetchObjectsResume.
  rewrite Hc, Hb. cbn.
  destruct (S3.listObjectsV2 client bucket currentPrefix (Some "/") None); reflexivity.
Qed.

(** What the part before the [await] does: nothing at all, or the resets
    and one request. *)
Lemma fetchObjectsSend_cases client bucket currentPrefix st :
  let r := fetchObjectsSend client bucket currentPrefix st in
  (state_of r = st /\ pendingOf (log_of r) = [])
  \/ (exists b, bucket = Some b
                /\ pendingOf (log_of r)
                   = [{| pendingBucket := b; pendingPrefix := currentPrefix |}]
                /\ selectedItems (state_of r) = []
                /\ searchQuery (state_of r) = ""
                /\ isLoadingObjects (state_of r) = true
                /\ objects (state_of r) = objects st
                /\ selectedBucket (state_of r) = selectedBucket st
                /\ prefix (state_of r) = prefix st
                /\ s3Client (state_of r) = s3Client st).
Proof.
  cbv zeta. unfold fetchObjectsSend.
  destruct client as [c |]; [| left; split; reflexivity].
  destruct bucket as [b |]; [| left; split; reflexivity].
  destruct (Js.truthy b); cbn [negb]; [| left; split; reflexivity].
  right. exists b. cbn. repeat split.
Qed.

(** What the part after the [await] does: the selection, the filter, the
    context and the connection stay as the answer finds them. *)
Lemma fetchObjectsResume_run bucket currentPrefix answer st :
  let r := fetchObjectsResume bucket currentPrefix answer st in
  result_of r = Returned tt
  /\ objects (state_of r)
     = match answer with
       | inr response => listingEntries currentPrefix response
       | inl _ => objects st
       end
  /\ selectedItems (state_of r) = selectedItems st
  /\ searchQuery (state_of r) = searchQuery st
  /\ selectedBucket (state_of r) = selectedBucket st
  /\ prefix (state_of r) = prefix st
  /\ s3Client (state_of r) = s3Client st
  /\ isLoadingObjects (state_of r) = false
  /\ pendingOf (log_of r) = [].
Proof.
  cbv zeta. unfold fetchObjectsResume. destruct answer; cbn; repeat split.
Qed.

Lemma pendingOf_app (l1 l2 : list Event) :
  pendingOf (l1 ++ l2) = pendingOf l1 ++ pendingOf l2.
Proof. unfold pendingOf. apply flat_map_app. Qed.

(** A connect attempt leaves the listing, the selection and the loading
    flag alone and requests no object listing of its own. *)
Lemma handleConnect_view S3Client now details saveConfig st :
  let r := handleConnect S3Client now details saveConfig st in
  selectedItems (state_of r) = selectedItems st
  /\ objects (state_of r) = objects st
  /\ isLoadingObjects (state_of r) = isLoadingObjects st
  /\ pendingOf (log_of r) = [].
Proof.
  cbv zeta. unfold handleConnect. cbn.
  destruct (S3.listBuckets (S3Client details)); cbn; [repeat split |].
  destruct saveConfig as [cfg |]; cbn; [| repeat split].
  destruct (findIndex _ _); cbn; repeat split.
Qed.

Lemma calm_after {A} (s : Session) (r : Outcome A * AppState * list Event) :
  calm s -> atMostOne (followedBy s r) -> keepsOrResets (view s) r -> calm (followedBy s r).
Proof.
  intros (Hone & Hlisted & Hbusy) Hone' [(Hsel & Hobj & Hload & Hpending) | (Hlen & Hsel & Hload)].
  - split; [exact Hone' |]. unfold followedBy in *. cbn [view inFlight] in *.
    rewrite Hpending, app_nil_r in *. split.
    + unfold selectionListed. rewrite Hsel, Hobj. exact Hlisted.
    + intros Hne. rewrite Hsel, Hload. apply Hbusy, Hne.
  - split; [exact Hone' |]. unfold followedBy. cbn [view inFlight]. split.
    + apply selectionListed_nil, Hsel.
    + intros _. split; assumption.
Qed.

Lemma fetchObjectsSend_keepsOrResets client bucket currentPrefix st :
  keepsOrResets st (fetchObjectsSend client bucket currentPrefix st).
Proof.
  destruct (fetchObjectsSend_cases client bucket currentPrefix st)
    as [[Hst Hp] | (b & _ & Hp & Hsel & _ & Hload & _)].
  - left. rewrite Hst. repeat split. exact Hp.
  - right. rewrite Hp. repeat split; assumption.
Qed.

Lemma onClick_keeps a st :
  exists st1,
    onClick a st = (Returned tt, st1, [])
    /\ selectedItems st1 = selectedItems st
    /\ objects st1 = objects st
    /\ isLoadingObjects st1 = isLoadingObjects st.
Proof.
  destruct a as [b | [| [| i]] | e]; cbn.
  - eexists; repeat split.
  - eexists; repeat split.
  - eexists; repeat split.
  - eexists; repeat split.
  - destruct (isFolder e); eexists; repeat split.
Qed.

Lemma keepsOrResets_from {A} (st st1 : AppState) (r : Outcome A * AppState * list Event) :
  selectedItems st1 = selectedItems st ->
  objects st1 = objects st ->
  isLoadingObjects st1 = isLoadingObjects st ->
  keepsOrResets st1 r -> keepsOrResets st r.
Proof.
  intros Hsel Hobj Hload [(H1 & H2 & H3 & H4) | H]; [left | right; exact H].
  repeat split; congruence.
Qed.

Lemma navigateSend_keepsOrResets a st : keepsOrResets st (navigateSend a st).
Proof.
  destruct (onClick_keeps a st) as (st1 & Hrun & Hsel & Hobj & Hload).
  unfold navigateSend. rewrite (bind_returned _ _ _ _ _ _ Hrun). cbv beta.
  cbn [app]. rewrite <- run_eta.
  apply (keepsOrResets_from st st1); try assumption.
  destruct (contextChanged st st1).
  - apply fetchObjectsSend_keepsOrResets.
  - left. repeat split.
Qed.

Lemma connectSend_keepsOrResets S3Client now details saveConfig st :
  keepsOrResets st (connectSend S3Client now details saveConfig st).
Proof.
  pose proof (handleConnect_view S3Client now details saveConfig st) as Hview.
  cbv zeta in Hview. destruct Hview as (Hsel & Hobj & Hload & Hquiet).
  unfold connectSend, bind.
  destruct (handleConnect S3Client now details saveConfig st) as [[o st1] l1] eqn:Hrun.
  cbn [state_of log_of fst snd] in *.
  destruct o as [[] | e |]; [| left; repeat split; assumption
                              | left; repeat split; assumption].
  assert (Hquiet' : forall (r : Outcome unit * AppState * list Event),
             keepsOrResets st1 r ->
             keepsOrResets st (let '(o2, st2, l2) := r in (o2, st2, l1 ++ l2))).
  { intros [[o2 st2] l2] Hr. apply (keepsOrResets_from st st1); try assumption.
    unfold keepsOrResets in *. cbn [state_of log_of fst snd] in *.
    rewrite pendingOf_app, Hquiet. exact Hr. }
  destruct (s3Client st); [apply Hquiet'; left; repeat split |].
  destruct (s3Client st1) as [c |]; [| apply Hquiet'; left; repeat split].
  apply Hquiet'. unfold fetchBucketsSend.
  pose proof (fetchObjectsSend_keepsOrResets (Some c) (selectedBucket st1) (prefix st1)
                (state_of (setIsLoadingBuckets true st1))) as Hsend.
  unfold bind. cbn [setIsLoadingBuckets modify emit].
  cbn [state_of fst snd] in Hsend.
  destruct (fetchObjectsSend (Some c) (selectedBucket st1) (prefix st1) _)
    as [[o3 st3] l3].
  unfold keepsOrResets in *. cbn [state_of log_of fst snd app] in *.
  exact Hsend.
Qed.

Section InFlight.

Variable toLowerCase : string -> string.

Lemma tableShown_loaded st : tableShown st = true -> isLoadingObjects st = false.
Proof.
  unfold tableShown. destruct (s3Client st); [| discriminate].
  intros H. apply andb_true_iff in H. destruct H as [_ H].
  apply negb_true_iff in H. exact H.
Qed.

Lemma calm_shown s : calm s -> tableShown (view s) = true -> inFlight s = [].
Proof.
  intros (_ & _ & Hbusy) Hshown. apply tableShown_loaded in Hshown.
  destruct (inFlight s) as [| x l]; [reflexivity |].
  destruct Hbusy as [_ Hload]; [discriminate | congruence].
Qed.

(** A move that ends with at most one listing in flight keeps a calm
    session calm. *)
Lemma move_calm s s' :
  Move toLowerCase s s' -> atMostOne s' -> calm s -> calm s'.
Proof.
  intros Hmove Hone' Hcalm.
  destruct Hmove as [a s | o s Hshown Hvis | s Hshown | q s | s
                    | S3Client now details saveConfig s | client bucket p s
                    | f s | open s | answer s | before request rest answer s Hin].
  - apply calm_after; [exact Hcalm | exact Hone' | apply navigateSend_keepsOrResets].
  - pose proof (calm_shown s Hcalm Hshown) as Hnone.
    destruct Hcalm as (Hone & Hlisted & _).
    split; [exact Hone' |]. unfold followedBy, toggleItem. rewrite Hnone.
    destruct (arrayIncludes (selectedItems (view s)) (Key o));
      cbn [view inFlight state_of log_of setSelectedItems modify fst snd app pendingOf flat_map];
      (split; [| intros Hne; now contradiction Hne]);
      unfold selectionListed in *; cbn [selectedItems objects].
    + intros k Hk. apply filter_In in Hk. apply Hlisted. tauto.
    + intros k Hk. apply in_app_or in Hk. destruct Hk as [Hk | [<- | []]].
      * apply Hlisted. exact Hk.
      * apply in_map. apply (filteredObjects_incl toLowerCase (view s)). exact Hvis.
  - pose proof (calm_shown s Hcalm Hshown) as Hnone.
    split; [exact Hone' |]. unfold followedBy, toggleAll. rewrite Hnone.
    destruct (length (selectedItems (view s))
              =? length (filteredObjects toLowerCase (view s)))%nat;
      cbn [view inFlight state_of log_of setSelectedItems modify fst snd app pendingOf flat_map];
      (split; [| intros Hne; now contradiction Hne]);
      unfold selectionListed; cbn [selectedItems objects].
    + intros k [].
    + apply incl_map, filteredObjects_incl.
  - apply calm_after; [exact Hcalm | exact Hone' | left; repeat split].
  - destruct Hcalm as (Hone & _ & Hbusy).
    split; [exact Hone' |]. unfold followedBy.
    cbn [view inFlight state_of log_of handleDisconnect fst snd].
    split; [apply selectionListed_nil; reflexivity |].
    intros Hne. split; [reflexivity |].
    assert (Hne0 : inFlight s <> []).
    { intros E. apply Hne. rewrite E. reflexivity. }
    destruct (Hbusy Hne0) as [_ Hload]. exact Hload.
  - apply calm_after; [exact Hcalm | exact Hone' | apply connectSend_keepsOrResets].
  - apply calm_after; [exact Hcalm | exact Hone' | apply fetchObjectsSend_keepsOrResets].
  - apply calm_after; [exact Hcalm | exact Hone' | left; repeat split].
  - apply calm_after; [exact Hcalm | exact Hone' | left; repeat split].
  - apply calm_after; [exact Hcalm | exact Hone' |]. left.
    unfold fetchBucketsResume. destruct answer as [e | [bs |]]; cbn; repeat split.
  - destruct Hcalm as (Hone & Hlisted & Hbusy).
    assert (Hne : inFlight s <> []) by (rewrite Hin; destruct before; discriminate).
    destruct (Hbusy Hne) as [Hsel _].
    assert (Hnone : before ++ rest = []).
    { unfold atMostOne in Hone. rewrite Hin, length_app in Hone. cbn in Hone.
      destruct before, rest; cbn in *; try lia. reflexivity. }
    pose proof (fetchObjectsResume_run (pendingBucket request) (pendingPrefix request)
                  answer (view s)) as Hrun.
    cbv zeta in Hrun. destruct Hrun as (_ & _ & Hsel' & _).
    split; [exact Hone' |]. cbn [view inFlight]. split.
    + apply selectionListed_nil. rewrite Hsel'. exact Hsel.
    + intros Hne'. rewrite Hnone in Hne'. now contradiction Hne'.
Qed.

End InFlight.

(** X9.  Listing answers arrive later, and [fetchObjects] applies an answer
    to the state it finds, without checking that it is still the listing
    asked for last.  Cut at its [await] and answered at once, the handler
    is the handler as a whole.  Over every run of moves - navigating,
    ticking rows or the header of the table shown, typing in the filter
    box, disconnecting, connecting, the refreshes and other updates of
    uploads and deletes, answers arriving - that starts with no listing in
    flight and never has more than one in flight, every selected key
    remains the key of an entry of the listing in memory.  With two
    listings in flight this fails: an answer overtaken by a later
    navigation replaces the listing under a selection made since. *)
Theorem selection_stays_within_listing (toLowerCase : string -> string) :
  (forall client bucket currentPrefix st,
      s3Client st = Some client ->
      Js.truthy bucket = true ->
      fetchObjects (Some bucket) currentPrefix st
      = (fetchObjectsSend (Some client) (Some bucket) currentPrefix ;;
         fetchObjectsResume bucket currentPrefix
           (S3.listObjectsV2 client bucket currentPrefix (Some "/") None)) st)
  /\ (forall s s',
         Reaches toLowerCase atMostOne s s' ->
         inFlight s = [] ->
         selectionListed (view s) ->
         selectionListed (view s'))
  /\ (exists s s',
         Reaches toLowerCase (fun _ => True) s s'
         /\ inFlight s = []
         /\ selectionListed (view s)
         /\ ~ selectionListed (view s')).
Proof.
  split; [intros client bucket currentPrefix st; apply fetchObjects_split |].
  split.
  - intros s s' Hrun Hnone Hlisted.
    assert (Hcalm : calm s).
    { split; [unfold atMostOne; rewrite Hnone; cbn; lia |].
      split; [exact Hlisted |]. intros Hne. now contradiction Hne. }
    clear Hnone Hlisted.
    induction Hrun as [s | s1 s2 s3 Hmove Hone _ IH].
    + destruct Hcalm as (_ & Hlisted & _). exact Hlisted.
    + apply IH. exact (move_calm toLowerCase s1 s2 Hmove Hone Hcalm).
  - set (a := folderEntry {| S3.Prefix := "a/" |}).
    set (c := folderEntry {| S3.Prefix := "c/" |}).
    set (root := {| S3.Contents := None;
                    S3.CommonPrefixes := Some [{| S3.Prefix := "a/" |};
                                               {| S3.Prefix := "c/" |}];
                    S3.NextContinuationToken := None |}).
    set (s0 := {| view := state_of (setIsDeleteModalOpen false
                                      (browsing storeA2 (Some "b") "" [a; c] [] ""));
                  inFlight := [] |}).
    exists s0. eexists. split; [| split; [reflexivity | split]].
    + eapply Reaches_move; [apply (Move_navigate toLowerCase (ClickEntry a)) | exact I |].
      eapply Reaches_move;
        [apply (Move_navigate toLowerCase (ClickBreadcrumb 1)) | exact I |].
      eapply Reaches_move;
        [apply (Move_answer toLowerCase
                  [{| pendingBucket := "b"; pendingPrefix := "a/" |}]
                  {| pendingBucket := "b"; pendingPrefix := "" |} []
                  (inr root));
         reflexivity
        | exact I |].
      eapply Reaches_move;
        [apply (Move_toggleItem toLowerCase c);
         [reflexivity | right; left; reflexivity]
        | exact I |].
      eapply Reaches_move;
        [apply (Move_answer toLowerCase []
                  {| pendingBucket := "b"; pendingPrefix := "a/" |} []
                  (inr (page [obj "a/"; obj "a/1"] None)));
         reflexivity
        | exact I |].
      apply Reaches_here.
    + intros k [].
    + intros H. specialize (H "c/" (or_introl eq_refl)).
      cbn in H. destruct H as [H | []]. discriminate H.
Qed.

Lemma selection_stays_within_listing_witness :
  let a := folderEntry {| S3.Prefix := "a/" |} in
  let s0 := {| view := state_of (setIsDeleteModalOpen false
                                   (browsing storeA2 (Some "b") "" [a] [] ""));
               inFlight := [] |} in
  let s1 := followedBy s0 (toggleItem "a/" (view s0)) in
  let s2 := followedBy s1 (navigateSend (ClickEntry a) (view s1)) in
  let s3 := {| view := state_of (fetchObjectsResume "b" "a/"
                                   (inr (page [obj "a/"; obj "a/1"] None)) (view s2));
               inFlight := [] |} in
  selectedItems (view s1) = ["a/"]
  /\ inFlight s2 = [{| pendingBucket := "b"; pendingPrefix := "a/" |}]
  /\ objects (view s3) = [fileEntry (obj "a/1")]
  /\ selectionListed (view s3).
Proof.
  cbv zeta. split; [reflexivity |]. split; [reflexivity |]. split; [reflexivity |].
  refine (proj1 (proj2 (selection_stays_within_listing asciiLower))
            {| view := state_of (setIsDeleteModalOpen false
                                   (browsing storeA2 (Some "b") ""
                                      [folderEntry {| S3.Prefix := "a/" |}] [] ""));
               inFlight := [] |} _ _ eq_refl _).
  - eapply Reaches_move;
      [apply (Move_toggleItem asciiLower (folderEntry {| S3.Prefix := "a/" |}));
       [reflexivity | left; reflexivity]
      | unfold atMostOne; cbn; lia |].
    eapply Reaches_move;
      [apply (Move_navigate asciiLower
                (ClickEntry (folderEntry {| S3.Prefix := "a/" |})))
      | unfold atMostOne; cbn; lia |].
    eapply Reaches_move;
      [apply (Move_answer asciiLower []
                {| pendingBucket := "b"; pendingPrefix := "a/" |} []
                (inr (page [obj "a/"; obj "a/1"] None)));
       reflexivity
      | unfold atMostOne; cbn; lia |].
    apply Reaches_here.
  - intros k [].
Defined.

(** ** Session: saved connections and life cycle *)

Lemma findIndex_Some {A} (p : A -> bool) (l : list A) (i : nat) :
  findIndex p l = Some i ->
  exists pre x post,
    l = pre ++ x :: post /\ length pre = i /\ p x = true
    /\ forall y, In y pre -> p y = false.
Proof.
  revert i. induction l as [| a l IH]; intros i H; cbn in H; [discriminate |].
  destruct (p a) eqn:Ea.
  - injection H as <-. exists [], a, l. repeat split; [exact Ea | intros y []].
  - destruct (findIndex p l) as [j |]; [| discriminate]. injection H as <-.
    destruct (IH j eq_refl) as (pre & x & post & -> & Hlen & Hx & Hpre).
    exists (a :: pre), x, post. cbn. repeat split; [congruence | exact Hx |].
    intros y [<- | Hy]; [exact Ea | apply Hpre, Hy].
Qed.

Lemma findIndex_None {A} (p : A -> bool) (l : list A) :
  findIndex p l = None -> forall y, In y l -> p y = false.
Proof.
  induction l as [| a l IH]; intros H y Hy; [destruct Hy |]. cbn in H.
  destruct (p a) eqn:Ea; [discriminate |].
  destruct (findIndex p l); [discriminate |].
  destruct Hy as [<- | Hy]; [exact Ea | apply IH; [reflexivity | exact Hy]].
Qed.

Lemma updateAt_middle {A} (f : A -> A) (pre : list A) x post :
  updateAt (pre ++ x :: post) (length pre) f = pre ++ f x :: post.
Proof. induction pre as [| a pre IH]; cbn; [reflexivity | now rewrite IH]. Qed.

(** The saved list after a connect that succeeded with a name to save
    under. *)
Lemma handleConnect_saved S3Client now details cfg st bs :
  S3.listBuckets (S3Client details) = inr bs ->
  let r := handleConnect S3Client now details (Some cfg) st in
  result_of r = Returned tt
  /\ s3Client (state_of r) = Some (S3Client details)
  /\ savedConnections (state_of r)
     = match findIndex (fun c => (Conn.name (Conn.config c) =? Conn.name cfg)%string)
                       (savedConnections st) with
       | Some i =>
           updateAt (savedConnections st) i
                    (fun old => {| Conn.id := Conn.id old; Conn.config := cfg |})
       | None => savedConnections st ++ [{| Conn.id := now; Conn.config := cfg |}]
       end.
Proof.
  intros H. unfold handleConnect. cbn. rewrite H. cbn.
  destruct (findIndex _ (savedConnections st)); cbn; repeat split.
Qed.

(** X10.  A connect that succeeds with a name to save under keeps the
    saved list keyed by name: if a saved connection bears the name, the
    first such entry is overwritten in place and keeps its identifier, and
    the list keeps its length, its identifiers and its names; otherwise one
    entry is appended, identified by the clock reading.  Names that were
    distinct stay distinct, and the entry found under the name is then the
    one just saved. *)
Theorem handleConnect_saves_by_name
    (S3Client : Conn.Details -> S3.Client) (now : N) (details : Conn.Details)
    (cfg : Conn.SaveConfig) (st : AppState) (bs : option (list S3.Bucket)) :
  S3.listBuckets (S3Client details) = inr bs ->
  let saved := savedConnections st in
  let saved' :=
    savedConnections (state_of (handleConnect S3Client now details (Some cfg) st)) in
  let names l := map (fun c => Conn.name (Conn.config c)) l in
  In cfg (map Conn.config saved')
  /\ (In (Conn.name cfg) (names saved) ->
      map Conn.id saved' = map Conn.id saved /\ names saved' = names saved)
  /\ (~ In (Conn.name cfg) (names saved) ->
      saved' = saved ++ [{| Conn.id := now; Conn.config := cfg |}])
  /\ (NoDup (names saved) ->
      NoDup (names saved')
      /\ forall c, In c saved' -> Conn.name (Conn.config c) = Conn.name cfg ->
                   Conn.config c = cfg).
Proof.
  intros Hok. cbv zeta.
  destruct (handleConnect_saved S3Client now details cfg st bs Hok) as (_ & _ & ->).
  set (p := fun c => (Conn.name (Conn.config c) =? Conn.name cfg)%string).
  set (nm := fun c => Conn.name (Conn.config c)).
  destruct (findIndex p (savedConnections st)) as [i |] eqn:Hfind.
  - destruct (findIndex_Some p _ i Hfind) as (pre & x & post & Hl & Hlen & Hx & Hpre).
    rewrite Hl, <- Hlen, updateAt_middle.
    apply String.eqb_eq in Hx.
    assert (Hin : In (Conn.name cfg) (map nm (pre ++ x :: post))).
    { rewrite map_app, in_app_iff. right. left. exact Hx. }
    split; [| split; [| split]].
    + rewrite map_app, in_app_iff. right. left. reflexivity.
    + intros _. rewrite !map_app. unfold nm. cbn. rewrite Hx. split; reflexivity.
    + intros Hn. contradiction.
    + intros Hnd.
      assert (Hnames : map nm (pre ++ {| Conn.id := Conn.id x; Conn.config := cfg |} :: post)
                       = map nm (pre ++ x :: post)).
      { rewrite !map_app. unfold nm. cbn. now rewrite Hx. }
      split; [rewrite Hnames; exact Hnd |].
      intros c Hc Hname.
      apply in_app_or in Hc. destruct Hc as [Hc | [<- | Hc]].
      * exfalso. specialize (Hpre c Hc). unfold p in Hpre.
        apply String.eqb_neq in Hpre. contradiction.
      * reflexivity.
      * exfalso. rewrite map_app in Hnd. cbn in Hnd.
        apply NoDup_remove_2 in Hnd. apply Hnd.
        apply in_or_app. right. unfold nm at 1. rewrite Hx, <- Hname.
        apply (in_map nm). exact Hc.
  - pose proof (findIndex_None p _ Hfind) as Hnone.
    assert (Hfresh : ~ In (Conn.name cfg) (map nm (savedConnections st))).
    { intros Hin. apply in_map_iff in Hin. destruct Hin as (c & Hc & Hin).
      specialize (Hnone c Hin). unfold p in Hnone.
      apply String.eqb_neq in Hnone. contradiction. }
    split; [| split; [| split]].
    + rewrite map_app, in_app_iff. right. left. reflexivity.
    + intros Hin. contradiction.
    + intros _. reflexivity.
    + intros Hnd. split.
      * rewrite map_app. apply NoDup_app; [exact Hnd | repeat constructor; intros [] |].
        intros y Hy [<- | []]. contradiction.
      * intros c Hc Hname. apply in_app_or in Hc. destruct Hc as [Hc | [<- | []]].
        -- exfalso. apply Hfresh. rewrite <- Hname. apply (in_map nm). exact Hc.
        -- reflexivity.
Qed.

Lemma handleConnect_saves_by_name_witness :
  let old := {| Conn.id := 7;
                Conn.config :=
                  {| Conn.name := "local";
                     Conn.details := {| Conn.endpoint := "http://old:9000";
                                        Conn.accessKey := "k"; Conn.secretKey := "s" |} |} |} in
  let cfg := {| Conn.name := "local";
                Conn.details := {| Conn.endpoint := "http://new:9000";
                                   Conn.accessKey := "k"; Conn.secretKey := "s" |} |} in
  let st := state_of (setSavedConnections [old] initialState) in
  map Conn.id
      (savedConnections
         (state_of (handleConnect (fun _ => storeA2) 99 (Conn.details cfg) (Some cfg) st)))
  = [7%N].
Proof.
  cbv zeta.
  refine (proj1 (proj1 (proj2 (handleConnect_saves_by_name (fun _ => storeA2) 99 _
            {| Conn.name := "local";
               Conn.details := {| Conn.endpoint := "http://new:9000";
                                  Conn.accessKey := "k"; Conn.secretKey := "s" |} |}
            (state_of (setSavedConnections
               [{| Conn.id := 7;
                   Conn.config :=
                     {| Conn.name := "local";
                        Conn.details := {| Conn.endpoint := "http://old:9000";
                                           Conn.accessKey := "k";
                                           Conn.secretKey := "s" |} |} |}]
               initialState))
            (Some [{| S3.Name := "b" |}]) eq_refl)) _)).
  left. reflexivity.
Defined.

(** X11.  The saved connections change only through a connect that
    succeeds with a name to save under: a rejected attempt leaves the whole
    state as it was, saved list included, even when saving was asked for,
    and an attempt without a name to save under leaves the saved list as it
    was whether it succeeds or not. *)
Theorem handleConnect_saves_only_on_success
    (S3Client : Conn.Details -> S3.Client) (now : N) (details : Conn.Details)
    (saveConfig : option Conn.SaveConfig) (st : AppState) :
  let r := handleConnect S3Client now details saveConfig st in
  ((exists error, S3.listBuckets (S3Client details) = inl error) -> state_of r = st)
  /\ (saveConfig = None -> savedConnections (state_of r) = savedConnections st)
  /\ (savedConnections (state_of r) <> savedConnections st ->
      exists cfg bs, saveConfig = Some cfg
                     /\ S3.listBuckets (S3Client details) = inr bs
                     /\ s3Client (state_of r) = Some (S3Client details)).
Proof.
  cbv zeta. split; [| split].
  - intros (error & H).
    destruct (handleConnect_failed S3Client now details saveConfig st error H)
      as (_ & _ & Hst). exact Hst.
  - intros ->. unfold handleConnect. cbn.
    destruct (S3.listBuckets (S3Client details)); reflexivity.
  - destruct (S3.listBuckets (S3Client details)) as [error | bs] eqn:Hl.
    + destruct (handleConnect_failed S3Client now details saveConfig st error Hl)
        as (_ & _ & Hst). rewrite Hst. intros Hn. now contradiction Hn.
    + destruct saveConfig as [cfg |].
      * intros _. exists cfg, bs.
        destruct (handleConnect_saved S3Client now details cfg st bs Hl) as (_ & Hc & _).
        repeat split. exact Hc.
      * unfold handleConnect. cbn. rewrite Hl. cbn. intros Hn. now contradiction Hn.
Qed.

Lemma handleConnect_saves_only_on_success_witness :
  let cfg := {| Conn.name := "local";
                Conn.details := {| Conn.endpoint := "http://new:9000";
                                   Conn.accessKey := "k"; Conn.secretKey := "bad" |} |} in
  state_of (handleConnect (fun _ => storeDown "InvalidAccessKeyId") 99
              (Conn.details cfg) (Some cfg) initialState)
  = initialState.
Proof.
  cbv zeta.
  refine (proj1 (handleConnect_saves_only_on_success
                   (fun _ => storeDown "InvalidAccessKeyId") 99 _ _ initialState) _).
  exists {| Js.name := "InvalidAccessKeyId" |}. reflexivity.
Defined.

(** A connect that the store accepts. *)
Lemma handleConnect_succeeded S3Client now details saveConfig st bs :
  S3.listBuckets (S3Client details) = inr bs ->
  exists saved' notes,
    handleConnect S3Client now details saveConfig st
    = (Returned tt,
       state_of (setS3Client (Some (S3Client details))
                   (state_of (setSavedConnections saved' st))),
       Sent S3.ListBucketsCommand :: notes)
    /\ requestsSent notes = [].
Proof.
  intros H. unfold handleConnect. cbn. rewrite H. cbn.
  destruct saveConfig as [cfg |]; cbn.
  - destruct (findIndex _ (savedConnections st)); cbn;
      (eexists; eexists; split; [reflexivity | reflexivity]).
  - exists (savedConnections st), []. split; reflexivity.
Qed.

(** X12.  Disconnecting and then connecting successfully starts the
    navigator afresh, provided no answer to a request of the previous
    session arrives in between.  Once the bucket listing of the new session
    is answered, the buckets are those of that answer (none, with one error
    notification, when it is rejected), no bucket is selected, and prefix,
    listing, selection and filter query are empty; two bucket listings have
    been sent (validation, then [fetchBuckets]) and no object listing.
    Answered as the validation was, this is the connect run as a whole.
    The disconnect resets neither the tracked uploads nor the dialog flag
    nor the loading flag of the listing, and it aborts nothing: a listing
    answer of the previous session that arrives afterwards is still
    applied, and puts its entries into the listing of the new session,
    where no table shows them as long as no bucket is selected. *)
Theorem reconnect_starts_afresh
    (S3Client : Conn.Details -> S3.Client) (now : N) (details : Conn.Details)
    (saveConfig : option Conn.SaveConfig) (st : AppState)
    (bs : option (list S3.Bucket))
    (listed : Js.Error + option (list S3.Bucket)) :
  S3.listBuckets (S3Client details) = inr bs ->
  let disconnected := state_of (handleDisconnect st) in
  let r := connectSend S3Client now details saveConfig disconnected in
  let answered := fetchBucketsResume listed (state_of r) in
  let final := state_of answered in
  result_of r = Returned tt
  /\ requestsSent (log_of r) = [S3.ListBucketsCommand; S3.ListBucketsCommand]
  /\ requestsSent (log_of answered) = []
  /\ alerts (log_of answered)
     = match listed with
       | inl _ => [("Could not fetch buckets.", "error")]
       | inr _ => []
       end
  /\ s3Client final = Some (S3Client details)
  /\ buckets final = match listed with inr (Some l) => l | _ => [] end
  /\ selectedBucket final = None
  /\ prefix final = ""
  /\ objects final = []
  /\ selectedItems final = []
  /\ searchQuery final = ""
  /\ isLoadingBuckets final = false
  /\ uploadingFiles final = uploadingFiles st
  /\ isDeleteModalOpen final = isDeleteModalOpen st
  /\ isLoadingObjects final = isLoadingObjects st
  /\ state_of (connect S3Client now details saveConfig disconnected)
     = state_of (fetchBucketsResume (inr bs) (state_of r))
  /\ (forall bucket currentPrefix response,
         let late :=
           state_of (fetchObjectsResume bucket currentPrefix (inr response) final) in
         objects late = listingEntries currentPrefix response
         /\ selectedBucket late = None
         /\ tableShown late = false).
Proof.
  intros Hok. cbv zeta.
  destruct (handleConnect_succeeded S3Client now details saveConfig
              (state_of (handleDisconnect st)) bs Hok)
    as (saved' & notes & Hrun & Hquiet).
  set (st1 := state_of (setS3Client (Some (S3Client details))
                          (state_of (setSavedConnections saved'
                                       (state_of (handleDisconnect st)))))) in *.
  assert (Hsend :
            (fetchBucketsSend (s3Client st1) ;;
             fetchObjectsSend (s3Client st1) (selectedBucket st1) (prefix st1)) st1
            = (Returned tt, state_of (setIsLoadingBuckets true st1),
               [Sent S3.ListBucketsCommand])) by reflexivity.
  assert (Hconnect : connectSend S3Client now details saveConfig
                       (state_of (handleDisconnect st))
                     = (Returned tt, state_of (setIsLoadingBuckets true st1),
                        (Sent S3.ListBucketsCommand :: notes)
                          ++ [Sent S3.ListBucketsCommand])).
  { unfold connectSend. rewrite (bind_returned _ _ _ _ _ _ Hrun). cbv beta.
    change (s3Client (state_of (handleDisconnect st))) with (@None S3.Client).
    change (s3Client st1) with (Some (S3Client details)) at 1.
    cbv iota. rewrite Hsend. reflexivity. }
  assert (Hatomic : state_of (connect S3Client now details saveConfig
                                (state_of (handleDisconnect st)))
                    = state_of (fetchBucketsResume (inr bs)
                                  (state_of (setIsLoadingBuckets true st1)))).
  { unfold connect. rewrite (bind_returned _ _ _ _ _ _ Hrun). cbv beta.
    change (s3Client (state_of (handleDisconnect st))) with (@None S3.Client).
    change (s3Client st1) with (Some (S3Client details)) at 1.
    cbv iota. rewrite state_of_triple.
    unfold effectFetchBuckets, effectFetchObjects, fetchBuckets, fetchObjects, bind.
    cbn. rewrite Hok. reflexivity. }
  rewrite Hconnect, Hatomic.
  rewrite !result_of_triple, !state_of_triple, !log_of_triple.
  rewrite requestsSent_app.
  change (requestsSent (Sent S3.ListBucketsCommand :: notes))
    with (S3.ListBucketsCommand :: requestsSent notes).
  rewrite Hquiet.
  destruct listed as [error | [l |]]; cbn; repeat split.
Qed.

Lemma reconnect_starts_afresh_witness :
  let st := browsing storeUploads (Some "old") "docs/"
                     [fileEntry (obj "docs/report.txt")] ["docs/report.txt"] "rep" in
  let r := connectSend (fun _ => storeA2) 99
             {| Conn.endpoint := "http://new:9000"; Conn.accessKey := "k";
                Conn.secretKey := "s" |} None (state_of (handleDisconnect st)) in
  let final :=
    state_of (fetchBucketsResume (inr (Some [{| S3.Name := "b2" |}])) (state_of r)) in
  buckets final = [{| S3.Name := "b2" |}]
  /\ objects final = []
  /\ selectedItems final = []
  /\ objects (state_of (fetchObjectsResume "old" "docs/"
                          (inr (page [obj "docs/report.txt"] None)) final))
     = [fileEntry (obj "docs/report.txt")].
Proof.
  cbv zeta.
  destruct (reconnect_starts_afresh (fun _ => storeA2) 99
              {| Conn.endpoint := "http://new:9000"; Conn.accessKey := "k";
                 Conn.secretKey := "s" |} None
              (browsing storeUploads (Some "old") "docs/"
                        [fileEntry (obj "docs/report.txt")] ["docs/report.txt"] "rep")
              (Some [{| S3.Name := "b" |}])
              (inr (Some [{| S3.Name := "b2" |}])) eq_refl)
    as (_ & _ & _ & _ & _ & Hb & _ & _ & Ho & Hs & _ & _ & _ & _ & _ & _ & Hlate).
  split; [exact Hb |]. split; [exact Ho |]. split; [exact Hs |].
  destruct (Hlate "old" "docs/" (page [obj "docs/report.txt"] None)) as (Hobj & _).
  exact Hobj.
Defined.

(** ** Names derived from keys *)

Lemma string_app_nil_r (s : string) : (s ++ "")%string = s.
Proof. induction s as [| c s IH]; cbn; [reflexivity | now rewrite IH]. Qed.

Lemma split_nonempty (sep : ascii) (s : string) : Js.split sep s <> [].
Proof.
  destruct s as [| c s]; cbn; [discriminate |].
  destruct (Ascii.eqb c sep); [discriminate |].
  destruct (Js.split sep s); discriminate.
Qed.

(** Splitting on a separator and joining with it gives the string back. *)
Lemma split_join (sep : ascii) (s : string) :
  String.concat (String sep "") (Js.split sep s) = s.
Proof.
  induction s as [| c s IH]; [reflexivity |]. cbn [Js.split].
  pose proof (split_nonempty sep s) as Hne.
  destruct (Ascii.eqb_spec c sep) as [-> | Hc].
  - destruct (Js.split sep s) as [| h t]; [contradiction |].
    cbn [String.concat]. cbn [String.append]. f_equal. exact IH.
  - destruct (Js.split sep s) as [| h t]; [contradiction |].
    destruct t as [| h2 t]; cbn in IH |- *; now rewrite IH.
Qed.

Lemma includes_slash_cons (c : ascii) (s : string) :
  includes (String c s) "/"
  = (if ascii_dec "/" c then true else false) || includes s "/".
Proof.
  change (includes (String c s) "/")
    with (String.prefix "/" (String c s) || includes s "/").
  change (String.prefix "/" (String c s))
    with (if ascii_dec "/" c then String.prefix "" s else false).
  destruct (ascii_dec "/" c); [destruct s |]; reflexivity.
Qed.

Lemma no_slash_cons (c : ascii) (s : string) :
  includes (String c s) "/" = false -> c <> "/"%char /\ includes s "/" = false.
Proof.
  rewrite includes_slash_cons.
  destruct (ascii_dec "/" c) as [<- | Hne]; [discriminate |].
  intros H. split; [congruence | exact H].
Qed.

Lemma no_slash_build (c : ascii) (s : string) :
  c <> "/"%char -> includes s "/" = false -> includes (String c s) "/" = false.
Proof.
  intros Hc Hs. rewrite includes_slash_cons.
  destruct (ascii_dec "/" c) as [<- | Hne]; [contradiction | exact Hs].
Qed.

(** The pieces of a split hold no separator. *)
Lemma split_pieces (s : string) :
  Forall (fun piece => includes piece "/" = false) (Js.split "/" s).
Proof.
  induction s as [| c s IH]; cbn [Js.split].
  - repeat constructor.
  - destruct (Ascii.eqb_spec c "/") as [-> | Hc].
    + constructor; [reflexivity | exact IH].
    + destruct (Js.split "/" s) as [| h t].
      * constructor; [| constructor]. apply no_slash_build; [exact Hc | reflexivity].
      * inversion IH as [| ? ? Hh Ht]; subst. constructor; [| exact Ht].
        apply no_slash_build; assumption.
Qed.

Lemma split_segment (s r : string) :
  includes s "/" = false ->
  Js.split "/" (s ++ String "/" r) = s :: Js.split "/" r.
Proof.
  induction s as [| c s IH]; intros H.
  - reflexivity.
  - apply no_slash_cons in H. destruct H as [Hc Hs].
    cbn [String.append Js.split].
    destruct (Ascii.eqb_spec c "/"); [contradiction |].
    rewrite (IH Hs). reflexivity.
Qed.

Lemma split_folderPath (segments : list string) :
  forallb isSegment segments = true ->
  Js.split "/" (folderPath segments) = segments ++ [""].
Proof.
  induction segments as [| s rest IH]; intros H; [reflexivity |].
  cbn in H. apply andb_true_iff in H. destruct H as [Hs Hrest].
  unfold isSegment in Hs. apply andb_true_iff in Hs. destruct Hs as [_ Hs].
  apply negb_true_iff in Hs.
  cbn [folderPath]. change ("/" ++ folderPath rest)%string with (String "/" (folderPath rest)).
  rewrite (split_segment _ _ Hs), (IH Hrest). reflexivity.
Qed.

Lemma filter_truthy_segments (segments : list string) :
  forallb isSegment segments = true ->
  filter Js.truthy (segments ++ [""]) = segments.
Proof.
  induction segments as [| s rest IH]; intros H; [reflexivity |].
  cbn in H. apply andb_true_iff in H. destruct H as [Hs Hrest].
  unfold isSegment in Hs. apply andb_true_iff in Hs. destruct Hs as [Hs _].
  cbn. rewrite Hs, (IH Hrest). reflexivity.
Qed.

Lemma join_folderPath (l : list string) :
  l <> [] -> (Js.join "/" (map Some l) ++ "/")%string = folderPath l.
Proof.
  unfold Js.join. rewrite map_map, map_id.
  induction l as [| x l IH]; intros Hne; [contradiction |].
  destruct l as [| y l].
  - cbn. reflexivity.
  - cbn [String.concat folderPath]. rewrite !string_app_assoc.
    f_equal. f_equal. apply IH. discriminate.
Qed.

Lemma folderPath_app (a b : list string) :
  folderPath (a ++ b) = (folderPath a ++ folderPath b)%string.
Proof.
  induction a as [| x a IH]; cbn [folderPath app]; [reflexivity |].
  rewrite IH, !string_app_assoc. reflexivity.
Qed.

Lemma prefix_app (a b : string) : String.prefix a (a ++ b) = true.
Proof.
  induction a as [| c a IH]; [destruct b; reflexivity |].
  change (String.prefix (String c a) (String c a ++ b))
    with (if ascii_dec c c then String.prefix a (a ++ b) else false).
  destruct (ascii_dec c c); [exact IH | contradiction].
Qed.

(** X13.  In a folder whose prefix is made of segments, the breadcrumbs
    are the root label, the bucket and the segments; a click on the crumb
    of a segment sets the prefix to the path down to that segment, which is
    an ancestor of the current prefix, and leaves the bucket; a click on
    the last crumb changes nothing and sends no request. *)
Theorem breadcrumb_navigates_to_ancestor
    (st : AppState) (segments : list string) (i : nat) :
  prefix st = folderPath segments ->
  forallb isSegment segments = true ->
  segments <> [] ->
  2 <= i ->
  let st' := state_of (onClick (ClickBreadcrumb i) st) in
  breadcrumbs st = Some "Buckets" :: selectedBucket st :: map Some segments
  /\ prefix st' = folderPath (firstn (i - 1) segments)
  /\ selectedBucket st' = selectedBucket st
  /\ String.prefix (prefix st') (prefix st) = true
  /\ (length segments < i -> navigate (ClickBreadcrumb i) st = (Returned tt, st, [])).
Proof.
  intros Hp Hseg Hne Hi. cbv zeta.
  assert (Hcrumbs : breadcrumbs st
                    = Some "Buckets" :: selectedBucket st :: map Some segments).
  { unfold breadcrumbs. rewrite Hp, (split_folderPath _ Hseg),
      (filter_truthy_segments _ Hseg). reflexivity. }
  assert (Hnew : (Js.join "/" (Js.slice (breadcrumbs st) 2 (i + 1)) ++ "/")%string
                 = folderPath (firstn (i - 1) segments)).
  { rewrite Hcrumbs. unfold Js.slice. cbn [skipn].
    replace (i + 1 - 2) with (i - 1) by lia.
    rewrite firstn_map. apply join_folderPath.
    destruct segments as [| s rest]; [contradiction |].
    destruct (i - 1) as [| n] eqn:E; [lia | discriminate]. }
  assert (Hst' : prefix (state_of (onClick (ClickBreadcrumb i) st))
                 = folderPath (firstn (i - 1) segments)
                 /\ selectedBucket (state_of (onClick (ClickBreadcrumb i) st))
                    = selectedBucket st).
  { destruct i as [| [| i]]; [lia | lia |].
    unfold onClick. cbn [state_of setPrefix modify fst snd prefix selectedBucket].
    split; [exact Hnew | reflexivity]. }
  destruct Hst' as [Hpre Hbucket].
  split; [exact Hcrumbs |]. split; [exact Hpre |]. split; [exact Hbucket |]. split.
  - rewrite Hpre, Hp.
    rewrite <- (firstn_skipn (i - 1) segments) at 2.
    rewrite folderPath_app. apply prefix_app.
  - intros Hlast.
    assert (Hsame : folderPath (firstn (i - 1) segments) = prefix st).
    { rewrite firstn_all2 by lia. symmetry. exact Hp. }
    destruct i as [| [| i]]; [lia | lia |].
    assert (Hrun : onClick (ClickBreadcrumb (S (S i))) st = (Returned tt, st, [])).
    { unfold onClick. cbn [setPrefix modify]. rewrite Hnew, Hsame.
      destruct st; reflexivity. }
    rewrite (navigate_run _ _ _ Hrun).
    unfold contextChanged. rewrite String.eqb_refl.
    destruct (selectedBucket st) as [b |]; cbn; [rewrite String.eqb_refl |];
      reflexivity.
Qed.

Lemma breadcrumb_navigates_to_ancestor_witness :
  let st := browsing storeA2 (Some "b") "a/sub/deep/" [] [] "" in
  prefix (state_of (onClick (ClickBreadcrumb 3) st)) = "a/sub/".
Proof.
  cbv zeta.
  exact (proj1 (proj2 (breadcrumb_navigates_to_ancestor
                         (browsing storeA2 (Some "b") "a/sub/deep/" [] [] "")
                         ["a"; "sub"; "deep"] 3 eq_refl eq_refl
                         ltac:(discriminate) ltac:(lia)))).
Defined.

Lemma concat_last (l : list string) :
  l <> [] ->
  String.concat "/" l = (folderPath (removelast l) ++ last l "")%string.
Proof.
  induction l as [| x l IH]; intros Hne; [contradiction |].
  destruct l as [| y l].
  - reflexivity.
  - change (String.concat "/" (x :: y :: l))
      with (x ++ "/" ++ String.concat "/" (y :: l))%string.
    rewrite IH by discriminate.
    change (removelast (x :: y :: l)) with (x :: removelast (y :: l)).
    change (last (x :: y :: l) "") with (last (y :: l) "").
    cbn [folderPath]. rewrite !string_app_assoc. reflexivity.
Qed.

Lemma last_Forall {A} (P : A -> Prop) (l : list A) (d : A) :
  Forall P l -> P d -> P (last l d).
Proof.
  induction l as [| x l IH]; intros Hl Hd; [exact Hd |].
  inversion Hl; subst. destruct l; [assumption |]. apply IH; assumption.
Qed.


Lemma split_length_slash (a r : string) :
  2 <= length (Js.split "/" (a ++ String "/" r)).
Proof.
  induction a as [| c a IH]; cbn [String.append Js.split].
  - rewrite Ascii.eqb_refl. pose proof (split_nonempty "/" r).
    destruct (Js.split "/" r); [contradiction | cbn; lia].
  - destruct (Ascii.eqb c "/"); [cbn; lia |].
    destruct (Js.split "/" (a ++ String "/" r)) as [| h [| h2 t]]; cbn in *; lia.
Qed.

(** What follows the last separator of [a/r] is what follows the last
    separator of [r]. *)
Lemma last_split_app (a r : string) :
  last (Js.split "/" (a ++ String "/" r)) "" = last (Js.split "/" r) "".
Proof.
  induction a as [| c a IH]; cbn [String.append Js.split].
  - rewrite Ascii.eqb_refl. pose proof (split_nonempty "/" r).
    destruct (Js.split "/" r); [contradiction | reflexivity].
  - pose proof (split_length_slash a r) as Hlen.
    destruct (Ascii.eqb c "/");
      destruct (Js.split "/" (a ++ String "/" r)) as [| h [| h2 t]];
      cbn in Hlen; try lia; exact IH.
Qed.

Lemma endsWith_slash (key : string) :
  Js.endsWith key "/" = true -> exists dir, key = (dir ++ String "/" "")%string.
Proof.
  induction key as [| c key IH]; intros H; [discriminate H |].
  cbn [Js.endsWith] in H. apply orb_true_iff in H. destruct H as [H | H].
  - apply String.eqb_eq in H. exists "". exact H.
  - destruct (IH H) as (dir & ->). exists (String c dir). reflexivity.
Qed.

Lemma split_no_slash (key : string) :
  includes key "/" = false -> Js.split "/" key = [key].
Proof.
  induction key as [| c key IH]; intros H; [reflexivity |].
  apply no_slash_cons in H. destruct H as [Hc Hk].
  cbn [Js.split]. destruct (Ascii.eqb_spec c "/"); [contradiction |].
  rewrite (IH Hk). reflexivity.
Qed.

(** X14.  The name a download is saved under is what follows the last
    [/] of the key: it holds no [/], the key is the path of the segments
    before it followed by that name, a key without [/] is its own name,
    and a key that ends with [/] is saved under the empty name. *)
Theorem downloadName_is_last_segment (key : string) :
  includes (downloadName key) "/" = false
  /\ key = (folderPath (removelast (Js.split "/" key)) ++ downloadName key)%string
  /\ (includes key "/" = false -> downloadName key = key)
  /\ (Js.endsWith key "/" = true -> downloadName key = "").
Proof.
  unfold downloadName.
  pose proof (split_nonempty "/" key) as Hne.
  pose proof (split_join "/" key) as Hjoin.
  change (String "/" "") with "/" in Hjoin.
  rewrite (concat_last _ Hne) in Hjoin.
  split; [| split; [| split]].
  - apply (last_Forall (fun piece => includes piece "/" = false));
      [apply split_pieces | reflexivity].
  - symmetry. exact Hjoin.
  - intros Hfile. rewrite (split_no_slash _ Hfile). reflexivity.
  - intros Hfolder. destruct (endsWith_slash _ Hfolder) as (dir & ->).
    rewrite last_split_app. reflexivity.
Qed.

Lemma downloadName_is_last_segment_witness :
  downloadName "docs/2024/report.pdf" = "report.pdf"
  /\ downloadName "report.pdf" = "report.pdf"
  /\ downloadName "docs/" = "".
Proof.
  split; [reflexivity |]. split.
  - apply (proj1 (proj2 (proj2 (downloadName_is_last_segment "report.pdf")))).
    reflexivity.
  - apply (proj2 (proj2 (proj2 (downloadName_is_last_segment "docs/")))).
    reflexivity.
Defined.

Lemma prefix_split (p s : string) :
  String.prefix p s = true -> exists rest, s = (p ++ rest)%string.
Proof.
  revert s. induction p as [| c p IH]; intros s H.
  - exists s. reflexivity.
  - destruct s as [| d s]; [discriminate H |].
    change (String.prefix (String c p) (String d s))
      with (if ascii_dec c d then String.prefix p s else false) in H.
    destruct (ascii_dec c d) as [<- | Hne]; [| discriminate H].
    destruct (IH s H) as (rest & ->). exists rest. reflexivity.
Qed.

Lemma substring_app (p rest : string) :
  substring (String.length p) (String.length (p ++ rest) - String.length p) (p ++ rest)
  = rest.
Proof.
  induction p as [| c p IH].
  - cbn [String.append String.length]. rewrite Nat.sub_0_r.
    induction rest as [| d rest IHr]; [reflexivity |]. cbn. now rewrite IHr.
  - cbn [String.append String.length substring]. exact IH.
Qed.

(** X15.  A row shows the key of its entry with the first occurrence of
    the current prefix removed; for an entry whose key lies under the
    prefix, as the entries of a listing of that prefix do, that is the key
    relative to the folder: the prefix followed by the shown name is the
    key. *)
Theorem displayName_is_relative_key (currentPrefix : string) (entry : ObjectEntry) :
  Js.startsWith (Key entry) currentPrefix = true ->
  (currentPrefix ++ displayName currentPrefix entry)%string = Key entry.
Proof.
  unfold Js.startsWith, displayName. intros H.
  destruct (prefix_split _ _ H) as (rest & Hkey). rewrite Hkey.
  assert (Hrep : replace (currentPrefix ++ rest) currentPrefix "" = rest).
  { destruct (currentPrefix ++ rest)%string eqn:E.
    - cbn [replace]. rewrite <- E in *.
      destruct (String.prefix currentPrefix (currentPrefix ++ rest)) eqn:Ep.
      + cbn [String.append]. rewrite E.
        destruct currentPrefix; [| discriminate E]. cbn in E. subst rest. reflexivity.
      + rewrite prefix_app in Ep. discriminate.
    - cbn [replace]. rewrite <- E. rewrite prefix_app.
      cbn [String.append]. apply substring_app. }
  rewrite Hrep. reflexivity.
Qed.

Lemma displayName_is_relative_key_witness :
  displayName "docs/" (fileEntry (obj "docs/report.pdf")) = "report.pdf"
  /\ ("docs/" ++ displayName "docs/" (fileEntry (obj "docs/report.pdf")))%string
     = "docs/report.pdf".
Proof.
  split; [reflexivity |].
  exact (displayName_is_relative_key "docs/" (fileEntry (obj "docs/report.pdf")) eq_refl).
Defined.

(** ** Listing: order of the entries *)

(** X16.  A listing that the store answers shows the folders first and the
    files after them, each group in the order the store returned it: no
    file entry comes before a folder entry, the folder entries are the
    common prefixes and the file entries are the objects other than the
    marker of the prefix. *)
Theorem listing_shows_folders_first
    (client : S3.Client) (bucket currentPrefix : string) (st : AppState)
    (response : S3.ListObjectsV2Output) :
  s3Client st = Some client ->
  Js.truthy bucket = true ->
  S3.listObjectsV2 client bucket currentPrefix (Some "/") None = inr response ->
  let shown := objects (state_of (fetchObjects (Some bucket) currentPrefix st)) in
  let prefixes := match S3.CommonPrefixes response with Some ps => ps | None => [] end in
  let contents := match S3.Contents response with Some cs => cs | None => [] end in
  map Key (filter isFolder shown) = map S3.Prefix prefixes
  /\ map Key (filter (fun e => negb (isFolder e)) shown)
     = filter (fun k => negb (k =? currentPrefix)%string) (map S3.Key contents)
  /\ (forall i j ei ej,
        i < j -> nth_error shown i = Some ei -> nth_error shown j = Some ej ->
        isFolder ej = true -> isFolder ei = true).
Proof.
  intros Hc Hb Hans. cbv zeta.
  destruct (fetchObjects_ok client bucket currentPrefix st Hc Hb response Hans)
    as (_ & _ & -> & _).
  unfold listingEntries.
  set (folders := map folderEntry _). set (files := map fileEntry _).
  assert (Hfolders : forallb isFolder folders = true).
  { unfold folders. apply forallb_forall. intros e He.
    apply in_map_iff in He. destruct He as (p & <- & _). reflexivity. }
  assert (Hfiles : forallb (fun e => negb (isFolder e)) files = true).
  { unfold files. apply forallb_forall. intros e He.
    apply in_map_iff in He. destruct He as (c & <- & _). reflexivity. }
  assert (Hkeep : forall (p : ObjectEntry -> bool) l, forallb p l = true -> filter p l = l).
  { intros p l. induction l as [| x l IH]; cbn; [reflexivity |].
    intros H. apply andb_true_iff in H. destruct H as [-> H].
    now rewrite IH. }
  assert (Hdrop : forall (p q : ObjectEntry -> bool) l,
             (forall x, p x = negb (q x)) -> forallb p l = true -> filter q l = []).
  { intros p q l Hpq. induction l as [| x l IH]; cbn; [reflexivity |].
    intros H. apply andb_true_iff in H. destruct H as [Hx H].
    rewrite Hpq in Hx. apply negb_true_iff in Hx. rewrite Hx. now apply IH. }
  split; [| split].
  - rewrite filter_app, (Hkeep _ _ Hfolders).
    rewrite (Hdrop (fun e => negb (isFolder e)) isFolder files) by (reflexivity || exact Hfiles).
    rewrite app_nil_r. unfold folders. rewrite map_map. reflexivity.
  - rewrite filter_app, (Hkeep _ _ Hfiles).
    rewrite (Hdrop isFolder (fun e => negb (isFolder e)) folders);
      [| intros x; now rewrite negb_involutive | exact Hfolders].
    cbn [app]. unfold files. rewrite map_map. cbn [Key fileEntry].
    generalize (match S3.Contents response with Some cs => cs | None => [] end).
    intros l. induction l as [| c l IH]; cbn; [reflexivity |].
    destruct (S3.Key c =? currentPrefix)%string; cbn; now rewrite IH.
  - intros i j ei ej Hij Hi Hj Hfolder.
    destruct (Nat.lt_ge_cases j (length folders)) as [Hlt | Hge].
    + rewrite nth_error_app1 in Hi by lia.
      apply nth_error_In in Hi.
      rewrite forallb_forall in Hfolders. apply Hfolders, Hi.
    + rewrite nth_error_app2 in Hj by lia.
      apply nth_error_In in Hj.
      rewrite forallb_forall in Hfiles. specialize (Hfiles ej Hj).
      rewrite Hfolder in Hfiles. discriminate.
Qed.

Lemma listing_shows_folders_first_witness :
  let response :=
    {| S3.Contents := Some [obj "docs/"; obj "docs/a.txt"];
       S3.CommonPrefixes := Some [{| S3.Prefix := "docs/img/" |}];
       S3.NextContinuationToken := None |} in
  let client :=
    {| S3.listBuckets := inr None;
       S3.listObjectsV2 := fun _ _ _ _ => inr response;
       S3.deleteObjects := fun _ _ => inr tt;
       S3.upload := fun _ _ _ => noTransfer |} in
  map Key (objects (state_of (fetchObjects (Some "b") "docs/"
                                (browsing client (Some "b") "docs/" [] [] ""))))
  = ["docs/img/"; "docs/a.txt"]
  /\ map Key (filter isFolder
                (objects (state_of (fetchObjects (Some "b") "docs/"
                                      (browsing client (Some "b") "docs/" [] [] "")))))
     = ["docs/img/"].
Proof.
  cbv zeta. split; [reflexivity |].
  exact (proj1 (listing_shows_folders_first
                  {| S3.listBuckets := inr None;
                     S3.listObjectsV2 := fun _ _ _ _ =>
                       inr {| S3.Contents := Some [obj "docs/"; obj "docs/a.txt"];
                              S3.CommonPrefixes := Some [{| S3.Prefix := "docs/img/" |}];
                              S3.NextContinuationToken := None |};
                     S3.deleteObjects := fun _ _ => inr tt;
                     S3.upload := fun _ _ _ => noTransfer |}
                  "b" "docs/"
                  (browsing _ (Some "b") "docs/" [] [] "")
                  {| S3.Contents := Some [obj "docs/"; obj "docs/a.txt"];
                     S3.CommonPrefixes := Some [{| S3.Prefix := "docs/img/" |}];
                     S3.NextContinuationToken := None |}
                  eq_refl eq_refl eq_refl)).
Defined.

(** ** Filter view *)

Lemma includes_iff (s t : string) :
  includes s t = true <-> exists a b, s = (a ++ t ++ b)%string.
Proof.
  split.
  - induction s as [| c s IH]; cbn [includes]; intros H;
      apply orb_true_iff in H; destruct H as [H | H].
    + destruct (prefix_split _ _ H) as (b & Hb). exists "", b. exact Hb.
    + discriminate H.
    + destruct (prefix_split _ _ H) as (b & Hb). exists "", b. exact Hb.
    + destruct (IH H) as (a & b & ->). exists (String c a), b. reflexivity.
  - intros (a & b & ->). induction a as [| c a IH].
    + cbn [String.append].
      destruct (t ++ b)%string eqn:E; cbn [includes]; rewrite <- E;
        rewrite prefix_app; reflexivity.
    + cbn [String.append includes]. rewrite IH. apply orb_true_r.
Qed.

Lemma includes_trans (s t u : string) :
  includes s t = true -> includes t u = true -> includes s u = true.
Proof.
  intros Hst Htu. apply includes_iff in Hst. apply includes_iff in Htu.
  destruct Hst as (a & b & ->). destruct Htu as (c & d & ->).
  apply includes_iff. exists (a ++ c)%string, (d ++ b)%string.
  rewrite !string_app_assoc. reflexivity.
Qed.

Section FilterProperties.

Variable toLowerCase : string -> string.

(** X17.  The filter box narrows the rows and nothing else: with an empty
    query every entry is shown; a query whose lower-cased form contains the
    lower-cased form of another shows no row that the other hides, so that
    typing further never brings a row back; and two queries that differ in
    case only show the same rows. *)
Theorem filter_narrows (st1 st2 : AppState) :
  objects st1 = objects st2 ->
  (searchQuery st1 = "" -> filteredObjects toLowerCase st1 = objects st1)
  /\ (searchQuery st2 <> "" ->
      includes (toLowerCase (searchQuery st2)) (toLowerCase (searchQuery st1)) = true ->
      incl (filteredObjects toLowerCase st2) (filteredObjects toLowerCase st1))
  /\ (searchQuery st1 <> "" -> searchQuery st2 <> "" ->
      toLowerCase (searchQuery st1) = toLowerCase (searchQuery st2) ->
      filteredObjects toLowerCase st1 = filteredObjects toLowerCase st2).
Proof.
  intros Hobj.
  assert (Htruthy : forall q, q <> "" -> negb (Js.truthy q) = false).
  { intros q Hq. unfold Js.truthy. apply String.eqb_neq in Hq. now rewrite Hq. }
  split; [| split].
  - intros Hq. unfold filteredObjects. rewrite Hq. reflexivity.
  - intros Hq2 Hinc e He. unfold filteredObjects in *.
    rewrite (Htruthy _ Hq2) in He. apply filter_In in He. destruct He as [Hin Hmatch].
    rewrite <- Hobj in Hin.
    destruct (negb (Js.truthy (searchQuery st1))); [exact Hin |].
    apply filter_In. split; [exact Hin |].
    exact (includes_trans _ _ _ Hmatch Hinc).
  - intros Hq1 Hq2 Hlow. unfold filteredObjects.
    rewrite (Htruthy _ Hq1), (Htruthy _ Hq2), Hobj, Hlow. reflexivity.
Qed.

End FilterProperties.

Lemma filter_narrows_witness :
  let listing := [fileEntry (obj "Report.PDF"); fileEntry (obj "notes.txt")] in
  let st1 := browsing storeA2 (Some "b") "" listing [] "re" in
  let st2 := browsing storeA2 (Some "b") "" listing [] "REP" in
  map Key (filteredObjects asciiLower st2) = ["Report.PDF"]
  /\ incl (filteredObjects asciiLower st2) (filteredObjects asciiLower st1).
Proof.
  cbv zeta. split; [reflexivity |].
  refine (proj1 (proj2 (filter_narrows asciiLower
            (browsing storeA2 (Some "b") ""
               [fileEntry (obj "Report.PDF"); fileEntry (obj "notes.txt")] [] "re")
            (browsing storeA2 (Some "b") ""
               [fileEntry (obj "Report.PDF"); fileEntry (obj "notes.txt")] [] "REP")
            eq_refl)) _ _).
  - discriminate.
  - reflexivity.
Defined.

(** ** Saved connections in local storage *)

(** X18.  The list of saved connections that [App] saves from is the one
    read when the page loaded; a deletion in the connection form changes
    the stored item and the form's list, not that copy.  So a connection
    deleted in the form is gone from the item, and the next connect that
    saves under a new name writes the list of the page load with the new
    entry appended: the deleted connection is stored again, and shown again
    by the form after a disconnect.  A quick connect with a saved entry
    writes nothing to the item. *)
Theorem deleted_connection_restored_by_next_save
    (stored : list Conn.Saved) (c : Conn.Saved)
    (S3Client : Conn.Details -> S3.Client) (now : N) (details : Conn.Details)
    (cfg : Conn.SaveConfig) (bs : option (list S3.Bucket)) :
  In c stored ->
  S3.listBuckets (S3Client details) = inr bs ->
  ~ In (Conn.name cfg) (map (fun s => Conn.name (Conn.config s)) stored) ->
  let pg1 := fst (handleDeleteConnection (Conn.id c) (loadPage stored)) in
  let pg2 := fst (onConnect S3Client now details (Some cfg) pg1) in
  let pg3 := fst (disconnectPage pg2) in
  ~ In c (storage pg1)
  /\ formList pg1 = Some (storage pg1)
  /\ savedConnections (appState pg1) = stored
  /\ storage pg2 = stored ++ [{| Conn.id := now; Conn.config := cfg |}]
  /\ In c (storage pg2)
  /\ formList pg3 = Some (storage pg2)
  /\ storage (fst (handleQuickConnect S3Client now c pg1)) = storage pg1.
Proof.
  intros Hc Hok Hfresh. cbv zeta.
  assert (H1 : ~ In c (storage (fst (handleDeleteConnection (Conn.id c) (loadPage stored))))).
  { cbn. intros Hin. apply filter_In in Hin. destruct Hin as [_ Hin].
    rewrite N.eqb_refl in Hin. discriminate. }
  assert (H2 : storage (fst (onConnect S3Client now details (Some cfg)
                               (fst (handleDeleteConnection (Conn.id c) (loadPage stored)))))
               = stored ++ [{| Conn.id := now; Conn.config := cfg |}]).
  { unfold onConnect. cbn [fst storage]. rewrite Hok.
    set (app1 := appState (fst (handleDeleteConnection (Conn.id c) (loadPage stored)))).
    assert (Happ1 : savedConnections app1 = stored) by reflexivity.
    destruct (handleConnect_succeeded S3Client now details (Some cfg) app1 bs Hok)
      as (saved' & notes & Hrun & _).
    pose proof (handleConnect_saved S3Client now details cfg app1 bs Hok) as Hs.
    cbv zeta in Hs. destruct Hs as (_ & _ & Hsaved).
    rewrite Happ1 in Hsaved.
    destruct (findIndex _ stored) as [i |] eqn:Hfind.
    { exfalso. destruct (findIndex_Some _ _ _ Hfind) as (pre & x & post & -> & _ & Hx & _).
      apply String.eqb_eq in Hx. apply Hfresh.
      rewrite map_app, in_app_iff. right. left. exact Hx. }
    rewrite <- Hsaved. rewrite Hrun. unfold connect.
    rewrite (bind_returned _ _ _ _ _ _ Hrun). cbv beta.
    rewrite state_of_triple.
    change (s3Client app1) with (@None S3.Client).
    cbn [s3Client state_of setS3Client modify fst snd].
    unfold effectFetchBuckets, effectFetchObjects, fetchBuckets, fetchObjects, bind.
    cbn. rewrite Hok. reflexivity. }
  split; [exact H1 |]. split; [reflexivity |]. split; [reflexivity |].
  split; [exact H2 |]. split.
  - rewrite H2. apply in_or_app. left. exact Hc.
  - split; [reflexivity |].
    unfold handleQuickConnect, onConnect. cbn [fst storage].
    destruct (S3.listBuckets (S3Client (Conn.details (Conn.config c)))); reflexivity.
Qed.

Lemma deleted_connection_restored_by_next_save_witness :
  let old := {| Conn.id := 7;
                Conn.config :=
                  {| Conn.name := "old";
                     Conn.details := {| Conn.endpoint := "http://old:9000";
                                        Conn.accessKey := "k"; Conn.secretKey := "s" |} |} |} in
  let cfg := {| Conn.name := "new";
                Conn.details := {| Conn.endpoint := "http://new:9000";
                                   Conn.accessKey := "k"; Conn.secretKey := "s" |} |} in
  let pg1 := fst (handleDeleteConnection 7 (loadPage [old])) in
  let pg2 := fst (onConnect (fun _ => storeA2) 99 (Conn.details cfg) (Some cfg) pg1) in
  storage pg1 = [] /\ In old (storage pg2).
Proof.
  cbv zeta. split; [reflexivity |].
  refine (proj1 (proj2 (proj2 (proj2 (proj2
    (deleted_connection_restored_by_next_save _ _ (fun _ => storeA2) 99 _ _
       (Some [{| S3.Name := "b" |}]) _ eq_refl _)))))).
  - left. reflexivity.
  - cbn. intuition discriminate.
Defined.

(** ** Bulk delete: what is sent, in general *)

(** The shapes the log of a delete can have. *)
Lemma handleDeleteSelected_log_cases fuel st :
  log_of (handleDeleteSelected fuel st) = []
  \/ exists client bucket,
       s3Client st = Some client
       /\ selectedBucket st = Some bucket
       /\ Js.truthy bucket = true
       /\ selectedItems st <> []
       /\ (log_of (handleDeleteSelected fuel st)
           = log_of (resolveKeys fuel client bucket (selectedItems st) st)
           \/ exists keys,
                result_of (resolveKeys fuel client bucket (selectedItems st) st)
                = Returned keys
                /\ keys <> []
                /\ log_of (handleDeleteSelected fuel st)
                   = log_of (resolveKeys fuel client bucket (selectedItems st) st)
                     ++ Sent (S3.DeleteObjectsCommand bucket keys)
                     :: deleteNote (S3.deleteObjects client bucket keys) keys
                     :: log_of (fetchObjects (Some bucket) (prefix st)
                                  (state_of (setIsDeleteModalOpen false st)))).
Proof.
  destruct (s3Client st) as [client |] eqn:Hc;
    [| left; unfold handleDeleteSelected; rewrite Hc; reflexivity].
  destruct (selectedBucket st) as [bucket |] eqn:Hb;
    [| left; unfold handleDeleteSelected; rewrite Hc, Hb; reflexivity].
  destruct (Js.truthy bucket) eqn:Htr;
    [| left; unfold handleDeleteSelected; rewrite Hc, Hb, Htr; reflexivity].
  destruct (selectedItems st) as [| item items] eqn:Hsel;
    [left; unfold handleDeleteSelected; rewrite Hc, Hb, Htr, Hsel; reflexivity |].
  right. exists client, bucket.
  assert (Hne : selectedItems st <> []) by (rewrite Hsel; discriminate).
  rewrite <- Hsel.
  split; [reflexivity |]. split; [reflexivity |]. split; [exact Htr |].
  split; [exact Hne |].
  pose proof (resolveKeys_run fuel client bucket (selectedItems st) st) as Hrun.
  cbv zeta in Hrun.
  destruct (result_of (resolveSelection fuel client bucket (selectedItems st) [] st))
    as [all | e |].
  - rewrite (handleDeleteSelected_run fuel st client bucket _ _ Hc Hb Htr Hne Hrun).
    rewrite Hrun.
    destruct (Js.spread_new_Set all) as [| k ks] eqn:Hkeys.
    + left. reflexivity.
    + right. exists (k :: ks). split; [reflexivity |]. split; [discriminate |].
      reflexivity.
  - left. unfold handleDeleteSelected. rewrite Hc, Hb, Htr, Hsel.
    cbn [length Nat.eqb negb orb]. rewrite <- Hsel.
    rewrite (bind_threw _ _ _ _ _ _ Hrun), Hrun. reflexivity.
  - left. unfold handleDeleteSelected. rewrite Hc, Hb, Htr, Hsel.
    cbn [length Nat.eqb negb orb]. rewrite <- Hsel.
    rewrite (bind_out_of_fuel _ _ _ _ _ Hrun), Hrun. reflexivity.
Qed.

Lemma resolveSelection_keeps_files fuel client bucket (items : list string) :
  forall acc st all,
    result_of (resolveSelection fuel client bucket items acc st) = Returned all ->
    (forall k, In k acc -> In k all)
    /\ (forall k, In k items -> Js.endsWith k "/" = false -> In k all).
Proof.
  induction items as [| key rest IH]; intros acc st all H; cbn [resolveSelection] in H.
  - cbn in H. injection H as <-. split; [auto | intros k []].
  - destruct (Js.endsWith key "/") eqn:Hfolder.
    + unfold getAllKeysInPrefix, bind in H.
      pose proof (getAllKeysLoop_quiet fuel client bucket key [] None st) as Hq.
      cbv zeta in Hq.
      destruct (getAllKeysLoop fuel client bucket key [] None st) as [[o s] l].
      cbn in Hq. destruct Hq as [-> _].
      destruct o as [keys | e |]; try discriminate H.
      assert (Hr : result_of (resolveSelection fuel client bucket rest (acc ++ keys) st)
                   = Returned all).
      { destruct (resolveSelection fuel client bucket rest (acc ++ keys) st)
          as [[o2 s2] l2]. exact H. }
      destruct (IH _ _ _ Hr) as [Hacc Hfiles]. split.
      * intros k Hk. apply Hacc, in_or_app. left. exact Hk.
      * intros k [<- | Hk] Hf; [congruence | apply Hfiles; assumption].
    + destruct (IH _ _ _ H) as [Hacc Hfiles]. split.
      * intros k Hk. apply Hacc, in_or_app. left. exact Hk.
      * intros k [<- | Hk] Hf.
        -- apply Hacc, in_or_app. right. left. reflexivity.
        -- apply Hfiles; assumption.
Qed.

(** X19.  Whatever is selected and whatever the store answers, a delete
    sends at most one delete request; a request that is sent is not empty,
    names no key twice, and names every selected file key. *)
Theorem delete_request_is_single_and_duplicate_free (fuel : nat) (st : AppState) :
  let requests := deleteRequests (log_of (handleDeleteSelected fuel st)) in
  length requests <= 1
  /\ forall keys,
       In keys requests ->
       keys <> []
       /\ NoDup keys
       /\ (forall k, In k (selectedItems st) -> Js.endsWith k "/" = false -> In k keys).
Proof.
  cbv zeta.
  destruct (handleDeleteSelected_log_cases fuel st)
    as [-> | (client & bucket & Hc & Hb & Htr & Hne & [Hlog | (keys & Hres & Hkeys & Hlog)])].
  - split; [cbn; lia | intros keys []].
  - pose proof (resolveKeys_run fuel client bucket (selectedItems st) st) as Hrun.
    cbv zeta in Hrun.
    pose proof (resolveSelection_quiet fuel client bucket (selectedItems st) [] st) as Hq.
    cbv zeta in Hq. destruct Hq as [_ Hquiet].
    destruct (quiet_no_delete _ Hquiet) as [Hd _].
    rewrite Hlog, Hrun, log_of_triple, Hd.
    split; [cbn; lia | intros keys []].
  - rewrite (handleDeleteSelected_requests fuel st client bucket keys
               Hc Hb Htr Hne Hres Hkeys).
    split; [cbn; lia |].
    intros ks [<- | []].
    pose proof (resolveKeys_run fuel client bucket (selectedItems st) st) as Hrun.
    cbv zeta in Hrun. rewrite Hrun in Hres. cbn [result_of fst] in Hres.
    destruct (result_of (resolveSelection fuel client bucket (selectedItems st) [] st))
      as [all | e |] eqn:Hall; try discriminate Hres.
    injection Hres as <-.
    split; [exact Hkeys |]. split; [apply spread_new_Set_NoDup |].
    intros k Hk Hfile. apply spread_new_Set_In.
    destruct (resolveSelection_keeps_files _ _ _ _ _ _ _ Hall) as [_ Hfiles].
    apply Hfiles; assumption.
Qed.

Lemma getAllKeysLoop_requests fuel client bucket p :
  forall keys token st c,
    In c (requestsSent (log_of (getAllKeysLoop fuel client bucket p keys token st))) ->
    exists t, c = S3.ListObjectsV2Command bucket p None t.
Proof.
  induction fuel as [| fuel IH]; intros keys token st c Hin.
  - destruct Hin.
  - rewrite getAllKeysLoop_step in Hin.
    destruct (S3.listObjectsV2 client bucket p None token) as [e | response].
    + destruct Hin as [<- | []]. eexists. reflexivity.
    + cbv zeta in Hin.
      destruct (Js.truthy_opt (S3.NextContinuationToken response)).
      * rewrite log_of_triple in Hin. destruct Hin as [<- | Hin].
        -- eexists. reflexivity.
        -- exact (IH _ _ _ _ Hin).
      * destruct Hin as [<- | []]. eexists. reflexivity.
Qed.

Lemma resolveSelection_requests fuel client bucket (items : list string) :
  forall acc st c,
    In c (requestsSent (log_of (resolveSelection fuel client bucket items acc st))) ->
    exists p t, c = S3.ListObjectsV2Command bucket p None t
                /\ In p items /\ Js.endsWith p "/" = true.
Proof.
  induction items as [| key rest IH]; intros acc st c Hin; cbn [resolveSelection] in Hin.
  - destruct Hin.
  - destruct (Js.endsWith key "/") eqn:Hfolder.
    + unfold getAllKeysInPrefix, bind in Hin.
      pose proof (getAllKeysLoop_requests fuel client bucket key [] None st) as Hreq.
      pose proof (getAllKeysLoop_quiet fuel client bucket key [] None st) as Hq.
      cbv zeta in Hq.
      destruct (getAllKeysLoop fuel client bucket key [] None st) as [[o s] l].
      cbn in Hq, Hreq. destruct Hq as [-> _].
      assert (Hl : forall x, In x (requestsSent l) ->
                   exists p t, x = S3.ListObjectsV2Command bucket p None t
                               /\ In p (key :: rest) /\ Js.endsWith p "/" = true).
      { intros x Hx. destruct (Hreq x Hx) as (t & ->).
        exists key, t. split; [reflexivity |]. split; [left; reflexivity | exact Hfolder]. }
      destruct o as [keys | e |]; try (apply Hl; exact Hin).
      specialize (IH (acc ++ keys) st).
      destruct (resolveSelection fuel client bucket rest (acc ++ keys) st)
        as [[o2 s2] l2].
      cbn [log_of snd] in Hin, IH. rewrite requestsSent_app in Hin.
      apply in_app_or in Hin. destruct Hin as [Hin | Hin]; [apply Hl; exact Hin |].
      destruct (IH c Hin) as (p & t & -> & Hp & Hf).
      exists p, t. split; [reflexivity |]. split; [right; exact Hp | exact Hf].
    + destruct (IH _ _ _ Hin) as (p & t & -> & Hp & Hf).
      exists p, t. split; [reflexivity |]. split; [right; exact Hp | exact Hf].
Qed.

(** X20.  A delete never addresses anything but the selected bucket, and
    lists nothing but the selected folders: each request it sends is a flat
    listing of a selected key that ends with [/], the delete request, or
    the refresh of the current folder, all three in the selected bucket;
    and with no bucket selected it sends nothing. *)
Theorem delete_requests_stay_in_selected_bucket
    (fuel : nat) (st : AppState) (c : S3.Command) :
  In c (requestsSent (log_of (handleDeleteSelected fuel st))) ->
  exists bucket,
    selectedBucket st = Some bucket
    /\ ((exists p t, c = S3.ListObjectsV2Command bucket p None t
                     /\ In p (selectedItems st) /\ Js.endsWith p "/" = true)
        \/ (exists keys, c = S3.DeleteObjectsCommand bucket keys)
        \/ c = S3.ListObjectsV2Command bucket (prefix st) (Some "/") None).
Proof.
  intros Hin.
  destruct (handleDeleteSelected_log_cases fuel st)
    as [Hnil | (client & bucket & Hc & Hb & Htr & Hne & [Hlog | (keys & Hres & Hkeys & Hlog)])].
  - rewrite Hnil in Hin. destruct Hin.
  - exists bucket. split; [exact Hb |]. left.
    rewrite Hlog, resolveKeys_run, log_of_triple in Hin.
    exact (resolveSelection_requests _ _ _ _ _ _ _ Hin).
  - exists bucket. split; [exact Hb |].
    rewrite Hlog, requestsSent_app in Hin. apply in_app_or in Hin.
    destruct Hin as [Hin | Hin].
    + left. rewrite resolveKeys_run, log_of_triple in Hin.
      exact (resolveSelection_requests _ _ _ _ _ _ _ Hin).
    + change (Sent ?x :: ?n :: ?l) with ([Sent x] ++ [n] ++ l) in Hin.
      rewrite !requestsSent_app in Hin.
      apply in_app_or in Hin. destruct Hin as [[<- | []] | Hin];
        [right; left; eexists; reflexivity |].
      apply in_app_or in Hin. destruct Hin as [Hin | Hin].
      * destruct (S3.deleteObjects client bucket keys); destruct Hin.
      * right. right.
        assert (Hc' : s3Client (state_of (setIsDeleteModalOpen false st)) = Some client)
          by exact Hc.
        rewrite (fetchObjects_request client bucket (prefix st) _ Hc' Htr) in Hin.
        destruct Hin as [<- | []]. reflexivity.
Qed.

Lemma delete_requests_stay_in_selected_bucket_witness :
  let st := browsing storeA2 (Some "b") "" [] ["a/"; "x"] "" in
  requestsSent (log_of (handleDeleteSelected 2 st))
  = [S3.ListObjectsV2Command "b" "a/" None None;
     S3.ListObjectsV2Command "b" "a/" None (Some "t2");
     S3.DeleteObjectsCommand "b" ["a/"; "a/1"; "a/2"; "a/sub/3"; "x"];
     S3.ListObjectsV2Command "b" "" (Some "/") None]
  /\ exists bucket, selectedBucket st = Some bucket.
Proof.
  cbv zeta. split; [reflexivity |].
  destruct (delete_requests_stay_in_selected_bucket 2
              (browsing storeA2 (Some "b") "" [] ["a/"; "x"] "")
              (S3.DeleteObjectsCommand "b" ["a/"; "a/1"; "a/2"; "a/sub/3"; "x"]))
    as (bucket & Hb & _).
  - cbn. right. right. left. reflexivity.
  - exists bucket. exact Hb.
Defined.

Lemma delete_request_is_single_and_duplicate_free_witness :
  let st := browsing storeA2 (Some "b") "" [] ["a/1"; "a/"; "x"] "" in
  deleteRequests (log_of (handleDeleteSelected 2 st))
  = [["a/1"; "a/"; "a/2"; "a/sub/3"; "x"]]
  /\ NoDup ["a/1"; "a/"; "a/2"; "a/sub/3"; "x"].
Proof.
  cbv zeta. split; [reflexivity |].
  refine (proj1 (proj2 (proj2 (delete_request_is_single_and_duplicate_free 2
            (browsing storeA2 (Some "b") "" [] ["a/1"; "a/"; "x"] "")) _ _))).
  left. reflexivity.
Defined.
